(** * photo-convert: the image pipeline of [ImageProcessor.tsx]

    A shallow embedding of the component [src/components/ImageProcessor.tsx]:
    the dimension computation of [processImage] and the ways a run ends,
    the file ingestion of [handleFile] with the callbacks of its reader,
    the settings handler [handleSettingChange], the drag and drop
    handlers, the [useDebounce] hook and the effect that re-runs
    [processImage].

    JavaScript numbers are modelled by the type [number] below: NaN, the
    two infinities, and finite values held as rationals.  Division,
    multiplication and [parseInt] round their exact result to the nearest
    binary64 value, a tie going to the even significand, with gradual
    underflow and overflow to an infinity; comparison, [Math.round] and
    [Math.max] are exact.  The sign of zero is not modelled. *)

From Stdlib Require Import ZArith QArith Qround Qabs Qpower Lqa Lia Bool.
From Stdlib Require Import Ascii String List.
From stdpp Require Import gmap strings.
Import ListNotations.

Local Open Scope Z_scope.

(** ** JavaScript numbers *)

Module JS.

Inductive number : Type :=
| NaN
| PosInf
| NegInf
| Fin (q : Q).

Definition ofZ (z : Z) : number := Fin (inject_Z z).

(** *** Rounding to binary64 *)

Definition pow2 (k : Z) : Q := (2 ^ k)%Q.

(** The integer [k] with [2^k <= x < 2^(k+1)], for a positive [x]. *)
Definition ilog2 (x : Q) : Z :=
  let k0 := Z.log2 (Qnum x) - Z.log2 (Zpos (Qden x)) in
  if Qle_bool (pow2 k0) x then k0 else k0 - 1.

(** The nearest integer, a tie going to the even one. *)
Definition roundHalfEven (y : Q) : Z :=
  let f := Qfloor y in
  match Qcompare (y - inject_Z f) (1 # 2) with
  | Lt => f
  | Gt => f + 1
  | Eq => if Z.even f then f else f + 1
  end.

(** The exponent of the last bit of a 53-bit significand for [x]; at
    least -1074, where the subnormal values lie. *)
Definition quantum (x : Q) : Z := Z.max (ilog2 x - 52) (-1074).

Definition roundPositive (x : Q) : Q :=
  (inject_Z (roundHalfEven (x / pow2 (quantum x))) * pow2 (quantum x))%Q.

(** The nearest binary64 value, the exponent not bounded above, as a
    fraction in lowest terms. *)
Definition round64 (x : Q) : Q :=
  Qred match Qcompare x 0 with
       | Eq => 0%Q
       | Gt => roundPositive x
       | Lt => (- roundPositive (- x))%Q
       end.

(** A rational that is a binary64 value. *)
Definition isDouble (x : Q) : bool :=
  Qeq_bool (round64 x) x && Qle_bool (Qabs x) (pow2 1024 - pow2 971).

(** The Number value for an exact result: rounded, and an infinity when
    the rounded magnitude reaches 2^1024. *)
Definition toNumber (x : Q) : number :=
  let r := round64 x in
  if Qle_bool (pow2 1024) r then PosInf
  else if Qle_bool r (- pow2 1024) then NegInf
  else Fin r.

(** [a / b].  A finite zero is taken to be [+0]. *)
Definition div (a b : number) : number :=
  match a, b with
  | NaN, _ | _, NaN => NaN
  | PosInf, Fin y => if Qle_bool 0 y then PosInf else NegInf
  | NegInf, Fin y => if Qle_bool 0 y then NegInf else PosInf
  | (PosInf | NegInf), (PosInf | NegInf) => NaN
  | Fin _, (PosInf | NegInf) => Fin 0
  | Fin x, Fin y =>
      if Qeq_bool y 0 then
        if Qeq_bool x 0 then NaN
        else if Qle_bool 0 x then PosInf else NegInf
      else toNumber (x / y)
  end.

(** [a * b]. *)
Definition mul (a b : number) : number :=
  match a, b with
  | NaN, _ | _, NaN => NaN
  | PosInf, PosInf | NegInf, NegInf => PosInf
  | PosInf, NegInf | NegInf, PosInf => NegInf
  | PosInf, Fin y | Fin y, PosInf =>
      if Qeq_bool y 0 then NaN else if Qle_bool 0 y then PosInf else NegInf
  | NegInf, Fin y | Fin y, NegInf =>
      if Qeq_bool y 0 then NaN else if Qle_bool 0 y then NegInf else PosInf
  | Fin x, Fin y => toNumber (x * y)
  end.

(** [a > b]; every comparison with NaN is false. *)
Definition gt (a b : number) : bool :=
  match a, b with
  | NaN, _ | _, NaN => false
  | PosInf, PosInf => false
  | PosInf, _ => true
  | _, PosInf => false
  | NegInf, _ => false
  | Fin _, NegInf => true
  | Fin x, Fin y => negb (Qle_bool x y)
  end.

(** [a >= b]. *)
Definition ge (a b : number) : bool :=
  match a, b with
  | NaN, _ | _, NaN => false
  | PosInf, _ => true
  | _, NegInf => true
  | _, PosInf => false
  | NegInf, _ => false
  | Fin x, Fin y => Qle_bool y x
  end.

(** [Math.round]: the nearest integer, a tie going towards +infinity. *)
Definition roundQ (x : Q) : Z := Qfloor (x + (1 # 2)).

Definition mathRound (a : number) : number :=
  match a with
  | Fin x => ofZ (roundQ x)
  | _ => a
  end.

(** [Math.max a b]. *)
Definition mathMax (a b : number) : number :=
  match a, b with
  | NaN, _ | _, NaN => NaN
  | PosInf, _ | _, PosInf => PosInf
  | NegInf, _ => b
  | _, NegInf => a
  | Fin x, Fin y => if Qle_bool x y then b else a
  end.

(** Truthiness of a number, as used by [||]: NaN and zero are falsy. *)
Definition truthy (a : number) : bool :=
  match a with
  | NaN => false
  | Fin x => negb (Qeq_bool x 0)
  | _ => true
  end.

(** [a || b] on numbers. *)
Definition or (a b : number) : number := if truthy a then a else b.

(** [Number.isInteger]. *)
Definition isInteger (a : number) : bool :=
  match a with
  | Fin x => Qeq_bool x (inject_Z (Qfloor x))
  | _ => false
  end.

End JS.

Abbreviation number := JS.number.

(** ** The dimension computation of [processImage] (lines 67-86) *)

Record ProcessedDimensions : Type := mkDims {
  width : number;
  height : number;
}.

Definition finalDimensions
    (width height currentMaxWidth currentMaxHeight : number)
    : ProcessedDimensions :=
  let aspectRatio := JS.div width height in
  let targetWidth := width in
  let targetHeight := height in
  let '(targetWidth, targetHeight) :=
    if JS.gt targetWidth currentMaxWidth
    then (let targetWidth := currentMaxWidth in
          (targetWidth, JS.div targetWidth aspectRatio))
    else (targetWidth, targetHeight) in
  let '(targetWidth, targetHeight) :=
    if JS.gt targetHeight currentMaxHeight
    then (let targetHeight := currentMaxHeight in
          (JS.mul targetHeight aspectRatio, targetHeight))
    else (targetWidth, targetHeight) in
  let finalWidth := JS.mathMax (JS.ofZ 1) (JS.mathRound targetWidth) in
  let finalHeight := JS.mathMax (JS.ofZ 1) (JS.mathRound targetHeight) in
  {| width := finalWidth; height := finalHeight |}.

(** The algorithm of the Dimension Calculator as the specification words
    it: the aspect ratio, the width clamp, the height clamp checked
    against the height the first step left, rounding to a nearest integer
    and the 1-pixel floor.  A quotient and a product are the binary64
    values of the exact ones. *)

Definition nearestInteger (x : Q) (n : Z) : Prop :=
  (Qabs (x - inject_Z n) <= 1 # 2)%Q.

Definition specWidthClamp (aspect W H maxW w1 h1 : Q) : Prop :=
  if Qlt_le_dec maxW W
  then (w1 == maxW /\ h1 == JS.round64 (w1 / aspect))%Q
  else (w1 == W /\ h1 == H)%Q.

Definition specHeightClamp (aspect maxH w1 h1 w2 h2 : Q) : Prop :=
  if Qlt_le_dec maxH h1
  then (h2 == maxH /\ w2 == JS.round64 (h2 * aspect))%Q
  else (w2 == w1 /\ h2 == h1)%Q.

Definition specDimensions (W H maxW maxH : Q) (w' h' : Z) : Prop :=
  exists aspect w1 h1 w2 h2 : Q, exists rw rh : Z,
    (aspect == JS.round64 (W / H))%Q /\
    specWidthClamp aspect W H maxW w1 h1 /\
    specHeightClamp aspect maxH w1 h1 w2 h2 /\
    nearestInteger w2 rw /\ nearestInteger h2 rh /\
    w' = Z.max 1 rw /\ h' = Z.max 1 rh.

(** ** Strings: [RegExp] matching and [parseInt] *)

Module Str.

Definition code (c : ascii) : N := N_of_ascii c.

Definition inRange (lo hi : N) (c : ascii) : bool :=
  ((lo <=? code c) && (code c <=? hi))%N.

(** [toUpperCase] and [toLowerCase] of one code unit.  Only the letters
    [a]-[z] and [A]-[Z] change: a code unit of 128 or more never
    canonicalizes to one below 128, so it cannot match an ASCII pattern
    character, and it is left as it is. *)
Definition toUpperCase (c : ascii) : ascii :=
  if inRange 97 122 c then ascii_of_N (code c - 32) else c.

Definition toLowerCase (c : ascii) : ascii :=
  if inRange 65 90 c then ascii_of_N (code c + 32) else c.

Fixpoint lower (s : string) : string :=
  match s with
  | EmptyString => EmptyString
  | String c s' => String (toLowerCase c) (lower s')
  end.

(** A pattern between [^] and [$]: a sequence of characters, some of them
    optional ([c?]). *)
Inductive term : Type :=
| Chr (c : ascii)
| Opt (c : ascii).

(** Character comparison of the matcher: with the [i] flag both code units
    are canonicalized (upper-cased) first. *)
Definition sameChar (ignoreCase : bool) (c d : ascii) : bool :=
  if ignoreCase
  then Ascii.eqb (toUpperCase c) (toUpperCase d)
  else Ascii.eqb c d.

(** Backtracking match of the whole input: [^] anchors the first term at
    the start, [$] (no [m] flag) accepts only the end of the input. *)
Fixpoint matchAnchored (ignoreCase : bool) (p : list term) (s : string)
    : bool :=
  match p with
  | [] => match s with EmptyString => true | _ => false end
  | Chr c :: p' =>
      match s with
      | String d s' => sameChar ignoreCase c d && matchAnchored ignoreCase p' s'
      | EmptyString => false
      end
  | Opt c :: p' =>
      match s with
      | String d s' =>
          (sameChar ignoreCase c d && matchAnchored ignoreCase p' s')
          || matchAnchored ignoreCase p' s
      | EmptyString => matchAnchored ignoreCase p' s
      end
  end.

(** White space skipped by [parseInt] (code units below 256). *)
Definition isWhiteSpace (c : ascii) : bool :=
  inRange 9 13 c || N.eqb (code c) 32 || N.eqb (code c) 160.

Fixpoint trimStart (s : string) : string :=
  match s with
  | String c s' => if isWhiteSpace c then trimStart s' else s
  | EmptyString => s
  end.

Definition digitValue (c : ascii) : option Z :=
  if inRange 48 57 c then Some (Z.of_N (code c) - 48) else None.

(** The value of the longest prefix of decimal digits; [None] when the
    prefix is empty. *)
Fixpoint digits (acc : option Z) (s : string) : option Z :=
  match s with
  | String c s' =>
      match digitValue c with
      | Some d => digits (Some (10 * default 0 acc + d)) s'
      | None => acc
      end
  | EmptyString => acc
  end.

(** The sign [parseInt] reads, and what follows it. *)
Definition signAndRest (s : string) : Z * string :=
  match s with
  | String c s' =>
      if Ascii.eqb c "-" then (-1, s')
      else if Ascii.eqb c "+" then (1, s')
      else (1, s)
  | EmptyString => (1, s)
  end.

(** [parseInt(s, 10)]: the Number value of the signed integer read, the
    nearest binary64 value when it has more than 53 bits. *)
Definition parseInt (s : string) : number :=
  let '(sign, rest) := signAndRest (trimStart s) in
  match digits None rest with
  | None => JS.NaN
  | Some n => JS.toNumber (inject_Z (sign * n))
  end.

Fixpoint zeros (n : nat) : string :=
  match n with
  | O => EmptyString
  | S n' => String "0" (zeros n')
  end.

End Str.

(** The pattern of [/^image\/jpe?g$/i]. *)
Definition jpegPattern : list Str.term :=
  [Str.Chr "i"; Str.Chr "m"; Str.Chr "a"; Str.Chr "g"; Str.Chr "e";
   Str.Chr "/"; Str.Chr "j"; Str.Chr "p"; Str.Opt "e"; Str.Chr "g"]%char.

(** [type.match(/^image\/jpe?g$/i)] is not null. *)
Definition isJpegType (type : string) : bool :=
  Str.matchAnchored true jpegPattern type.

(** ** The state of the component *)

(** A value stored under a key of the settings object. *)
Inductive value : Type :=
| VNum (n : number)
| VStr (s : string).

(** The settings object: its identity (React compares effect dependencies
    with [Object.is]) and its keys. *)
Record Settings : Type := mkSettings {
  oid : nat;
  fields : gmap string value;
}.

(** [o.k] read as a number. *)
Definition getNumber (o : Settings) (k : string) : number :=
  match fields o !! k with
  | Some (VNum n) => n
  | _ => JS.NaN
  end.

(** The [useState] cells of [ImageProcessor] (lines 32-41). *)
Record State : Type := mkState {
  originalImageBase64 : option string;
  processedImageBase64 : option string;
  base64Length : Z;
  settings : Settings;
  processedDimensions : option ProcessedDimensions;
  originalFileName : string;
  error : option string;
  processing : bool;
  isDraggingOver : bool;
}.

Record File : Type := mkFile {
  file_name : string;
  file_type : string;
}.

(** One invocation of [processImage] with its arguments. *)
Record Call : Type := mkCall {
  sourceBase64 : string;
  currentQuality : number;
  currentMaxWidth : number;
  currentMaxHeight : number;
}.

(** The component and what it holds of the page: the state cell and the
    pending timeout of [useDebounce(settings, 500)], the counter that
    names fresh objects, the calls of [processImage] made so far, the file
    input behind [fileInputRef] ([None] while the ref is null) and the
    reads handed to a [FileReader]. *)
Record World : Type := mkWorld {
  ui : State;
  debouncedValue : Settings;
  timer : option (Z * Settings);
  nextId : nat;
  calls : list Call;
  fileInputValue : option string;
  reads : list File;
}.

(** What the platform decides: how [parseFloat] reads a string, whether
    an image loads and with which natural size, whether a canvas gives a
    2d context, whether [drawImage] returns or throws, and whether
    [toDataURL] returns a string or throws (the message of the
    exception). *)
Inductive Decoded : Type :=
| Loaded (naturalWidth naturalHeight : Z)
| Broken.

Record Browser : Type := mkBrowser {
  parseFloat : string -> number;
  decodeImage : string -> Decoded;
  getContext2d : bool;
  drawImage : ProcessedDimensions -> unit + string;
  toDataURL : ProcessedDimensions -> number -> string + string;
}.

(** How the promise of [processImage] ends up: fulfilled, rejected, or
    pending for ever when an exception leaves [img.onload] before
    [resolve] or [reject] is reached. *)
Inductive Settled : Type :=
| Fulfilled
| Rejected (message : string)
| Pending.

(** Handlers are state transformers over [World]. *)
Definition M (A : Type) : Type := World -> A * World.

#[global] Instance M_ret : MRet M := fun A (a : A) w => (a, w).
#[global] Instance M_bind : MBind M :=
  fun A B (f : A -> M B) (m : M A) w => let '(a, w') := m w in f a w'.

Definition get : M World := fun w => (w, w).
Definition modify (f : World -> World) : M unit := fun w => (tt, f w).
Definition exec {A} (m : M A) (w : World) : World := snd (m w).
Definition eval {A} (m : M A) (w : World) : A := fst (m w).

Definition withUi (f : State -> State) : M unit :=
  modify (fun w =>
    {| ui := f (ui w); debouncedValue := debouncedValue w; timer := timer w;
       nextId := nextId w; calls := calls w;
       fileInputValue := fileInputValue w; reads := reads w |}).

Definition setOriginalImageBase64 (v : option string) : M unit :=
  withUi (fun s =>
    {| originalImageBase64 := v;
       processedImageBase64 := processedImageBase64 s;
       base64Length := base64Length s; settings := settings s;
       processedDimensions := processedDimensions s;
       originalFileName := originalFileName s; error := error s;
       processing := processing s; isDraggingOver := isDraggingOver s |}).

Definition setProcessedImageBase64 (v : option string) : M unit :=
  withUi (fun s =>
    {| originalImageBase64 := originalImageBase64 s;
       processedImageBase64 := v;
       base64Length := base64Length s; settings := settings s;
       processedDimensions := processedDimensions s;
       originalFileName := originalFileName s; error := error s;
       processing := processing s; isDraggingOver := isDraggingOver s |}).

Definition setBase64Length (v : Z) : M unit :=
  withUi (fun s =>
    {| originalImageBase64 := originalImageBase64 s;
       processedImageBase64 := processedImageBase64 s;
       base64Length := v; settings := settings s;
       processedDimensions := processedDimensions s;
       originalFileName := originalFileName s; error := error s;
       processing := processing s; isDraggingOver := isDraggingOver s |}).

Definition setProcessedDimensions (v : option ProcessedDimensions) : M unit :=
  withUi (fun s =>
    {| originalImageBase64 := originalImageBase64 s;
       processedImageBase64 := processedImageBase64 s;
       base64Length := base64Length s; settings := settings s;
       processedDimensions := v;
       originalFileName := originalFileName s; error := error s;
       processing := processing s; isDraggingOver := isDraggingOver s |}).

Definition setOriginalFileName (v : string) : M unit :=
  withUi (fun s =>
    {| originalImageBase64 := originalImageBase64 s;
       processedImageBase64 := processedImageBase64 s;
       base64Length := base64Length s; settings := settings s;
       processedDimensions := processedDimensions s;
       originalFileName := v; error := error s;
       processing := processing s; isDraggingOver := isDraggingOver s |}).

Definition setError (v : option string) : M unit :=
  withUi (fun s =>
    {| originalImageBase64 := originalImageBase64 s;
       processedImageBase64 := processedImageBase64 s;
       base64Length := base64Length s; settings := settings s;
       processedDimensions := processedDimensions s;
       originalFileName := originalFileName s; error := v;
       processing := processing s; isDraggingOver := isDraggingOver s |}).

Definition setProcessing (v : bool) : M unit :=
  withUi (fun s =>
    {| originalImageBase64 := originalImageBase64 s;
       processedImageBase64 := processedImageBase64 s;
       base64Length := base64Length s; settings := settings s;
       processedDimensions := processedDimensions s;
       originalFileName := originalFileName s; error := error s;
       processing := v; isDraggingOver := isDraggingOver s |}).

Definition setIsDraggingOver (v : bool) : M unit :=
  withUi (fun s =>
    {| originalImageBase64 := originalImageBase64 s;
       processedImageBase64 := processedImageBase64 s;
       base64Length := base64Length s; settings := settings s;
       processedDimensions := processedDimensions s;
       originalFileName := originalFileName s; error := error s;
       processing := processing s; isDraggingOver := v |}).

(** [setSettings(prev => ...)]: the updater builds a new object, which gets
    a fresh identity. *)
Definition setSettings (f : gmap string value -> gmap string value) : M unit :=
  modify (fun w =>
    let s := ui w in
    let o := {| oid := nextId w; fields := f (fields (settings s)) |} in
    {| ui :=
         {| originalImageBase64 := originalImageBase64 s;
            processedImageBase64 := processedImageBase64 s;
            base64Length := base64Length s; settings := o;
            processedDimensions := processedDimensions s;
            originalFileName := originalFileName s; error := error s;
            processing := processing s;
            isDraggingOver := isDraggingOver s |};
       debouncedValue := debouncedValue w; timer := timer w;
       nextId := S (nextId w); calls := calls w;
       fileInputValue := fileInputValue w; reads := reads w |}).

Definition setDebouncedValue (v : Settings) : M unit :=
  modify (fun w =>
    {| ui := ui w; debouncedValue := v; timer := timer w;
       nextId := nextId w; calls := calls w;
       fileInputValue := fileInputValue w; reads := reads w |}).

Definition setTimer (v : option (Z * Settings)) : M unit :=
  modify (fun w =>
    {| ui := ui w; debouncedValue := debouncedValue w; timer := v;
       nextId := nextId w; calls := calls w;
       fileInputValue := fileInputValue w; reads := reads w |}).

Definition logCall (c : Call) : M unit :=
  modify (fun w =>
    {| ui := ui w; debouncedValue := debouncedValue w; timer := timer w;
       nextId := nextId w; calls := calls w ++ [c];
       fileInputValue := fileInputValue w; reads := reads w |}).

(** [if (fileInputRef.current) fileInputRef.current.value = ''] *)
Definition clearFileInput : M unit :=
  modify (fun w =>
    {| ui := ui w; debouncedValue := debouncedValue w; timer := timer w;
       nextId := nextId w; calls := calls w;
       fileInputValue :=
         match fileInputValue w with
         | Some _ => Some ""%string
         | None => None
         end;
       reads := reads w |}).

(** [reader.readAsDataURL(file)] *)
Definition readAsDataURL (file : File) : M unit :=
  modify (fun w =>
    {| ui := ui w; debouncedValue := debouncedValue w; timer := timer w;
       nextId := nextId w; calls := calls w;
       fileInputValue := fileInputValue w; reads := reads w ++ [file] |}).

(** ** [processImage] (lines 46-133) *)

Definition isEmpty (s : string) : bool :=
  match s with EmptyString => true | _ => false end.

(** The part that runs before the promise is returned (lines 47-51);
    the result tells whether a run was started. *)
Definition processImage_enter (sourceBase64 : string) : M bool :=
  if isEmpty sourceBase64 then mret false
  else
    setProcessing true;;
    setError None;;
    setProcessedDimensions None;;
    mret true.

(** [img.onload] (lines 56-117). *)
Definition img_onload (b : Browser) (imgWidth imgHeight : Z)
    (currentQuality currentMaxWidth currentMaxHeight : number) : M Settled :=
  if negb (getContext2d b) then
    setError (Some "Could not get canvas context."%string);;
    setProcessing false;;
    mret (Rejected "Could not get canvas context.")
  else
    let canvas :=
      finalDimensions (JS.ofZ imgWidth) (JS.ofZ imgHeight)
                      currentMaxWidth currentMaxHeight in
    setProcessedDimensions (Some canvas);;
    (* ctx.drawImage(img, 0, 0, canvas.width, canvas.height) (line 97) is
       outside the try: an exception it throws leaves the handler, and
       neither resolve nor reject is reached *)
    match drawImage b canvas with
    | inr _ => mret Pending
    | inl _ =>
        match toDataURL b canvas currentQuality with
        | inl processedBase64 =>
            setProcessedImageBase64 (Some processedBase64);;
            setBase64Length (Z.of_nat (String.length processedBase64));;
            setError None;;
            setProcessing false;;
            mret Fulfilled
        | inr thrown =>
            let errorMessage :=
              String.append "Error processing image: " thrown in
            setError (Some errorMessage);;
            setProcessedImageBase64 None;;
            setProcessedDimensions None;;
            setBase64Length 0;;
            setProcessing false;;
            mret (Rejected errorMessage)
        end
    end.

Definition decodeErrorMessage : string :=
  "Failed to load the image data for processing.".

(** [img.onerror] (lines 119-127). *)
Definition img_onerror : M Settled :=
  let errorMessage := decodeErrorMessage in
  setError (Some errorMessage);;
  setProcessedImageBase64 None;;
  setProcessedDimensions None;;
  setBase64Length 0;;
  setProcessing false;;
  mret (Rejected errorMessage).

(** The callback the image fires once [img.src] is set (line 130). *)
Definition img_settle (b : Browser) (sourceBase64 : string)
    (currentQuality currentMaxWidth currentMaxHeight : number) : M Settled :=
  match decodeImage b sourceBase64 with
  | Loaded w h => img_onload b w h currentQuality currentMaxWidth currentMaxHeight
  | Broken => img_onerror
  end.

(** A whole run: entry, then the callback of the image. *)
Definition processImage (b : Browser) (sourceBase64 : string)
    (currentQuality currentMaxWidth currentMaxHeight : number) : M Settled :=
  started ← processImage_enter sourceBase64;
  if started : bool
  then img_settle b sourceBase64 currentQuality currentMaxWidth currentMaxHeight
  else mret Fulfilled.

(** ** File ingestion: [handleFile] (lines 151-199) *)

Definition unsupportedTypeMessage : string :=
  "Please select or drop a JPG/JPEG image file.".

Definition handleFile (file : option File) : M unit :=
  setOriginalImageBase64 None;;
  setProcessedImageBase64 None;;
  setBase64Length 0;;
  setOriginalFileName "";;
  setError None;;
  setProcessedDimensions None;;
  match file with
  | None => mret tt
  | Some file =>
      if negb (isJpegType (file_type file)) then
        setError (Some unsupportedTypeMessage);;
        clearFileInput
      else
        setOriginalFileName (file_name file);;
        setProcessing true;;
        readAsDataURL file
  end.

(** The two ways a file arrives (lines 202-205 and 238-244): the first
    file of the list, or null. *)
Definition handleFileChange (files : list File) : M unit :=
  handleFile (head files).

Definition handleDrop (files : list File) : M unit :=
  setIsDraggingOver false;;
  handleFile (head files).

(** [reader.onload]: the result is a string or it is not. *)
Definition reader_onload (result : option string) : M unit :=
  match result with
  | Some dataUrl => setOriginalImageBase64 (Some dataUrl)
  | None =>
      setError (Some "Failed to read file content."%string);;
      setProcessing false
  end.

Definition reader_onerror : M unit :=
  setError (Some "Failed to read the file."%string);;
  setProcessing false.

(** ** Settings: [handleSettingChange] (lines 208-217) *)

Record ChangeEvent : Type := mkChange {
  target_name : string;
  target_value : string;
  target_type : string;
}.

Definition processedValue (b : Browser) (e : ChangeEvent) : value :=
  let name := target_name e in
  let value := target_value e in
  let type := target_type e in
  if String.eqb type "number" || String.eqb name "quality"
     || String.eqb name "maxWidth" || String.eqb name "maxHeight"
  then
    VNum (if String.eqb name "quality" then parseFloat b value
          else JS.mathMax (JS.ofZ 1) (JS.or (Str.parseInt value) (JS.ofZ 1)))
  else VStr value.

Definition handleSettingChange (b : Browser) (e : ChangeEvent) : M unit :=
  setSettings (fun prev => <[target_name e := processedValue b e]> prev).

(** [useState({ quality: 0.8, maxWidth: 800, maxHeight: 600 })] *)
Definition initialFields : gmap string value :=
  <["quality"%string := VNum (JS.toNumber (8 # 10))]>
    (<["maxWidth"%string := VNum (JS.ofZ 800)]>
       (<["maxHeight"%string := VNum (JS.ofZ 600)]> ∅)).

Definition initialState : State :=
  {| originalImageBase64 := None; processedImageBase64 := None;
     base64Length := 0; settings := {| oid := O; fields := initialFields |};
     processedDimensions := None; originalFileName := "";
     error := None; processing := false; isDraggingOver := false |}.

(** ** [useDebounce] (lines 6-22) and the effects *)

Definition delay : Z := 500.

(** The component after its first render at time 0 and the effects of
    that render: [fileInputRef] is attached, the hook has set its first
    timeout, and the effect at lines 139-148 found no source. *)
Definition initialWorld : World :=
  {| ui := initialState; debouncedValue := settings initialState;
     timer := Some (delay, settings initialState); nextId := 1%nat;
     calls := []; fileInputValue := Some ""%string; reads := [] |}.

(** The effect of [useDebounce], run at time [now] when [value] is a new
    object: the cleanup clears the pending timeout, the body sets one that
    captures the value of this render. *)
Definition debounceEffect (now : Z) : M unit :=
  w ← get;
  setTimer (Some (now + delay, settings (ui w))).

(** The body of the effect at lines 139-148: only the synchronous part of
    [processImage] runs here, the image settles later. *)
Definition reprocessEffect : M unit :=
  w ← get;
  match originalImageBase64 (ui w) with
  | Some src =>
      if isEmpty src then mret tt
      else
        let d := debouncedValue w in
        logCall {| sourceBase64 := src;
                   currentQuality := getNumber d "quality";
                   currentMaxWidth := getNumber d "maxWidth";
                   currentMaxHeight := getNumber d "maxHeight" |};;
        _ ← processImage_enter src;
        mret tt
  | None => mret tt
  end.

Definition sameSource (a b : option string) : bool :=
  match a, b with
  | Some x, Some y => String.eqb x y
  | None, None => true
  | _, _ => false
  end.

(** After a handler, React renders again and runs the effects whose
    dependencies differ from those of the render before ([prev]); the
    effect of the hook is declared first. *)
Definition runEffects (now : Z) (prev : World) : M unit :=
  w ← get;
  (if Nat.eqb (oid (settings (ui w))) (oid (settings (ui prev)))
   then mret tt else debounceEffect now);;
  (if sameSource (originalImageBase64 (ui w)) (originalImageBase64 (ui prev))
      && Nat.eqb (oid (debouncedValue w)) (oid (debouncedValue prev))
   then mret tt else reprocessEffect).

(** An edit of a settings input at time [now]. *)
Definition onChange (b : Browser) (now : Z) (e : ChangeEvent) : M unit :=
  prev ← get;
  handleSettingChange b e;;
  runEffects now prev.

(** Time passes until [now]: a pending timeout that is due fires, and its
    callback stores the captured value. *)
Definition elapse (now : Z) : M unit :=
  prev ← get;
  match timer prev with
  | Some (due, captured) =>
      if due <=? now then
        setTimer None;;
        setDebouncedValue captured;;
        runEffects due prev
      else mret tt
  | None => mret tt
  end.

(** A sequence of timed edits, in the order they arrive. *)
Fixpoint play (b : Browser) (edits : list (Z * ChangeEvent)) : M unit :=
  match edits with
  | [] => mret tt
  | (t, e) :: rest => elapse t;; onChange b t e;; play b rest
  end.

(** ** Auxiliary definitions for the statements *)

(** The target size before [Math.round], on finite values. *)
Definition targetSize (W H maxW maxH : Q) : Q * Q :=
  let aspect := JS.round64 (W / H) in
  let '(w1, h1) :=
    if Qlt_le_dec maxW W then (maxW, JS.round64 (maxW / aspect)) else (W, H) in
  if Qlt_le_dec maxH h1 then (JS.round64 (maxH * aspect), maxH) else (w1, h1).

(** The sizes an image element reports are of type [unsigned long]. *)
Definition isImageSize (n : Z) : bool := (0 <? n) && (n <? 2 ^ 32).

(** What the render shows (lines 270-349): the inputs are disabled while
    [processing], the results section needs a processed image and no
    processing. *)
Definition inputsDisabled (s : State) : bool := processing s.

Definition resultsShown (s : State) : bool :=
  match processedImageBase64 s with
  | Some data => negb (isEmpty data) && negb (processing s)
  | None => false
  end.

(** A stored bound that is at least 1 and an integer or +Infinity. *)
Definition isPosInf (n : number) : bool :=
  match n with JS.PosInf => true | _ => false end.

Definition boundedBelow (v : option value) : bool :=
  match v with
  | Some (VNum n) => JS.ge n (JS.ofZ 1) && (JS.isInteger n || isPosInf n)
  | _ => false
  end.

Definition boundedSettings (f : gmap string value) : bool :=
  boundedBelow (f !! "maxWidth"%string) && boundedBelow (f !! "maxHeight"%string).

(** A stored bound that is an integer of at least 1. *)
Definition validBound (v : option value) : bool :=
  match v with
  | Some (VNum n) => JS.isInteger n && JS.ge n (JS.ofZ 1)
  | _ => false
  end.

Definition validSettings (f : gmap string value) : bool :=
  validBound (f !! "maxWidth"%string) && validBound (f !! "maxHeight"%string).

(** The keys of the settings after a sequence of edits. *)
Definition editedFields (b : Browser) (edits : list (Z * ChangeEvent))
    (f : gmap string value) : gmap string value :=
  fold_left (fun f te => <[target_name (snd te) := processedValue b (snd te)]> f)
            edits f.

Fixpoint ascending (ts : list Z) : bool :=
  match ts with
  | t :: ((u :: _) as rest) => (t <=? u) && ascending rest
  | _ => true
  end.

(** The edits arrive in order, and the last one less than [window] after
    the first. *)
Definition arriveWithin (window : Z) (edits : list (Z * ChangeEvent)) : bool :=
  match map fst edits with
  | [] => false
  | t1 :: rest => ascending (t1 :: rest) && (List.last rest t1 <? t1 + window)
  end.

Definition lastTime (edits : list (Z * ChangeEvent)) : Z :=
  List.last (map fst edits) 0.

(** A type that is exactly [image/jpeg] or [image/jpg], letter case
    aside. *)
Definition jpegMime (type : string) : Prop :=
  Str.lower type = "image/jpeg"%string \/ Str.lower type = "image/jpg"%string.

(** A component that holds the result of an earlier run, and a PNG file. *)
Definition processedState : State :=
  {| originalImageBase64 := Some "data:image/jpeg;base64,/9j/4AAQ"%string;
     processedImageBase64 := Some "data:image/jpeg;base64,/9j/2wBD"%string;
     base64Length := 31;
     settings := {| oid := O; fields := initialFields |};
     processedDimensions := Some (mkDims (JS.ofZ 800) (JS.ofZ 600));
     originalFileName := "photo.jpg";
     error := None; processing := false; isDraggingOver := false |}.

Definition processedWorld : World :=
  {| ui := processedState; debouncedValue := settings processedState;
     timer := None; nextId := 1%nat; calls := [];
     fileInputValue := Some "C:\\fakepath\\photo.jpg"%string; reads := [] |}.

Definition pngFile : File :=
  {| file_name := "logo.png"; file_type := "image/png" |}.

(** Two browsers: one that decodes a 1600x1200 image and encodes it, one
    that cannot load the image. *)
Definition workingBrowser : Browser :=
  {| parseFloat := fun _ => JS.toNumber (8 # 10);
     decodeImage := fun _ => Loaded 1600 1200;
     getContext2d := true;
     drawImage := fun _ => inl tt;
     toDataURL := fun _ _ => inl "data:image/jpeg;base64,/9j/2wBD"%string |}.


(** An edit that empties the width field, and one that fills it with a 1
    followed by 309 zeros. *)
Definition emptyEdit : ChangeEvent :=
  {| target_name := "maxWidth"; target_value := ""; target_type := "number" |}.

Definition longEdit : ChangeEvent :=
  {| target_name := "maxWidth";
     target_value := String "1" (Str.zeros 309);
     target_type := "number" |}.

(** Every object that exists was named before [nextId]. *)
Definition freshIds (w : World) : bool :=
  (oid (settings (ui w)) <? nextId w)%nat
  && (oid (debouncedValue w) <? nextId w)%nat.

Definition firstTime (edits : list (Z * ChangeEvent)) : Z :=
  match edits with
  | (t, _) :: _ => t
  | [] => 0
  end.

(** No timeout is due at time [t] or before. *)
Definition noTimeoutDueBy (t : Z) (w : World) : bool :=
  match timer w with
  | Some (due, _) => t <? due
  | None => true
  end.

(** Two edits of the width field 600 ms apart. *)
Definition slowEdits : list (Z * ChangeEvent) :=
  [(1000, mkChange "maxWidth" "640" "number");
   (1600, mkChange "maxWidth" "320" "number")].

(** Three edits of the width field within 300 ms. *)
Definition typing640 : list (Z * ChangeEvent) :=
  [(1000, mkChange "maxWidth" "6" "number");
   (1120, mkChange "maxWidth" "64" "number");
   (1300, mkChange "maxWidth" "640" "number")].

(** ** Drag feedback (lines 220-236) *)

(** [event.preventDefault()] and [event.stopPropagation()] act on the
    event; of the component only the flag changes. *)
Definition handleDragOver : M unit := setIsDraggingOver true.

Definition handleDragEnter : M unit := setIsDraggingOver true.

Definition handleDragLeave : M unit := setIsDraggingOver false.

(** ** The events of the page *)

(** What can happen to the component: a selection in the file input, the
    four drag events of the container, the two callbacks of a
    [FileReader], an edit of a settings input, and the image of the run
    started by a call, which loads or fails. *)
Inductive Event : Type :=
| FileChosen (files : list File)
| Dropped (files : list File)
| DragOver
| DragEnter
| DragLeave
| ReaderLoaded (result : option string)
| ReaderFailed
| SettingChanged (e : ChangeEvent)
| ImageSettled (c : Call).

(** The handler or callback of an event.  The rejection of a run goes to
    [.catch(console.error)] (line 142) and changes nothing. *)
Definition handler (b : Browser) (ev : Event) : M unit :=
  match ev with
  | FileChosen files => handleFileChange files
  | Dropped files => handleDrop files
  | DragOver => handleDragOver
  | DragEnter => handleDragEnter
  | DragLeave => handleDragLeave
  | ReaderLoaded result => reader_onload result
  | ReaderFailed => reader_onerror
  | SettingChanged e => handleSettingChange b e
  | ImageSettled c =>
      _ ← img_settle b (sourceBase64 c) (currentQuality c)
                     (currentMaxWidth c) (currentMaxHeight c);
      mret tt
  end.

(** A handler at time [now], then the render it causes and the effects of
    that render. *)
Definition withEffects (now : Z) (h : M unit) : M unit :=
  prev ← get;
  h;;
  runEffects now prev.

(** An event at time [now]: a timeout that is due fires first. *)
Definition dispatch (b : Browser) (now : Z) (ev : Event) : M unit :=
  elapse now;;
  withEffects now (handler b ev).

Fixpoint run (b : Browser) (evs : list (Z * Event)) : M unit :=
  match evs with
  | [] => mret tt
  | (t, ev) :: rest => dispatch b t ev;; run b rest
  end.

(** The call of [processImage] the effect makes for a source, with the
    debounced settings. *)
Definition callFor (src : string) (d : Settings) : Call :=
  {| sourceBase64 := src;
     currentQuality := getNumber d "quality";
     currentMaxWidth := getNumber d "maxWidth";
     currentMaxHeight := getNumber d "maxHeight" |}.


(** The object a pending timeout captured was named before [nextId]. *)
Definition timerFresh (w : World) : bool :=
  match timer w with
  | Some (_, captured) => (oid captured <? nextId w)%nat
  | None => true
  end.

(** The flag a drag event stores. *)
Definition dragFlag (ev : Event) : option bool :=
  match ev with
  | DragOver | DragEnter => Some true
  | DragLeave => Some false
  | _ => None
  end.

(** A target that is [-Infinity] or a finite value of at most [bound]. *)
Definition atMost (t : number) (bound : Q) : Prop :=
  match t with
  | JS.NegInf => True
  | JS.Fin r => (r <= bound)%Q
  | _ => False
  end.

(** [originalImageBase64] is truthy: the guard of the effect (line 140)
    and of [processImage] (line 47). *)
Definition sourceLoaded (s : State) : bool :=
  match originalImageBase64 s with
  | Some src => negb (isEmpty src)
  | None => false
  end.

(** A JPEG file, a browser whose encoder throws, one whose [drawImage]
    throws, one that gives no 2d context, and a session: a file is chosen, read, processed, and the
    width is edited. *)
Definition jpegFile : File :=
  {| file_name := "photo.jpg"; file_type := "image/jpeg" |}.

Definition throwingBrowser : Browser :=
  {| parseFloat := fun _ => JS.toNumber (8 # 10);
     decodeImage := fun _ => Loaded 1600 1200;
     getContext2d := true;
     drawImage := fun _ => inl tt;
     toDataURL := fun _ _ => inr "The operation is insecure."%string |}.

Definition drawThrowsBrowser : Browser :=
  {| parseFloat := fun _ => JS.toNumber (8 # 10);
     decodeImage := fun _ => Loaded 1600 1200;
     getContext2d := true;
     drawImage := fun _ => inr "The object is in an invalid state."%string;
     toDataURL := fun _ _ => inl "data:image/jpeg;base64,/9j/2wBD"%string |}.

Definition noContextBrowser : Browser :=
  {| parseFloat := fun _ => JS.toNumber (8 # 10);
     decodeImage := fun _ => Loaded 1600 1200;
     getContext2d := false;
     drawImage := fun _ => inl tt;
     toDataURL := fun _ _ => inl "data:image/jpeg;base64,/9j/2wBD"%string |}.


(** * Theorems *)

Section Numbers.

Lemma Qeq_bool_false (x y : Q) : ~ (x == y)%Q -> Qeq_bool x y = false.
Proof.
  intros Hne. destruct (Qeq_bool x y) eqn:E; [|reflexivity].
  apply Qeq_bool_iff in E. contradiction.
Qed.

Lemma Qle_bool_false (x y : Q) : (y < x)%Q -> Qle_bool x y = false.
Proof.
  intros Hlt. destruct (Qle_bool x y) eqn:E; [|reflexivity].
  apply Qle_bool_iff in E. lra.
Qed.

Lemma Qle_bool_true (x y : Q) : (x <= y)%Q -> Qle_bool x y = true.
Proof. intros Hle. now apply Qle_bool_iff. Qed.

Lemma gt_Fin (x y : Q) :
  JS.gt (JS.Fin x) (JS.Fin y) = if Qlt_le_dec y x then true else false.
Proof.
  simpl. destruct (Qlt_le_dec y x) as [Hlt|Hle].
  - now rewrite Qle_bool_false.
  - now rewrite Qle_bool_true.
Qed.

Lemma div_Fin (x y : Q) :
  ~ (y == 0)%Q -> JS.div (JS.Fin x) (JS.Fin y) = JS.toNumber (x / y).
Proof. intros Hy. cbn [JS.div]. now rewrite Qeq_bool_false. Qed.

Lemma mathMax_ofZ (a z : Z) :
  JS.mathMax (JS.ofZ a) (JS.ofZ z) = JS.ofZ (Z.max a z).
Proof.
  unfold JS.ofZ; simpl.
  destruct (Qle_bool (inject_Z a) (inject_Z z)) eqn:E.
  - apply Qle_bool_iff in E. rewrite <- Zle_Qle in E.
    now rewrite Z.max_r.
  - destruct (Z.le_gt_cases a z) as [Hle|Hgt].
    + rewrite Zle_Qle in Hle. apply Qle_bool_iff in Hle. congruence.
    + rewrite Z.max_l by lia. reflexivity.
Qed.

(** [Math.round] returns a nearest integer. *)
Lemma roundQ_nearest (x : Q) : nearestInteger x (JS.roundQ x).
Proof.
  unfold nearestInteger, JS.roundQ.
  pose proof (Qfloor_le (x + (1 # 2))) as Hlo.
  pose proof (Qlt_floor (x + (1 # 2))) as Hhi.
  rewrite inject_Z_plus in Hhi. change (inject_Z 1) with 1%Q in Hhi.
  apply Qabs_Qle_condition. split; lra.
Qed.

(** Rounding does not cross an integer bound from below. *)
Lemma roundQ_le (x : Q) (n : Z) : (x <= inject_Z n)%Q -> JS.roundQ x <= n.
Proof.
  intros Hx. unfold JS.roundQ.
  pose proof (Qfloor_le (x + (1 # 2))) as Hlo.
  assert (Hlt : (inject_Z (Qfloor (x + (1 # 2))) < inject_Z (n + 1))%Q).
  { rewrite inject_Z_plus. change (inject_Z 1) with 1%Q. lra. }
  rewrite <- Zlt_Qlt in Hlt. lia.
Qed.

Lemma roundQ_inject (z : Z) : JS.roundQ (inject_Z z) = z.
Proof.
  unfold JS.roundQ.
  pose proof (Qfloor_le (inject_Z z + (1 # 2))) as Hlo.
  pose proof (Qlt_floor (inject_Z z + (1 # 2))) as Hhi.
  rewrite inject_Z_plus in Hhi. change (inject_Z 1) with 1%Q in Hhi.
  assert (H1 : (inject_Z (Qfloor (inject_Z z + (1 # 2))) < inject_Z (z + 1))%Q).
  { rewrite inject_Z_plus. change (inject_Z 1) with 1%Q. lra. }
  assert (H2 : (inject_Z (z - 1) < inject_Z (Qfloor (inject_Z z + (1 # 2))))%Q).
  { unfold Z.sub. rewrite inject_Z_plus. change (inject_Z (- (1))) with (-1)%Q. lra. }
  rewrite <- Zlt_Qlt in H1, H2. lia.
Qed.

Lemma inject_Z_pos (z : Z) : 0 < z -> (0 < inject_Z z)%Q.
Proof. intros Hz. change 0%Q with (inject_Z 0). now rewrite <- Zlt_Qlt. Qed.

End Numbers.

Section Binary64.

Import JS.

Lemma pow2_pos (k : Z) : (0 < pow2 k)%Q.
Proof. apply Qpower_0_lt. reflexivity. Qed.

Lemma pow2_add (a c : Z) : (pow2 (a + c) == pow2 a * pow2 c)%Q.
Proof. apply Qpower_plus. discriminate. Qed.

Lemma pow2_le (a c : Z) : a <= c -> (pow2 a <= pow2 c)%Q.
Proof. intros H. apply Qpower_le_compat_l; [exact H | discriminate]. Qed.

Lemma pow2_lt (a c : Z) : a < c -> (pow2 a < pow2 c)%Q.
Proof. intros H. apply Qpower_lt_compat_l; [exact H | reflexivity]. Qed.

Lemma pow2_lt_inv (a c : Z) : (pow2 a < pow2 c)%Q -> a < c.
Proof. intros H. apply (Qpower_lt_compat_l_inv 2); [exact H | reflexivity]. Qed.

Lemma pow2_inject (k : Z) : 0 <= k -> (pow2 k == inject_Z (2 ^ k))%Q.
Proof. intros H. unfold pow2. now rewrite Zpower_Qpower. Qed.

Lemma pow2_sub (a c : Z) : (pow2 (a - c) == pow2 a / pow2 c)%Q.
Proof.
  unfold Z.sub. rewrite pow2_add.
  assert (E : (pow2 (- c) == / pow2 c)%Q) by apply Qpower_opp.
  rewrite E. reflexivity.
Qed.

Lemma pow2_succ (a : Z) : (pow2 (a + 1) == 2 * pow2 a)%Q.
Proof. rewrite pow2_add. change (pow2 1) with 2%Q. ring. Qed.

(** Bounds of an integer by the powers of two around it. *)
Lemma log2_bounds (n : Z) :
  0 < n -> (pow2 (Z.log2 n) <= inject_Z n < pow2 (Z.log2 n + 1))%Q.
Proof.
  intros Hn. destruct (Z.log2_spec n Hn) as [Hlo Hhi].
  pose proof (Z.log2_nonneg n) as H0.
  rewrite !pow2_inject by lia. rewrite <- Zle_Qle, <- Zlt_Qlt.
  replace (Z.log2 n + 1) with (Z.succ (Z.log2 n)) by lia. lia.
Qed.

Lemma ilog2_spec (x : Q) :
  (0 < x)%Q -> (pow2 (ilog2 x) <= x < pow2 (ilog2 x + 1))%Q.
Proof.
  intros Hx. destruct x as [n d].
  assert (Hn : 0 < n) by (unfold Qlt in Hx; simpl in Hx; lia).
  unfold ilog2. cbn [Qnum Qden].
  set (ln := Z.log2 n). set (ld := Z.log2 (Z.pos d)).
  destruct (log2_bounds n Hn) as [Hn1 Hn2]. fold ln in Hn1, Hn2.
  destruct (log2_bounds (Z.pos d) eq_refl) as [Hd1 Hd2]. fold ld in Hd1, Hd2.
  assert (Hdpos : (0 < inject_Z (Z.pos d))%Q) by reflexivity.
  pose proof (pow2_pos ld) as Hpld.
  pose proof (pow2_pos ln) as Hpln.
  pose proof (pow2_pos (ln - ld)) as Hpk.
  pose proof (pow2_succ ld) as Hs1. pose proof (pow2_succ ln) as Hs2.
  pose proof (pow2_succ (ln - ld)) as Hs3.
  pose proof (pow2_succ (ln - ld - 1)) as Hs4.
  replace (ln - ld - 1 + 1) with (ln - ld) in Hs4 by lia.
  assert (Hk : (pow2 (ln - ld) * pow2 ld == pow2 ln)%Q).
  { rewrite <- pow2_add. replace (ln - ld + ld) with ln by lia. reflexivity. }
  assert (Hx' : ((n # d) * inject_Z (Z.pos d) == inject_Z n)%Q).
  { rewrite Qmake_Qdiv. field. discriminate. }
  set (x := (n # d)%Q) in *.
  assert (Hup : (x < pow2 (ln - ld + 1))%Q).
  { rewrite Hs3. nra. }
  assert (Hlow : (pow2 (ln - ld - 1) < x)%Q).
  { nra. }
  destruct (Qle_bool (pow2 (ln - ld)) x) eqn:E.
  - apply Qle_bool_iff in E. split; assumption.
  - assert (Hlt : (x < pow2 (ln - ld))%Q).
    { destruct (Qlt_le_dec x (pow2 (ln - ld))) as [H|H]; [exact H|].
      apply Qle_bool_iff in H. congruence. }
    replace (ln - ld - 1 + 1) with (ln - ld) by lia.
    split; [apply Qlt_le_weak|]; assumption.
Qed.

Lemma ilog2_unique (x : Q) (k : Z) :
  (pow2 k <= x < pow2 (k + 1))%Q -> ilog2 x = k.
Proof.
  intros [Hlo Hhi].
  assert (Hx : (0 < x)%Q) by (pose proof (pow2_pos k); lra).
  destruct (ilog2_spec x Hx) as [Hlo' Hhi'].
  assert (H1 : k < ilog2 x + 1) by (apply pow2_lt_inv; lra).
  assert (H2 : ilog2 x < k + 1) by (apply pow2_lt_inv; lra).
  lia.
Qed.

Lemma ilog2_mono (x y : Q) : (0 < x)%Q -> (x <= y)%Q -> ilog2 x <= ilog2 y.
Proof.
  intros Hx Hxy.
  destruct (ilog2_spec x Hx) as [Hlo _].
  destruct (ilog2_spec y ltac:(lra)) as [_ Hhi].
  assert (H : ilog2 x < ilog2 y + 1) by (apply pow2_lt_inv; lra).
  lia.
Qed.

Lemma ilog2_comp (x y : Q) : (0 < x)%Q -> (x == y)%Q -> ilog2 x = ilog2 y.
Proof.
  intros Hx E. apply ilog2_unique. rewrite E.
  apply ilog2_spec. now rewrite <- E.
Qed.

(** ** Rounding to an integer, a tie going to the even one *)

Lemma roundHalfEven_comp (y y' : Q) :
  (y == y')%Q -> roundHalfEven y = roundHalfEven y'.
Proof.
  intros E. unfold roundHalfEven.
  rewrite (Qfloor_comp _ _ E).
  assert (E' : (y - inject_Z (Qfloor y') == y' - inject_Z (Qfloor y'))%Q)
    by (rewrite E; reflexivity).
  now rewrite (Qcompare_comp _ _ E' (1 # 2) (1 # 2) (Qeq_refl _)).
Qed.

Lemma roundHalfEven_floor (y : Q) :
  Qfloor y <= roundHalfEven y <= Qfloor y + 1.
Proof.
  unfold roundHalfEven.
  destruct (Qcompare (y - inject_Z (Qfloor y)) (1 # 2));
    [destruct (Z.even (Qfloor y))| |]; lia.
Qed.

Lemma roundHalfEven_near (y : Q) :
  (y - (1 # 2) <= inject_Z (roundHalfEven y) <= y + (1 # 2))%Q.
Proof.
  pose proof (Qfloor_le y) as Hlo. pose proof (Qlt_floor y) as Hhi.
  rewrite inject_Z_plus in Hhi. change (inject_Z 1) with 1%Q in Hhi.
  unfold roundHalfEven.
  destruct (Qcompare_spec (y - inject_Z (Qfloor y)) (1 # 2)) as [E|E|E].
  - destruct (Z.even (Qfloor y)); rewrite ?inject_Z_plus;
      change (inject_Z 1) with 1%Q; lra.
  - lra.
  - rewrite inject_Z_plus. change (inject_Z 1) with 1%Q. lra.
Qed.

Lemma roundHalfEven_inject (z : Z) : roundHalfEven (inject_Z z) = z.
Proof.
  unfold roundHalfEven. rewrite Qfloor_Z.
  destruct (Qcompare_spec (inject_Z z - inject_Z z) (1 # 2)) as [E|E|E];
    [lra | reflexivity | lra].
Qed.

Lemma roundHalfEven_mono (y y' : Q) :
  (y <= y')%Q -> roundHalfEven y <= roundHalfEven y'.
Proof.
  intros Hle.
  pose proof (Qfloor_resp_le _ _ Hle) as Hf.
  destruct (Z.eq_dec (Qfloor y) (Qfloor y')) as [E|Hne].
  - unfold roundHalfEven. rewrite <- E.
    destruct (Qcompare_spec (y - inject_Z (Qfloor y)) (1 # 2)) as [E1|E1|E1];
      destruct (Qcompare_spec (y' - inject_Z (Qfloor y)) (1 # 2)) as [E2|E2|E2];
      try destruct (Z.even (Qfloor y)); try lia; lra.
  - pose proof (roundHalfEven_floor y). pose proof (roundHalfEven_floor y').
    lia.
Qed.

(** ** Rounding a positive rational to binary64 *)

Lemma quantum_mono (x y : Q) :
  (0 < x)%Q -> (x <= y)%Q -> quantum x <= quantum y.
Proof.
  intros Hx Hxy. unfold quantum.
  pose proof (ilog2_mono x y Hx Hxy). lia.
Qed.

Lemma quantum_comp (x y : Q) :
  (0 < x)%Q -> (x == y)%Q -> quantum x = quantum y.
Proof. intros Hx E. unfold quantum. now rewrite (ilog2_comp x y Hx E). Qed.

Lemma roundPositive_comp (x y : Q) :
  (0 < x)%Q -> (x == y)%Q -> (roundPositive x == roundPositive y)%Q.
Proof.
  intros Hx E. unfold roundPositive.
  rewrite (quantum_comp x y Hx E).
  assert (E' : (x / pow2 (quantum y) == y / pow2 (quantum y))%Q)
    by (rewrite E; reflexivity).
  now rewrite (roundHalfEven_comp _ _ E').
Qed.

Lemma scaled_below (x : Q) :
  (0 < x)%Q -> (x / pow2 (quantum x) < pow2 53)%Q.
Proof.
  intros Hx. destruct (ilog2_spec x Hx) as [_ Hhi].
  pose proof (pow2_pos (quantum x)) as Hp.
  apply Qlt_shift_div_r; [exact Hp|].
  rewrite <- pow2_add.
  apply Qlt_le_trans with (pow2 (ilog2 x + 1)); [exact Hhi|].
  apply pow2_le. unfold quantum. lia.
Qed.

Lemma scaled_above (x : Q) :
  (0 < x)%Q -> -1074 <= ilog2 x - 52 ->
  (pow2 52 <= x / pow2 (quantum x))%Q.
Proof.
  intros Hx Hn. destruct (ilog2_spec x Hx) as [Hlo _].
  pose proof (pow2_pos (quantum x)) as Hp.
  apply Qle_shift_div_l; [exact Hp|].
  rewrite <- pow2_add.
  apply Qle_trans with (pow2 (ilog2 x)); [|exact Hlo].
  apply pow2_le. unfold quantum. lia.
Qed.

Lemma pow2_53 : (pow2 53 == inject_Z (2 ^ 53))%Q.
Proof. apply pow2_inject. lia. Qed.

Lemma pow2_52 : (pow2 52 == inject_Z (2 ^ 52))%Q.
Proof. apply pow2_inject. lia. Qed.

Lemma roundPositive_top (x : Q) :
  (0 < x)%Q -> (roundPositive x <= pow2 (quantum x + 53))%Q.
Proof.
  intros Hx. unfold roundPositive.
  pose proof (pow2_pos (quantum x)) as Hp.
  rewrite pow2_add, (Qmult_comm (pow2 (quantum x))).
  apply Qmult_le_r; [exact Hp|].
  rewrite pow2_53, <- Zle_Qle.
  rewrite <- (roundHalfEven_inject (2 ^ 53)).
  apply roundHalfEven_mono. rewrite <- pow2_53.
  apply Qlt_le_weak. now apply scaled_below.
Qed.

Lemma roundPositive_bottom (x : Q) :
  (0 < x)%Q -> -1074 <= ilog2 x - 52 ->
  (pow2 (ilog2 x) <= roundPositive x)%Q.
Proof.
  intros Hx Hn. unfold roundPositive.
  pose proof (pow2_pos (quantum x)) as Hp.
  replace (ilog2 x) with (52 + quantum x) at 1 by (unfold quantum; lia).
  rewrite pow2_add.
  apply Qmult_le_r; [exact Hp|].
  rewrite pow2_52, <- Zle_Qle.
  rewrite <- (roundHalfEven_inject (2 ^ 52)).
  apply roundHalfEven_mono. rewrite <- pow2_52.
  now apply scaled_above.
Qed.

(** Rounding is monotone. *)
Lemma roundPositive_mono (x y : Q) :
  (0 < x)%Q -> (x <= y)%Q -> (roundPositive x <= roundPositive y)%Q.
Proof.
  intros Hx Hxy.
  assert (Hy : (0 < y)%Q) by lra.
  pose proof (quantum_mono x y Hx Hxy) as Hq.
  destruct (Z.eq_dec (quantum x) (quantum y)) as [E|Hne].
  - unfold roundPositive. rewrite E.
    pose proof (pow2_pos (quantum y)) as Hp.
    apply Qmult_le_r; [exact Hp|].
    rewrite <- Zle_Qle. apply roundHalfEven_mono.
    apply Qmult_le_r; [now apply Qinv_lt_0_compat | exact Hxy].
  - assert (Hn : -1074 <= ilog2 y - 52) by (unfold quantum in *; lia).
    apply Qle_trans with (pow2 (quantum x + 53)); [now apply roundPositive_top|].
    apply Qle_trans with (pow2 (ilog2 y)); [|now apply roundPositive_bottom].
    apply pow2_le. unfold quantum in *. lia.
Qed.

(** A value with a significand below 2^53 is not changed. *)
Lemma roundPositive_exact (x : Q) (m e : Z) :
  0 < m < 2 ^ 53 -> -1074 <= e ->
  (x == inject_Z m * pow2 e)%Q -> (roundPositive x == x)%Q.
Proof.
  intros Hm He Ex.
  pose proof (pow2_pos e) as Hpe.
  assert (Hmq : (0 < inject_Z m)%Q)
    by (change 0%Q with (inject_Z 0); rewrite <- Zlt_Qlt; lia).
  assert (Hx : (0 < x)%Q) by (rewrite Ex; now apply Qmult_lt_0_compat).
  destruct (log2_bounds m ltac:(lia)) as [Hlo Hhi].
  assert (Hlog : Z.log2 m < 53) by (apply Z.log2_lt_pow2; lia).
  assert (Hi : ilog2 x = Z.log2 m + e).
  { apply ilog2_unique. rewrite Ex.
    replace (Z.log2 m + e + 1) with (Z.log2 m + 1 + e) by lia.
    rewrite (pow2_add (Z.log2 m) e), (pow2_add (Z.log2 m + 1) e). split.
    - apply Qmult_le_r; assumption.
    - apply Qmult_lt_r; assumption. }
  assert (Hq : quantum x <= e) by (unfold quantum; lia).
  set (q := quantum x) in *.
  pose proof (pow2_pos q) as Hpq.
  assert (Hs : (x / pow2 q == inject_Z (m * 2 ^ (e - q)))%Q).
  { rewrite inject_Z_mult, <- pow2_inject by lia.
    rewrite pow2_sub, Ex. field. lra. }
  unfold roundPositive. fold q.
  rewrite (roundHalfEven_comp _ _ Hs), roundHalfEven_inject, <- Hs.
  field. lra.
Qed.

Lemma roundPositive_Z (z : Z) :
  0 < z < 2 ^ 53 -> (roundPositive (inject_Z z) == inject_Z z)%Q.
Proof.
  intros Hz. apply (roundPositive_exact _ z 0); [exact Hz | lia|].
  change (pow2 0) with 1%Q. ring.
Qed.

Lemma roundPositive_pow2 (k : Z) :
  -1074 <= k -> (roundPositive (pow2 k) == pow2 k)%Q.
Proof.
  intros Hk. apply (roundPositive_exact _ 1 k); [lia | exact Hk|].
  change (inject_Z 1) with 1%Q. ring.
Qed.

(** The relative error of rounding in the normal range. *)
Lemma roundPositive_error (x : Q) :
  (0 < x)%Q -> -1074 <= ilog2 x - 52 ->
  (roundPositive x <= x * (1 + pow2 (-53)))%Q.
Proof.
  intros Hx Hn. destruct (ilog2_spec x Hx) as [Hlo _].
  assert (Eq : quantum x = ilog2 x - 52) by (unfold quantum; lia).
  unfold roundPositive. rewrite Eq.
  set (e := ilog2 x - 52) in *.
  pose proof (pow2_pos e) as Hp.
  destruct (roundHalfEven_near (x / pow2 e)) as [_ Hup].
  assert (H1 : (inject_Z (roundHalfEven (x / pow2 e)) * pow2 e
                <= (x / pow2 e + (1 # 2)) * pow2 e)%Q)
    by (apply Qmult_le_r; assumption).
  assert (H2 : ((x / pow2 e + (1 # 2)) * pow2 e == x + (1 # 2) * pow2 e)%Q)
    by (field; lra).
  assert (H3 : (pow2 (ilog2 x) == pow2 53 * ((1 # 2) * pow2 e))%Q).
  { replace (ilog2 x) with (53 + (e + -1)) by (unfold e; lia).
    rewrite !pow2_add. change (pow2 (-1)) with (1 # 2)%Q. ring. }
  assert (H4 : (pow2 53 * pow2 (-53) == 1)%Q).
  { rewrite <- pow2_add. reflexivity. }
  pose proof (pow2_pos 53) as Hp53. pose proof (pow2_pos (-53)) as Hpm53.
  assert (H5 : ((1 # 2) * pow2 e == pow2 (ilog2 x) * pow2 (-53))%Q).
  { rewrite H3.
    transitivity ((pow2 53 * pow2 (-53)) * ((1 # 2) * pow2 e))%Q; [|ring].
    rewrite H4. ring. }
  rewrite H2, H5 in H1.
  apply Qle_trans with (x + pow2 (ilog2 x) * pow2 (-53))%Q; [exact H1|].
  assert (H6 : (pow2 (ilog2 x) * pow2 (-53) <= x * pow2 (-53))%Q)
    by (apply Qmult_le_r; assumption).
  lra.
Qed.

End Binary64.

Section DimensionCalculator.

Import JS.

Lemma round64_pos (x : Q) : (0 < x)%Q -> (round64 x == roundPositive x)%Q.
Proof.
  intros Hx. unfold round64. rewrite Qred_correct.
  destruct (Qcompare_spec x 0) as [E|E|E]; [lra | lra | reflexivity].
Qed.

Lemma round64_mono (x y : Q) :
  (0 < x)%Q -> (x <= y)%Q -> (round64 x <= round64 y)%Q.
Proof.
  intros Hx Hxy. rewrite (round64_pos x), (round64_pos y) by lra.
  now apply roundPositive_mono.
Qed.

Lemma round64_pow2 (k : Z) : -1074 <= k -> (round64 (pow2 k) == pow2 k)%Q.
Proof.
  intros Hk. rewrite round64_pos by apply pow2_pos.
  now apply roundPositive_pow2.
Qed.

Lemma round64_Z (z : Z) :
  0 < z < 2 ^ 53 -> (round64 (inject_Z z) == inject_Z z)%Q.
Proof.
  intros Hz. rewrite round64_pos by (apply inject_Z_pos; lia).
  now apply roundPositive_Z.
Qed.

(** Rounding keeps a value between two powers of two. *)
Lemma round64_range (x : Q) (lo hi : Z) :
  -1074 <= lo ->
  (pow2 lo <= x <= pow2 hi)%Q -> (pow2 lo <= round64 x <= pow2 hi)%Q.
Proof.
  intros Hlo [H1 H2].
  pose proof (pow2_pos lo) as Hp.
  assert (Hhi : -1074 <= hi).
  { assert (lo < hi + 1) by (apply pow2_lt_inv; rewrite pow2_succ;
                              pose proof (pow2_pos hi); lra). lia. }
  split.
  - rewrite <- (round64_pow2 lo Hlo). apply round64_mono; assumption.
  - rewrite <- (round64_pow2 hi Hhi). apply round64_mono; [lra | assumption].
Qed.

(** Below 2^1024 the rounded value is the Number. *)
Lemma toNumber_range (x : Q) (lo hi : Z) :
  -1074 <= lo -> hi < 1024 ->
  (pow2 lo <= x <= pow2 hi)%Q -> toNumber x = Fin (round64 x).
Proof.
  intros Hlo Hhi Hx.
  destruct (round64_range x lo hi Hlo Hx) as [H1 H2].
  pose proof (pow2_pos lo) as Hp. pose proof (pow2_pos 1024) as Hq.
  pose proof (pow2_lt hi 1024 Hhi) as Hlt.
  unfold toNumber.
  rewrite Qle_bool_false by lra. rewrite Qle_bool_false by lra.
  reflexivity.
Qed.

Lemma div_range (x y : Q) (a1 a2 b1 b2 : Z) :
  (pow2 a1 <= x <= pow2 a2)%Q -> (pow2 b1 <= y <= pow2 b2)%Q ->
  (pow2 (a1 - b2) <= x / y <= pow2 (a2 - b1))%Q.
Proof.
  intros [Hx1 Hx2] [Hy1 Hy2].
  pose proof (pow2_pos a1). pose proof (pow2_pos b1).
  pose proof (pow2_pos b2). pose proof (pow2_pos a2).
  assert (Hy : (0 < y)%Q) by lra.
  rewrite !pow2_sub. split.
  - apply Qle_shift_div_l; [exact Hy|].
    apply Qle_trans with (pow2 a1 / pow2 b2 * pow2 b2)%Q.
    + apply Qmult_le_l; [|exact Hy2].
      apply Qlt_shift_div_l; lra.
    + assert (E : (pow2 a1 / pow2 b2 * pow2 b2 == pow2 a1)%Q) by (field; lra).
      rewrite E. exact Hx1.
  - apply Qle_shift_div_r; [exact Hy|].
    apply Qle_trans with (pow2 a2 / pow2 b1 * pow2 b1)%Q.
    + assert (E : (pow2 a2 / pow2 b1 * pow2 b1 == pow2 a2)%Q) by (field; lra).
      rewrite E. exact Hx2.
    + apply Qmult_le_l; [|exact Hy1].
      apply Qlt_shift_div_l; lra.
Qed.

Lemma mul_range (x y : Q) (a1 a2 b1 b2 : Z) :
  (pow2 a1 <= x <= pow2 a2)%Q -> (pow2 b1 <= y <= pow2 b2)%Q ->
  (pow2 (a1 + b1) <= x * y <= pow2 (a2 + b2))%Q.
Proof.
  intros [Hx1 Hx2] [Hy1 Hy2].
  pose proof (pow2_pos a1). pose proof (pow2_pos b1).
  rewrite !pow2_add. split.
  - apply Qle_trans with (pow2 a1 * y)%Q.
    + apply Qmult_le_l; lra.
    + apply Qmult_le_r; lra.
  - apply Qle_trans with (x * pow2 b2)%Q.
    + apply Qmult_le_l; lra.
    + apply Qmult_le_r; [pose proof (pow2_pos b2); lra | lra].
Qed.

Lemma imageSize_range (n : Z) :
  isImageSize n = true -> (pow2 0 <= inject_Z n <= pow2 32)%Q.
Proof.
  unfold isImageSize. intros H. apply andb_true_iff in H.
  destruct H as [H1 H2]. apply Z.ltb_lt in H1. apply Z.ltb_lt in H2.
  rewrite (pow2_inject 32) by lia. change (pow2 0) with (inject_Z 1).
  rewrite <- !Zle_Qle. lia.
Qed.

(** On the sizes of an image and bounds of at least 1 the code computes
    [targetSize], rounds it and floors it at 1; no step leaves the finite
    numbers. *)
Lemma finalDimensions_Fin (W H : Z) (maxW maxH : Q) :
  isImageSize W = true -> isImageSize H = true ->
  (1 <= maxW)%Q -> (1 <= maxH)%Q ->
  finalDimensions (ofZ W) (ofZ H) (Fin maxW) (Fin maxH)
  = mkDims
      (ofZ (Z.max 1 (roundQ (fst (targetSize (inject_Z W) (inject_Z H) maxW maxH)))))
      (ofZ (Z.max 1 (roundQ (snd (targetSize (inject_Z W) (inject_Z H) maxW maxH))))).
Proof.
  intros HW HH HmW HmH.
  apply imageSize_range in HW. apply imageSize_range in HH.
  pose proof (div_range _ _ _ _ _ _ HW HH) as Ha0.
  pose proof (toNumber_range _ (0 - 32) (32 - 0) ltac:(lia) ltac:(lia) Ha0) as Ea.
  pose proof (round64_range _ (0 - 32) (32 - 0) ltac:(lia) Ha0) as Ha.
  pose proof (pow2_pos (0 - 32)) as Hp.
  change (pow2 0) with 1%Q in HW, HH.
  unfold ofZ at 1 2. unfold finalDimensions, targetSize.
  set (Wq := inject_Z W) in *. set (Hq := inject_Z H) in *.
  rewrite (div_Fin Wq Hq) by lra. rewrite Ea.
  set (a := round64 (Wq / Hq)) in *.
  rewrite gt_Fin.
  destruct (Qlt_le_dec maxW Wq) as [Hw|Hw].
  - assert (HmWr : (pow2 0 <= maxW <= pow2 32)%Q)
      by (change (pow2 0) with 1%Q; lra).
    pose proof (div_range _ _ _ _ _ _ HmWr Ha) as Ht0.
    rewrite (div_Fin maxW a) by lra.
    rewrite (toNumber_range _ (0 - (32 - 0)) (32 - (0 - 32))
               ltac:(lia) ltac:(lia) Ht0).
    pose proof (round64_range _ (0 - (32 - 0)) (32 - (0 - 32))
                  ltac:(lia) Ht0) as Hh1.
    set (h1 := round64 (maxW / a)) in *.
    rewrite gt_Fin.
    destruct (Qlt_le_dec maxH h1) as [Hh|Hh].
    + assert (HmHr : (pow2 0 <= maxH <= pow2 (32 - (0 - 32)))%Q)
        by (change (pow2 0) with 1%Q; lra).
      pose proof (mul_range _ _ _ _ _ _ HmHr Ha) as Hp0.
      cbn [mul mathRound fst snd].
      rewrite (toNumber_range _ (0 + (0 - 32)) (32 - (0 - 32) + (32 - 0))
                 ltac:(lia) ltac:(lia) Hp0).
      cbn [mathRound]. now rewrite !mathMax_ofZ.
    + cbn [mathRound fst snd]. now rewrite !mathMax_ofZ.
  - rewrite gt_Fin.
    destruct (Qlt_le_dec maxH Hq) as [Hh|Hh].
    + assert (HmHr : (pow2 0 <= maxH <= pow2 32)%Q)
        by (change (pow2 0) with 1%Q; lra).
      pose proof (mul_range _ _ _ _ _ _ HmHr Ha) as Hp0.
      cbn [mul mathRound fst snd].
      rewrite (toNumber_range _ (0 + (0 - 32)) (32 + (32 - 0))
                 ltac:(lia) ltac:(lia) Hp0).
      cbn [mathRound]. now rewrite !mathMax_ofZ.
    + cbn [mathRound fst snd]. now rewrite !mathMax_ofZ.
Qed.

(** Within the bounds nothing is resized. *)
Lemma targetSize_unchanged (W H maxW maxH : Q) :
  (W <= maxW)%Q -> (H <= maxH)%Q -> targetSize W H maxW maxH = (W, H).
Proof.
  intros Hw Hh. unfold targetSize.
  destruct (Qlt_le_dec maxW W) as [Hw'|_]; [lra|].
  destruct (Qlt_le_dec maxH H) as [Hh'|_]; [lra|reflexivity].
Qed.

Lemma targetSize_spec (W H maxW maxH : Q) :
  exists w1 h1 : Q,
    specWidthClamp (round64 (W / H)) W H maxW w1 h1 /\
    specHeightClamp (round64 (W / H)) maxH w1 h1
      (fst (targetSize W H maxW maxH)) (snd (targetSize W H maxW maxH)).
Proof.
  unfold targetSize, specWidthClamp.
  destruct (Qlt_le_dec maxW W) as [Hw|Hw].
  - exists maxW, (round64 (maxW / round64 (W / H))). split; [split; reflexivity|].
    unfold specHeightClamp.
    destruct (Qlt_le_dec maxH (round64 (maxW / round64 (W / H))));
      simpl; split; reflexivity.
  - exists W, H. split; [split; reflexivity|].
    unfold specHeightClamp.
    destruct (Qlt_le_dec maxH H); simpl; split; reflexivity.
Qed.

Lemma below_integer (m h : Z) :
  (inject_Z m < inject_Z h)%Q -> (inject_Z m <= inject_Z h - 1)%Q.
Proof.
  intros Hlt. rewrite <- Zlt_Qlt in Hlt.
  assert (E : (inject_Z h - 1 == inject_Z (h - 1))%Q).
  { unfold Z.sub. rewrite inject_Z_plus. reflexivity. }
  rewrite E, <- Zle_Qle. lia.
Qed.

Lemma ilog2_pow2 (k : Z) : ilog2 (pow2 k) = k.
Proof.
  apply ilog2_unique. split; [apply Qle_refl | apply pow2_lt; lia].
Qed.

Lemma isDouble_round64 (x : Q) : isDouble x = true -> (round64 x == x)%Q.
Proof.
  unfold isDouble. intros H. apply andb_true_iff in H.
  destruct H as [H _]. now apply Qeq_bool_iff.
Qed.

(** With bounds that are integers the target size stays within them,
    before [Math.round]. *)
Lemma targetSize_bounded (W H maxW maxH : Z) :
  isImageSize W = true -> isImageSize H = true ->
  1 <= maxW -> 1 <= maxH ->
  isDouble (inject_Z maxW) = true -> isDouble (inject_Z maxH) = true ->
  let t := targetSize (inject_Z W) (inject_Z H) (inject_Z maxW) (inject_Z maxH) in
  (fst t <= inject_Z maxW)%Q /\ (snd t <= inject_Z maxH)%Q.
Proof.
  intros HW HH HmW HmH HdW HdH.
  apply isDouble_round64 in HdW. apply isDouble_round64 in HdH.
  assert (HW53 : 0 < W < 2 ^ 53).
  { unfold isImageSize in HW. apply andb_true_iff in HW.
    destruct HW as [H1 H2]. apply Z.ltb_lt in H1. apply Z.ltb_lt in H2. lia. }
  apply imageSize_range in HW. apply imageSize_range in HH.
  pose proof (div_range _ _ _ _ _ _ HW HH) as Ha0.
  pose proof (round64_range _ (0 - 32) (32 - 0) ltac:(lia) Ha0) as Ha.
  pose proof (pow2_pos (0 - 32)) as Hp.
  change (pow2 0) with 1%Q in HW, HH.
  assert (HmWq : (1 <= inject_Z maxW)%Q)
    by (change 1%Q with (inject_Z 1); now rewrite <- Zle_Qle).
  assert (HmHq : (1 <= inject_Z maxH)%Q)
    by (change 1%Q with (inject_Z 1); now rewrite <- Zle_Qle).
  unfold targetSize.
  set (Wq := inject_Z W) in *. set (Hq := inject_Z H) in *.
  set (mw := inject_Z maxW) in *. set (mh := inject_Z maxH) in *.
  set (a := round64 (Wq / Hq)) in *.
  assert (Hapos : (0 < a)%Q) by lra.
  destruct (Qlt_le_dec mw Wq) as [Hw|Hw].
  - destruct (Qlt_le_dec mh (round64 (mw / a))) as [Hh|Hh]; cbn [fst snd].
    + split; [|lra].
      assert (Hlt : (mh * a < mw)%Q).
      { destruct (Qlt_le_dec (mh * a) mw) as [Hc|Hc]; [exact Hc|].
        exfalso.
        assert (Hq1 : (mw / a <= mh)%Q) by (apply Qle_shift_div_r; assumption).
        assert (Hq0 : (0 < mw / a)%Q)
          by (apply Qlt_shift_div_l; [assumption | lra]).
        pose proof (round64_mono _ _ Hq0 Hq1) as Hm.
        rewrite HdH in Hm. lra. }
      assert (Hpos : (0 < mh * a)%Q) by (apply Qmult_lt_0_compat; lra).
      pose proof (round64_mono _ _ Hpos (Qlt_le_weak _ _ Hlt)) as Hm.
      rewrite HdW in Hm. exact Hm.
    + split; [lra | exact Hh].
  - destruct (Qlt_le_dec mh Hq) as [Hh|Hh]; cbn [fst snd].
    + split; [|lra].
      apply Qle_trans with Wq; [|exact Hw].
      apply Qle_trans with (round64 Wq);
        [|apply Qle_lteq; right; exact (round64_Z W HW53)].
      assert (Hpos : (0 < mh * a)%Q) by (apply Qmult_lt_0_compat; lra).
      apply round64_mono; [exact Hpos|].
      (* the bound is an integer below the height *)
      assert (Hint : (mh <= Hq - 1)%Q) by (now apply below_integer).
      assert (Ha0pos : (0 < Wq / Hq)%Q) by lra.
      assert (Hnorm : -1074 <= ilog2 (Wq / Hq) - 52).
      { pose proof (ilog2_mono (pow2 (0 - 32)) (Wq / Hq) Hp (proj1 Ha0)) as Hi.
        rewrite ilog2_pow2 in Hi. lia. }
      pose proof (roundPositive_error (Wq / Hq) Ha0pos Hnorm) as Herr.
      rewrite <- round64_pos in Herr by exact Ha0pos. fold a in Herr.
      set (a0 := (Wq / Hq)%Q) in *. set (u := pow2 (-53)) in *.
      assert (Hu : (0 < u)%Q) by apply pow2_pos.
      assert (E : (a0 * Hq == Wq)%Q) by (unfold a0; field; lra).
      assert (Hsmall : (Hq * u <= 1)%Q).
      { apply Qle_trans with (pow2 32 * u)%Q.
        - apply Qmult_le_r; [exact Hu | lra].
        - unfold u. rewrite <- pow2_add. apply Qlt_le_weak.
          change 1%Q with (pow2 0). apply pow2_lt. lia. }
      assert (H1 : (mh * a <= (Hq - 1) * (a0 * (1 + u)))%Q).
      { apply Qle_trans with ((Hq - 1) * a)%Q.
        - apply Qmult_le_r; assumption.
        - apply Qmult_le_l; [lra | exact Herr]. }
      assert (H2 : (a0 * (Hq * u) <= a0 * 1)%Q)
        by (apply Qmult_le_l; assumption).
      assert (H3 : ((Hq - 1) * (a0 * (1 + u))
                    == Wq + a0 * (Hq * u) - a0 * 1 - a0 * u)%Q).
      { rewrite <- E. ring. }
      assert (H4 : (0 < a0 * u)%Q) by (apply Qmult_lt_0_compat; assumption).
      rewrite H3 in H1. lra.
    + split; lra.
Qed.

(** C1: for a source image of natural width W > 0 and height H > 0 and
    bounds maxWidth, maxHeight >= 1, the dimensions computed by
    [processImage] are those of the algorithm of the specification:
    aspect = W/H; if W > maxWidth the width becomes maxWidth and the
    height width/aspect; then, against the height this left, if it exceeds
    maxHeight the height becomes maxHeight and the width height*aspect;
    each is rounded to a nearest integer and floored at 1. *)
Theorem C1_dimension_algorithm (W H : Z) (maxWidth maxHeight : Q) :
  isImageSize W = true -> isImageSize H = true ->
  (1 <= maxWidth)%Q -> (1 <= maxHeight)%Q ->
  exists w' h' : Z,
    finalDimensions (ofZ W) (ofZ H) (Fin maxWidth) (Fin maxHeight)
    = mkDims (ofZ w') (ofZ h') /\
    specDimensions (inject_Z W) (inject_Z H) maxWidth maxHeight w' h'.
Proof.
  intros HW HH HmW HmH.
  eexists _, _. split.
  - apply finalDimensions_Fin; assumption.
  - destruct (targetSize_spec (inject_Z W) (inject_Z H) maxWidth maxHeight)
      as (w1 & h1 & Hc1 & Hc2).
    exists (round64 (inject_Z W / inject_Z H)), w1, h1.
    eexists _, _, _, _.
    split; [reflexivity|].
    split; [exact Hc1|].
    split; [exact Hc2|].
    split; [apply roundQ_nearest|].
    split; [apply roundQ_nearest|].
    split; reflexivity.
Qed.

Lemma C1_dimension_algorithm_witness :
  exists w' h' : Z,
    finalDimensions (ofZ 1000) (ofZ 500) (Fin 800) (Fin 800)
    = mkDims (ofZ w') (ofZ h') /\
    specDimensions (inject_Z 1000) (inject_Z 500) 800 800 w' h'.
Proof.
  apply (C1_dimension_algorithm 1000 500 800 800);
    [reflexivity | reflexivity | lra | lra].
Defined.

(** C2: for every natural width W > 0 and height H > 0 of an image and
    integer bounds maxWidth >= 1 and maxHeight >= 1, the final dimensions
    are integers with finalWidth <= maxWidth and finalHeight <= maxHeight,
    under the rounding of the binary64 division and multiplication. *)
Theorem C2_within_bounds (W H maxWidth maxHeight : Z) :
  isImageSize W = true -> isImageSize H = true ->
  1 <= maxWidth -> 1 <= maxHeight ->
  isDouble (inject_Z maxWidth) = true ->
  isDouble (inject_Z maxHeight) = true ->
  exists finalWidth finalHeight : Z,
    finalDimensions (ofZ W) (ofZ H) (ofZ maxWidth) (ofZ maxHeight)
    = mkDims (ofZ finalWidth) (ofZ finalHeight) /\
    finalWidth <= maxWidth /\ finalHeight <= maxHeight.
Proof.
  intros HW HH HmW HmH HdW HdH.
  assert (HmWq : (1 <= inject_Z maxWidth)%Q)
    by (change 1%Q with (inject_Z 1); now rewrite <- Zle_Qle).
  assert (HmHq : (1 <= inject_Z maxHeight)%Q)
    by (change 1%Q with (inject_Z 1); now rewrite <- Zle_Qle).
  eexists _, _. split.
  - unfold ofZ at 3 4. apply finalDimensions_Fin; assumption.
  - destruct (targetSize_bounded W H maxWidth maxHeight HW HH HmW HmH HdW HdH)
      as [Hw Hh].
    apply roundQ_le in Hw. apply roundQ_le in Hh. lia.
Qed.

Lemma C2_within_bounds_witness :
  exists finalWidth finalHeight : Z,
    finalDimensions (ofZ 4000) (ofZ 3000) (ofZ 800) (ofZ 100)
    = mkDims (ofZ finalWidth) (ofZ finalHeight) /\
    finalWidth <= 800 /\ finalHeight <= 100.
Proof.
  apply (C2_within_bounds 4000 3000 800 100);
    [reflexivity | reflexivity | lia | lia | vm_compute; reflexivity
    | vm_compute; reflexivity].
Defined.

(** C6: for all W, H > 0 and maxWidth, maxHeight >= 1 the computation
    returns a pair of integers w' >= 1 and h' >= 1 (never NaN, never an
    infinity), and when W <= maxWidth and H <= maxHeight the pair is
    (W, H) itself. *)
Theorem C6_positive_and_unchanged (W H : Z) (maxWidth maxHeight : Q) :
  isImageSize W = true -> isImageSize H = true ->
  (1 <= maxWidth)%Q -> (1 <= maxHeight)%Q ->
  exists w' h' : Z,
    finalDimensions (ofZ W) (ofZ H) (Fin maxWidth) (Fin maxHeight)
    = mkDims (ofZ w') (ofZ h') /\
    1 <= w' /\ 1 <= h' /\
    ((inject_Z W <= maxWidth)%Q -> (inject_Z H <= maxHeight)%Q ->
     w' = W /\ h' = H).
Proof.
  intros HW HH HmW HmH.
  eexists _, _. split; [|split; [|split]].
  - apply finalDimensions_Fin; assumption.
  - lia.
  - lia.
  - intros Hw Hh. rewrite (targetSize_unchanged _ _ _ _ Hw Hh); simpl.
    rewrite !roundQ_inject.
    unfold isImageSize in HW, HH.
    apply andb_true_iff in HW. apply andb_true_iff in HH.
    destruct HW as [HW _]. destruct HH as [HH _].
    apply Z.ltb_lt in HW. apply Z.ltb_lt in HH. lia.
Qed.

Lemma C6_positive_and_unchanged_witness :
  exists w' h' : Z,
    finalDimensions (ofZ 640) (ofZ 480) (Fin 800) (Fin 600)
    = mkDims (ofZ w') (ofZ h') /\
    1 <= w' /\ 1 <= h' /\
    ((inject_Z 640 <= 800)%Q -> (inject_Z 480 <= 600)%Q ->
     w' = 640 /\ h' = 480).
Proof.
  apply (C6_positive_and_unchanged 640 480 800 600);
    [reflexivity | reflexivity | lra | lra].
Defined.

(** The two examples of the specification, and a size on which the
    rounding of the division decides the result: 1/(2/93) is 46.5 exactly,
    and just below it in binary64. *)
Example dims_1600x1200 :
  finalDimensions (ofZ 1600) (ofZ 1200) (ofZ 800) (ofZ 600)
  = mkDims (ofZ 800) (ofZ 600).
Proof. vm_compute. reflexivity. Qed.

Example dims_1000x500 :
  finalDimensions (ofZ 1000) (ofZ 500) (ofZ 800) (ofZ 800)
  = mkDims (ofZ 800) (ofZ 400).
Proof. vm_compute. reflexivity. Qed.

Example dims_2x93 :
  finalDimensions (ofZ 2) (ofZ 93) (ofZ 1) (ofZ 47)
  = mkDims (ofZ 1) (ofZ 46).
Proof. vm_compute. reflexivity. Qed.

End DimensionCalculator.

Section MimeType.

Import Str.

Ltac literal_chars :=
  repeat (apply List.Forall_cons; [simpl; tauto|]); apply List.Forall_nil.

Lemma sameChar_lower (c d : ascii) :
  In c ["i"; "m"; "a"; "g"; "e"; "/"; "j"; "p"]%char ->
  sameChar true c d = Ascii.eqb (toLowerCase d) c.
Proof.
  intros Hc. simpl in Hc.
  repeat (destruct Hc as [<-|Hc]; [destruct d as [[] [] [] [] [] [] [] []]; reflexivity|]).
  contradiction.
Qed.

Lemma matchAnchored_Chr (c : ascii) (p : list term) (s : string) :
  In c ["i"; "m"; "a"; "g"; "e"; "/"; "j"; "p"]%char ->
  matchAnchored true (Chr c :: p) s = true <->
  exists d s', s = String d s' /\ toLowerCase d = c /\ matchAnchored true p s' = true.
Proof.
  intros Hc. destruct s as [|d s']; cbn [matchAnchored].
  - split; [discriminate|]. intros (d & s' & E & _). discriminate.
  - rewrite (sameChar_lower c d Hc), andb_true_iff, Ascii.eqb_eq.
    split.
    + intros [H1 H2]. now exists d, s'.
    + intros (d' & s'' & E & H1 & H2). injection E as <- <-. now split.
Qed.

Lemma matchAnchored_nil (s : string) :
  matchAnchored true [] s = true <-> s = EmptyString.
Proof. destruct s; simpl; split; congruence. Qed.

Lemma matchAnchored_Opt (c : ascii) (p : list term) (s : string) :
  matchAnchored true (Opt c :: p) s = true <->
  matchAnchored true (Chr c :: p) s = true \/ matchAnchored true p s = true.
Proof.
  destruct s as [|d s']; cbn [matchAnchored].
  - split; [now right | intros [H|H]; [discriminate | exact H]].
  - rewrite orb_true_iff. reflexivity.
Qed.

Lemma lower_String (s : string) (c : ascii) (t : string) :
  lower s = String c t <->
  exists d s', s = String d s' /\ toLowerCase d = c /\ lower s' = t.
Proof.
  destruct s as [|d s']; cbn [lower].
  - split; [discriminate|]. intros (d & s' & E & _). discriminate.
  - split.
    + intros E. injection E as E1 E2. now exists d, s'.
    + intros (d' & s'' & E & E1 & E2). injection E as <- <-. congruence.
Qed.

Lemma lower_Empty (s : string) : lower s = EmptyString <-> s = EmptyString.
Proof. destruct s; cbn [lower]; split; congruence. Qed.

(** A literal run of the pattern matches a prefix that lower-cases to it. *)
Lemma matchAnchored_literal (cs : list ascii) (p : list term) (s : string) :
  Forall (fun c => In c ["i"; "m"; "a"; "g"; "e"; "/"; "j"; "p"]%char) cs ->
  matchAnchored true (map Chr cs ++ p) s = true <->
  exists s1 s2, s = String.append s1 s2 /\
                lower s1 = string_of_list_ascii cs /\
                matchAnchored true p s2 = true.
Proof.
  intros Hcs. revert s. induction Hcs as [|c cs Hc Hcs IH]; intros s.
  - cbn [map app string_of_list_ascii]. split.
    + intros H. exists EmptyString, s. now repeat split.
    + intros (s1 & s2 & -> & E & H). apply (proj1 (lower_Empty _)) in E. now subst s1.
  - cbn [map app string_of_list_ascii].
    rewrite (matchAnchored_Chr c _ s Hc). split.
    + intros (d & s' & -> & E & H). apply (proj1 (IH _)) in H.
      destruct H as (s1 & s2 & -> & E' & H).
      exists (String d s1), s2. cbn [String.append lower].
      repeat split; [congruence | exact H].
    + intros (s1 & s2 & -> & E & H).
      apply (proj1 (lower_String _ _ _)) in E. destruct E as (d & s1' & -> & E1 & E2).
      exists d, (String.append s1' s2). cbn [String.append].
      repeat split; [exact E1|]. apply IH. now exists s1', s2.
Qed.

Lemma lower_append (s t : string) :
  lower (String.append s t) = String.append (lower s) (lower t).
Proof. induction s as [|c s IH]; simpl; [reflexivity | now rewrite IH]. Qed.

(** The test of [handleFile]: the type matches [/^image\/jpe?g$/i] exactly
    when, lower-cased, it is [image/jpeg] or [image/jpg]. *)
Lemma isJpegType_iff (type : string) :
  isJpegType type = true <->
  lower type = "image/jpeg"%string \/ lower type = "image/jpg"%string.
Proof.
  unfold isJpegType, jpegPattern.
  change [Chr "i"; Chr "m"; Chr "a"; Chr "g"; Chr "e"; Chr "/"; Chr "j";
          Chr "p"; Opt "e"; Chr "g"]%char
    with (map Chr ["i"; "m"; "a"; "g"; "e"; "/"; "j"; "p"]%char
          ++ [Opt "e"; Chr "g"]%char).
  pose proof (matchAnchored_literal
                ["i"; "m"; "a"; "g"; "e"; "/"; "j"; "p"]%char
                [Opt "e"; Chr "g"]%char type
                ltac:(literal_chars)) as Hlit.
  cbn [string_of_list_ascii] in Hlit.
  etransitivity; [exact Hlit|]. clear Hlit.
  split.
  - intros (s1 & s2 & -> & E1 & H). rewrite lower_append, E1.
    apply (proj1 (matchAnchored_Opt _ _ _)) in H. destruct H as [H|H].
    + left.
      apply (proj1 (matchAnchored_literal ["e"; "g"]%char [] _
                      ltac:(literal_chars))) in H.
      destruct H as (t1 & t2 & -> & E2 & H).
      apply (proj1 (matchAnchored_nil _)) in H. subst t2.
      rewrite lower_append, E2. reflexivity.
    + right.
      apply (proj1 (matchAnchored_literal ["g"]%char [] _
                      ltac:(literal_chars))) in H.
      destruct H as (t1 & t2 & -> & E2 & H).
      apply (proj1 (matchAnchored_nil _)) in H. subst t2.
      rewrite lower_append, E2. reflexivity.
  - intros [E|E].
    + repeat (apply (proj1 (lower_String _ _ _)) in E;
              let d := fresh "d" in let s' := fresh "s" in
              let Ed := fresh "E" in
              destruct E as (d & s' & -> & Ed & E)).
      apply (proj1 (lower_Empty _)) in E. subst.
      exists (String d (String d0 (String d1 (String d2 (String d3
               (String d4 (String d5 (String d6 EmptyString)))))))).
      exists (String d7 (String d8 EmptyString)).
      split; [reflexivity|]. split.
      * cbn [lower]. congruence.
      * apply matchAnchored_Opt. left.
        apply matchAnchored_Chr; [simpl; tauto|].
        exists d7, (String d8 EmptyString). repeat split; [assumption|].
        apply matchAnchored_Chr; [simpl; tauto|].
        exists d8, EmptyString. repeat split. assumption.
    + repeat (apply (proj1 (lower_String _ _ _)) in E;
              let d := fresh "d" in let s' := fresh "s" in
              let Ed := fresh "E" in
              destruct E as (d & s' & -> & Ed & E)).
      apply (proj1 (lower_Empty _)) in E. subst.
      exists (String d (String d0 (String d1 (String d2 (String d3
               (String d4 (String d5 (String d6 EmptyString)))))))).
      exists (String d7 EmptyString).
      split; [reflexivity|]. split.
      * cbn [lower]. congruence.
      * apply matchAnchored_Opt. right.
        apply matchAnchored_Chr; [simpl; tauto|].
        exists d7, EmptyString. repeat split. assumption.
Qed.

End MimeType.

(** Runs the setters of a handler on a symbolic world. *)
Ltac run_handler :=
  cbv [exec eval mbind M_bind mret M_ret];
  cbn [get modify withUi
       setOriginalImageBase64 setProcessedImageBase64 setBase64Length
       setProcessedDimensions setOriginalFileName setError setProcessing
       setIsDraggingOver setSettings setDebouncedValue setTimer logCall
       clearFileInput readAsDataURL
       ui debouncedValue timer nextId calls fileInputValue reads
       originalImageBase64 processedImageBase64 base64Length settings
       processedDimensions originalFileName error processing isDraggingOver
       fst snd].

Section FileIngestion.

(** C7: [handleFile] accepts a file exactly when its type is image/jpeg or
    image/jpg, letter case aside: then the name is stored, the busy flag
    set and the read as a data URL started; any other type gets the
    unsupported-type error and no read is started. *)
Theorem C7_accepts_jpeg_only (w : World) (file : File) :
  let w' := exec (handleFile (Some file)) w in
  (jpegMime (file_type file) <-> reads w' = reads w ++ [file]) /\
  (jpegMime (file_type file) ->
     error (ui w') = None /\
     originalFileName (ui w') = file_name file /\
     processing (ui w') = true) /\
  (~ jpegMime (file_type file) ->
     error (ui w') = Some unsupportedTypeMessage /\
     reads w' = reads w).
Proof.
  unfold jpegMime. rewrite <- isJpegType_iff.
  unfold handleFile, exec.
  destruct (isJpegType (file_type file)) eqn:E; cbn.
  - repeat split; congruence.
  - repeat split; try congruence.
    intros H. apply (f_equal length) in H.
    rewrite length_app in H. simpl in H. lia.
Qed.

(** C3, as the code has it: rejecting a file of type image/png, or of any
    other type the pattern does not match, reports the unsupported-type
    error and resets the result of the earlier run: the processed Base64
    string and the dimensions to null, the length to 0, the file name to
    the empty string; the source is dropped too and no read is started. *)
Theorem C3_reject_resets_result (w : World) (file : File) :
  isJpegType (file_type file) = false ->
  let w' := exec (handleFile (Some file)) w in
  error (ui w') = Some unsupportedTypeMessage /\
  processedImageBase64 (ui w') = None /\
  processedDimensions (ui w') = None /\
  base64Length (ui w') = 0 /\
  originalFileName (ui w') = ""%string /\
  originalImageBase64 (ui w') = None /\
  processing (ui w') = processing (ui w) /\
  reads w' = reads w.
Proof.
  intros E. unfold handleFile, exec. rewrite E. cbn. repeat split.
Qed.

Lemma C3_reject_resets_result_witness :
  let w' := exec (handleFile (Some pngFile)) processedWorld in
  error (ui w') = Some unsupportedTypeMessage /\
  processedImageBase64 (ui w') = None /\
  processedDimensions (ui w') = None /\
  base64Length (ui w') = 0 /\
  originalFileName (ui w') = ""%string /\
  originalImageBase64 (ui w') = None /\
  processing (ui w') = processing (ui processedWorld) /\
  reads w' = reads processedWorld.
Proof.
  apply (C3_reject_resets_result processedWorld pngFile). reflexivity.
Defined.

(** The claim C3 as stated fails: after a PNG file is rejected, the
    processed Base64 string, the dimensions, the length and the file name
    of the earlier result are not the ones stored before. *)
Lemma C3_counterexample :
  let w' := exec (handleFile (Some pngFile)) processedWorld in
  error (ui w') = Some unsupportedTypeMessage /\
  processedImageBase64 (ui w') <> processedImageBase64 (ui processedWorld) /\
  processedDimensions (ui w') <> processedDimensions (ui processedWorld) /\
  base64Length (ui w') <> base64Length (ui processedWorld) /\
  originalFileName (ui w') <> originalFileName (ui processedWorld).
Proof. cbn. repeat split; discriminate. Qed.

End FileIngestion.

Section Orchestrator.

(** C4, as the code has it: on entry a run with a source sets the busy
    flag, clears the error and clears the dimensions of the earlier
    result; the encoded data and its length stay stored as they were, and
    the results section is not shown while the run is in flight. *)
Theorem C4_entry_clears_dimensions (w : World) (src : string) :
  isEmpty src = false ->
  let w' := exec (processImage_enter src) w in
  processedDimensions (ui w') = None /\
  error (ui w') = None /\
  processing (ui w') = true /\
  processedImageBase64 (ui w') = processedImageBase64 (ui w) /\
  base64Length (ui w') = base64Length (ui w) /\
  resultsShown (ui w') = false.
Proof.
  intros E. unfold processImage_enter, resultsShown. rewrite E. run_handler.
  repeat split. destruct (processedImageBase64 (ui w)); [apply andb_false_r | reflexivity].
Qed.

Lemma C4_entry_clears_dimensions_witness :
  let w' := exec (processImage_enter "data:image/jpeg;base64,/9j/4AAQ") processedWorld in
  processedDimensions (ui w') = None /\
  error (ui w') = None /\
  processing (ui w') = true /\
  processedImageBase64 (ui w') = processedImageBase64 (ui processedWorld) /\
  base64Length (ui w') = base64Length (ui processedWorld) /\
  resultsShown (ui w') = false.
Proof.
  apply (C4_entry_clears_dimensions processedWorld). reflexivity.
Defined.

(** The claim C4 as stated fails: after the entry of a run the encoded
    data and the length of the earlier result are still stored. *)
Lemma C4_counterexample :
  let w' := exec (processImage_enter "data:image/jpeg;base64,/9j/4AAQ") processedWorld in
  processedImageBase64 (ui w') = Some "data:image/jpeg;base64,/9j/2wBD"%string /\
  base64Length (ui w') = 31 /\
  ~ (processedImageBase64 (ui w') = None /\
     processedDimensions (ui w') = None /\
     base64Length (ui w') = 0).
Proof.
  cbn. repeat split. intros (H & _). discriminate H.
Qed.

Lemma sameSource_refl (a : option string) : sameSource a a = true.
Proof. destruct a as [x|]; [apply String.eqb_refl | reflexivity]. Qed.

(** A handler that leaves the source, the settings object and the
    debounced value alone makes no effect run at the next render. *)
Lemma runEffects_idle (now : Z) (prev w : World) :
  oid (settings (ui w)) = oid (settings (ui prev)) ->
  originalImageBase64 (ui w) = originalImageBase64 (ui prev) ->
  oid (debouncedValue w) = oid (debouncedValue prev) ->
  runEffects now prev w = (tt, w).
Proof.
  intros E1 E2 E3. unfold runEffects. run_handler.
  rewrite E1, E2, E3, !Nat.eqb_refl, sameSource_refl. reflexivity.
Qed.

(** Every exit of a run that the code handles clears the busy flag: the
    image fails to load, the canvas gives no context, or [drawImage]
    returns and the encoder returns or throws. *)
Lemma busy_flag_cleared_when_handled (b : Browser) (src : string)
    (q mw mh : number) (w : World) :
  isEmpty src = false ->
  match decodeImage b src with
  | Loaded W H =>
      getContext2d b = false \/
      drawImage b (finalDimensions (JS.ofZ W) (JS.ofZ H) mw mh) = inl tt
  | Broken => True
  end ->
  processing (ui (exec (processImage_enter src) w)) = true /\
  processing (ui (exec (processImage b src q mw mh) w)) = false.
Proof.
  intros E Hh. split.
  - unfold processImage_enter, exec. rewrite E. reflexivity.
  - unfold processImage, processImage_enter, img_settle. rewrite E.
    destruct (decodeImage b src) as [W H|]; [|reflexivity].
    unfold img_onload.
    destruct (getContext2d b); cbn [negb]; [|reflexivity].
    destruct Hh as [Hh|Hh]; [discriminate Hh|].
    run_handler. rewrite Hh. destruct (toDataURL b _ q); reflexivity.
Qed.

(** C5, on the exit the code does not handle: when the image loads, the
    canvas gives a context and [ctx.drawImage] (line 97, outside the try
    of lines 100-116) throws, the run has set the busy flag on entry and
    stored the dimensions, and then ends with the flag still true: the
    promise stays pending, no error is shown, the inputs stay disabled,
    no result is shown, and no effect runs at the next render that could
    clear the flag. *)
Theorem C5_busy_flag (b : Browser) (src thrown : string) (W H : Z)
    (q mw mh : number) (w : World) :
  isEmpty src = false ->
  decodeImage b src = Loaded W H ->
  getContext2d b = true ->
  drawImage b (finalDimensions (JS.ofZ W) (JS.ofZ H) mw mh) = inr thrown ->
  let w' := exec (processImage b src q mw mh) w in
  processing (ui (exec (processImage_enter src) w)) = true /\
  eval (processImage b src q mw mh) w = Pending /\
  processing (ui w') = true /\
  inputsDisabled (ui w') = true /\
  processedDimensions (ui w')
  = Some (finalDimensions (JS.ofZ W) (JS.ofZ H) mw mh) /\
  error (ui w') = None /\
  processedImageBase64 (ui w') = processedImageBase64 (ui w) /\
  resultsShown (ui w') = false /\
  (forall now : Z, exec (runEffects now w) w' = w').
Proof.
  intros E Hd Hc Ht.
  unfold processImage, processImage_enter, img_settle, img_onload.
  unfold inputsDisabled, resultsShown.
  rewrite E, Hd, Hc. cbn [negb]. run_handler. rewrite Ht. run_handler.
  repeat split.
  - destruct (processedImageBase64 (ui w));
      [apply andb_false_r | reflexivity].
  - intros now. unfold exec. now rewrite runEffects_idle.
Qed.

Lemma C5_busy_flag_witness :
  let src := "data:image/jpeg;base64,/9j/4AAQ"%string in
  let q := JS.toNumber (8 # 10) in
  let run := processImage drawThrowsBrowser src q (JS.ofZ 800) (JS.ofZ 600) in
  let w := processedWorld in
  let w' := exec run w in
  processing (ui (exec (processImage_enter src) w)) = true /\
  eval run w = Pending /\
  processing (ui w') = true /\
  inputsDisabled (ui w') = true /\
  processedDimensions (ui w')
  = Some (finalDimensions (JS.ofZ 1600) (JS.ofZ 1200) (JS.ofZ 800) (JS.ofZ 600)) /\
  error (ui w') = None /\
  processedImageBase64 (ui w') = processedImageBase64 (ui w) /\
  resultsShown (ui w') = false /\
  (forall now : Z, exec (runEffects now w) w' = w').
Proof.
  apply (C5_busy_flag drawThrowsBrowser "data:image/jpeg;base64,/9j/4AAQ"
           "The object is in an invalid state." 1600 1200
           (JS.toNumber (8 # 10)) (JS.ofZ 800) (JS.ofZ 600) processedWorld);
    reflexivity.
Defined.

(** The claim C5 as stated fails: in a browser whose [drawImage] throws,
    a run on a loaded image sets the busy flag on entry and terminates
    with the flag not set back to false. *)
Lemma C5_counterexample :
  let src := "data:image/jpeg;base64,/9j/4AAQ"%string in
  let run := processImage drawThrowsBrowser src (JS.toNumber (8 # 10))
               (JS.ofZ 800) (JS.ofZ 600) in
  processing (ui (exec (processImage_enter src) processedWorld)) = true /\
  eval run processedWorld = Pending /\
  processing (ui (exec run processedWorld)) <> false.
Proof. cbn. repeat split. discriminate. Qed.



End Orchestrator.

Section SettingsInput.

Lemma Qred_inject (z : Z) : Qred (inject_Z z) = inject_Z z.
Proof.
  unfold Qred, inject_Z.
  pose proof (Z.ggcd_gcd z 1) as Hg.
  pose proof (Z.ggcd_correct_divisors z 1) as Hd.
  destruct (Z.ggcd z (Z.pos 1)) as [g [q1 q2]]. cbn [fst snd] in *.
  rewrite Z.gcd_1_r in Hg. subst g. destruct Hd as [H1 H2].
  rewrite Z.mul_1_l in H1, H2. now subst.
Qed.

(** Rounding an integer gives an integer. *)
Lemma roundPositive_integer (n : Z) :
  0 < n -> exists k : Z, (JS.roundPositive (inject_Z n) == inject_Z k)%Q.
Proof.
  intros Hn.
  pose proof (inject_Z_pos n Hn) as Hq.
  destruct (Z.lt_ge_cases (JS.quantum (inject_Z n)) 0) as [Hneg|Hpos].
  - exists n. apply roundPositive_Z. split; [exact Hn|].
    destruct (ilog2_spec (inject_Z n) Hq) as [_ Hhi].
    assert (Hle : (JS.pow2 (JS.ilog2 (inject_Z n) + 1) <= JS.pow2 52)%Q)
      by (apply pow2_le; unfold JS.quantum in Hneg; lia).
    rewrite pow2_52 in Hle.
    assert (Hlt : (inject_Z n < inject_Z (2 ^ 52))%Q) by lra.
    rewrite <- Zlt_Qlt in Hlt. lia.
  - unfold JS.roundPositive.
    set (m := JS.roundHalfEven (inject_Z n / JS.pow2 (JS.quantum (inject_Z n)))).
    exists (m * 2 ^ JS.quantum (inject_Z n)).
    rewrite inject_Z_mult, <- pow2_inject by exact Hpos. reflexivity.
Qed.

Lemma round64_integer (n : Z) :
  exists k : Z, JS.round64 (inject_Z n) = inject_Z k.
Proof.
  unfold JS.round64.
  destruct (Qcompare_spec (inject_Z n) 0) as [E|E|E].
  - exists 0. reflexivity.
  - assert (Hn : 0 < - n).
    { change 0%Q with (inject_Z 0) in E. rewrite <- Zlt_Qlt in E. lia. }
    destruct (roundPositive_integer (- n) Hn) as [k Hk].
    exists (- k).
    transitivity (Qred (inject_Z (- k))); [|apply Qred_inject].
    apply Qred_complete.
    change (- inject_Z n)%Q with (inject_Z (- n)). rewrite Hk.
    now rewrite inject_Z_opp.
  - assert (Hn : 0 < n).
    { change 0%Q with (inject_Z 0) in E. now rewrite <- Zlt_Qlt in E. }
    destruct (roundPositive_integer n Hn) as [k Hk].
    exists k. transitivity (Qred (inject_Z k)); [|apply Qred_inject].
    now apply Qred_complete.
Qed.

Lemma toNumber_Z_cases (n : Z) :
  JS.toNumber (inject_Z n) = JS.PosInf \/
  JS.toNumber (inject_Z n) = JS.NegInf \/
  exists k : Z, JS.toNumber (inject_Z n) = JS.ofZ k.
Proof.
  unfold JS.toNumber. destruct (round64_integer n) as [k ->].
  destruct (Qle_bool (JS.pow2 1024) (inject_Z k)); [now left|].
  destruct (Qle_bool (inject_Z k) (- JS.pow2 1024)); [now right; left|].
  right; right. now exists k.
Qed.

Lemma parseInt_cases (s : string) :
  Str.parseInt s = JS.NaN \/ Str.parseInt s = JS.PosInf \/
  Str.parseInt s = JS.NegInf \/ exists k : Z, Str.parseInt s = JS.ofZ k.
Proof.
  unfold Str.parseInt.
  destruct (Str.signAndRest (Str.trimStart s)) as [sign rest].
  destruct (Str.digits None rest) as [n|]; [|now left].
  destruct (toNumber_Z_cases (sign * n)) as [E|[E|[k E]]]; rewrite E; eauto.
Qed.

Example parseInt_plain : Str.parseInt "1024" = JS.ofZ 1024.
Proof. vm_compute. reflexivity. Qed.

Example parseInt_prefix : Str.parseInt "  12px" = JS.ofZ 12.
Proof. vm_compute. reflexivity. Qed.

Example parseInt_negative : Str.parseInt "-5" = JS.ofZ (-5).
Proof. vm_compute. reflexivity. Qed.

Example parseInt_empty : Str.parseInt "" = JS.NaN.
Proof. reflexivity. Qed.

Example parseInt_words : Str.parseInt "abc" = JS.NaN.
Proof. reflexivity. Qed.

Example parseInt_rounds : Str.parseInt "9007199254740993" = JS.ofZ 9007199254740992.
Proof. vm_compute. reflexivity. Qed.

Example parseInt_overflows : Str.parseInt (target_value longEdit) = JS.PosInf.
Proof. vm_compute. reflexivity. Qed.

Lemma gt_ofZ (a c : Z) : JS.gt (JS.ofZ a) (JS.ofZ c) = (c <? a).
Proof.
  unfold JS.ofZ. rewrite gt_Fin.
  destruct (Qlt_le_dec (inject_Z c) (inject_Z a)) as [H|H].
  - rewrite <- Zlt_Qlt in H. symmetry. now apply Z.ltb_lt.
  - rewrite <- Zle_Qle in H. symmetry. apply Z.ltb_ge. exact H.
Qed.

Lemma or_ofZ (n d : Z) :
  JS.or (JS.ofZ n) (JS.ofZ d) = JS.ofZ (if n =? 0 then d else n).
Proof.
  unfold JS.or, JS.truthy, JS.ofZ.
  destruct (Z.eqb_spec n 0) as [->|Hn].
  - reflexivity.
  - rewrite Qeq_bool_false; [reflexivity|].
    intros H. change 0%Q with (inject_Z 0) in H.
    apply (proj1 (inject_Z_injective n 0)) in H. contradiction.
Qed.

(** [Math.max(1, parseInt(value, 10) || 1)] is +Infinity when the integer
    read is beyond the binary64 range; otherwise it is an integer of at
    least 1: the parsed integer when that is positive, and 1 if not. *)
Lemma clamped_bound (v : string) :
  let r := JS.mathMax (JS.ofZ 1) (JS.or (Str.parseInt v) (JS.ofZ 1)) in
  (r = JS.PosInf /\ Str.parseInt v = JS.PosInf) \/
  (exists z : Z,
     1 <= z /\ r = JS.ofZ z /\
     (JS.gt (Str.parseInt v) (JS.ofZ 0) = false -> z = 1) /\
     (JS.gt (Str.parseInt v) (JS.ofZ 0) = true -> Str.parseInt v = JS.ofZ z)).
Proof.
  cbv zeta.
  destruct (parseInt_cases v) as [E|[E|[E|[n E]]]]; rewrite E.
  - right. exists 1. cbn. repeat split; [lia | discriminate].
  - left. split; reflexivity.
  - right. exists 1. cbn. repeat split; [lia | discriminate].
  - right. rewrite or_ofZ, mathMax_ofZ, gt_ofZ.
    exists (Z.max 1 (if n =? 0 then 1 else n)).
    split; [lia|]. split; [reflexivity|].
    destruct (Z.eqb_spec n 0) as [->|Hn]; split; intros H;
      try apply Z.ltb_ge in H; try apply Z.ltb_lt in H; try lia.
    f_equal. lia.
Qed.

Lemma validBound_ofZ (z : Z) :
  1 <= z -> validBound (Some (VNum (JS.ofZ z))) = true.
Proof.
  intros Hz. unfold validBound, JS.ofZ. cbn [JS.isInteger JS.ge].
  rewrite Qfloor_Z. apply andb_true_iff. split.
  - apply Qeq_bool_iff. reflexivity.
  - apply Qle_bool_iff. now rewrite <- Zle_Qle.
Qed.

Lemma validBound_boundedBelow (v : option value) :
  validBound v = true -> boundedBelow v = true.
Proof.
  unfold validBound, boundedBelow. destruct v as [[n|]|]; try discriminate.
  intros H. apply andb_true_iff in H. destruct H as [H1 H2].
  now rewrite H1, H2.
Qed.

Lemma processedValue_bound (b : Browser) (e : ChangeEvent) :
  target_name e = "maxWidth"%string \/ target_name e = "maxHeight"%string ->
  processedValue b e
  = VNum (JS.mathMax (JS.ofZ 1)
            (JS.or (Str.parseInt (target_value e)) (JS.ofZ 1))).
Proof.
  unfold processedValue. intros [E|E]; rewrite E;
    destruct (String.eqb (target_type e) "number"); reflexivity.
Qed.

Lemma boundedBelow_insert (b : Browser) (e : ChangeEvent)
    (f : gmap string value) (k : string) :
  k = "maxWidth"%string \/ k = "maxHeight"%string ->
  boundedBelow (f !! k) = true ->
  boundedBelow (<[target_name e := processedValue b e]> f !! k) = true.
Proof.
  intros Hk Hv. destruct (decide (target_name e = k)) as [E|Hne].
  - rewrite E, lookup_insert_eq.
    rewrite processedValue_bound by (rewrite E; exact Hk).
    destruct (clamped_bound (target_value e)) as [[-> _]|(z & Hz & -> & _)].
    + reflexivity.
    + apply validBound_boundedBelow. now apply validBound_ofZ.
  - now rewrite lookup_insert_ne.
Qed.

Lemma validBound_insert (b : Browser) (e : ChangeEvent)
    (f : gmap string value) (k : string) :
  k = "maxWidth"%string \/ k = "maxHeight"%string ->
  Str.parseInt (target_value e) <> JS.PosInf ->
  validBound (f !! k) = true ->
  validBound (<[target_name e := processedValue b e]> f !! k) = true.
Proof.
  intros Hk Hfin Hv. destruct (decide (target_name e = k)) as [E|Hne].
  - rewrite E, lookup_insert_eq.
    rewrite processedValue_bound by (rewrite E; exact Hk).
    destruct (clamped_bound (target_value e)) as [[_ Hinf]|(z & Hz & -> & _)].
    + contradiction.
    + now apply validBound_ofZ.
  - now rewrite lookup_insert_ne.
Qed.

(** C10, as the code has it: a settings change handled by
    [handleSettingChange] keeps maxWidth and maxHeight at least 1, and
    integers unless the digits of the input exceed the binary64 range,
    which stores +Infinity.  The bound that is edited gets the parsed
    integer when that is positive and 1 otherwise: an empty, non-numeric,
    zero or negative input is clamped to 1. *)
Theorem C10_settings_invariant (b : Browser) (e : ChangeEvent) (w : World) :
  boundedSettings (fields (settings (ui w))) = true ->
  let w' := exec (handleSettingChange b e) w in
  let parsed := Str.parseInt (target_value e) in
  boundedSettings (fields (settings (ui w'))) = true /\
  (parsed <> JS.PosInf ->
   validSettings (fields (settings (ui w))) = true ->
   validSettings (fields (settings (ui w'))) = true) /\
  (target_name e = "maxWidth"%string \/ target_name e = "maxHeight"%string ->
   exists r : number,
     fields (settings (ui w')) !! target_name e = Some (VNum r) /\
     ((r = JS.PosInf /\ parsed = JS.PosInf) \/
      (exists z : Z,
         1 <= z /\ r = JS.ofZ z /\
         (JS.gt parsed (JS.ofZ 0) = false -> z = 1) /\
         (JS.gt parsed (JS.ofZ 0) = true -> parsed = JS.ofZ z)))).
Proof.
  intros Hv. unfold handleSettingChange. run_handler. cbn [fields].
  unfold boundedSettings, validSettings in *.
  apply andb_true_iff in Hv. destruct Hv as [Hw Hh].
  split; [|split].
  - apply andb_true_iff. split; apply boundedBelow_insert; auto.
  - intros Hfin Hs. apply andb_true_iff in Hs. destruct Hs as [Hsw Hsh].
    apply andb_true_iff. split; apply validBound_insert; auto.
  - intros Hname. rewrite lookup_insert_eq, processedValue_bound by exact Hname.
    eexists. split; [reflexivity|]. apply clamped_bound.
Qed.

Lemma C10_settings_invariant_witness :
  let w' := exec (handleSettingChange workingBrowser emptyEdit) initialWorld in
  let parsed := Str.parseInt (target_value emptyEdit) in
  boundedSettings (fields (settings (ui w'))) = true /\
  (parsed <> JS.PosInf ->
   validSettings (fields (settings (ui initialWorld))) = true ->
   validSettings (fields (settings (ui w'))) = true) /\
  (target_name emptyEdit = "maxWidth"%string \/
   target_name emptyEdit = "maxHeight"%string ->
   exists r : number,
     fields (settings (ui w')) !! target_name emptyEdit = Some (VNum r) /\
     ((r = JS.PosInf /\ parsed = JS.PosInf) \/
      (exists z : Z,
         1 <= z /\ r = JS.ofZ z /\
         (JS.gt parsed (JS.ofZ 0) = false -> z = 1) /\
         (JS.gt parsed (JS.ofZ 0) = true -> parsed = JS.ofZ z)))).
Proof.
  apply (C10_settings_invariant workingBrowser emptyEdit initialWorld).
  vm_compute. reflexivity.
Defined.

(** The claim C10 as stated fails: from the initial settings, an edit of
    the width with a 1 followed by 309 zeros stores +Infinity, which is
    not an integer. *)
Lemma C10_counterexample :
  let w' := exec (handleSettingChange workingBrowser longEdit) initialWorld in
  validSettings (fields (settings (ui initialWorld))) = true /\
  fields (settings (ui w')) !! "maxWidth"%string = Some (VNum JS.PosInf) /\
  JS.isInteger JS.PosInf = false /\
  validSettings (fields (settings (ui w'))) = false.
Proof. vm_compute. repeat split. Qed.

(** The inputs named by the claim, on the initial settings. *)
Example clamp_inputs :
  forall v : string,
    In v [""; "abc"; "0"; "-5"; "-0"; " "]%string ->
    fields (settings (ui (exec (handleSettingChange workingBrowser
                                  (mkChange "maxHeight" v "number"))
                               initialWorld))) !! "maxHeight"%string
    = Some (VNum (JS.ofZ 1)).
Proof.
  intros v Hv. simpl in Hv.
  repeat (destruct Hv as [<-|Hv]; [vm_compute; reflexivity|]). contradiction.
Qed.

End SettingsInput.

Section Debounce.

Variable b : Browser.

Lemma exec_bind {A B} (m : M A) (f : A -> M B) (w : World) :
  exec (m ≫= f) w = exec (f (eval m w)) (exec m w).
Proof. unfold exec, eval, mbind, M_bind. now destruct (m w). Qed.

Lemma elapse_idle (now : Z) (w : World) :
  (forall due v, timer w = Some (due, v) -> now < due) ->
  elapse now w = (tt, w).
Proof.
  intros Hdue. unfold elapse. run_handler.
  destruct (timer w) as [[due v]|] eqn:E; [|reflexivity].
  specialize (Hdue due v eq_refl).
  destruct (Z.leb_spec due now); [lia | reflexivity].
Qed.

Lemma exec_elapse_idle (now : Z) (w : World) :
  (forall due v, timer w = Some (due, v) -> now < due) ->
  exec (elapse now) w = w.
Proof. intros Hdue. unfold exec. now rewrite elapse_idle. Qed.

(** The mount timeout fires without a new object: no effect runs. *)
Example mount_timeout_is_silent :
  calls (exec (elapse 500) initialWorld) = [] /\
  timer (exec (elapse 500) initialWorld) = None /\
  debouncedValue (exec (elapse 500) initialWorld) = settings initialState.
Proof. repeat split. Qed.

(** One edit: a fresh settings object, a new timeout in place of the old
    one, and no run. *)
Lemma onChange_rearms (t : Z) (e : ChangeEvent) (w : World) :
  freshIds w = true ->
  let w' := exec (onChange b t e) w in
  timer w' = Some (t + delay, settings (ui w')) /\
  calls w' = calls w /\
  debouncedValue w' = debouncedValue w /\
  originalImageBase64 (ui w') = originalImageBase64 (ui w) /\
  fields (settings (ui w'))
  = <[target_name e := processedValue b e]> (fields (settings (ui w))) /\
  oid (settings (ui w')) = nextId w /\
  nextId w' = S (nextId w).
Proof.
  intros Hf. unfold freshIds in Hf. apply andb_true_iff in Hf.
  destruct Hf as [Hs Hd]. apply Nat.ltb_lt in Hs.
  unfold onChange, handleSettingChange, runEffects, debounceEffect.
  run_handler. cbn [oid].
  destruct (Nat.eqb_spec (nextId w) (oid (settings (ui w)))) as [E|_]; [lia|].
  run_handler.
  rewrite sameSource_refl, Nat.eqb_refl. cbn [andb]. run_handler.
  repeat split.
Qed.

Lemma lastTime_cons (te te' : Z * ChangeEvent) (rest : list (Z * ChangeEvent)) :
  lastTime (te :: te' :: rest) = lastTime (te' :: rest).
Proof. reflexivity. Qed.

Lemma editedFields_cons (te : Z * ChangeEvent) (rest : list (Z * ChangeEvent))
    (f : gmap string value) :
  editedFields b (te :: rest) f
  = editedFields b rest (<[target_name te.2 := processedValue b te.2]> f).
Proof. reflexivity. Qed.

(** A burst of edits, none of which lets a timeout come due: the edits
    accumulate in the settings, the last one holds the only timeout, and
    no run is made meanwhile. *)
Lemma play_burst (t1 : Z) (edits : list (Z * ChangeEvent)) :
  forall w : World,
    Forall (fun te => t1 <= te.1 < t1 + delay) edits ->
    freshIds w = true ->
    noTimeoutDueBy (firstTime edits) w = true ->
    let w' := exec (play b edits) w in
    calls w' = calls w /\
    debouncedValue w' = debouncedValue w /\
    originalImageBase64 (ui w') = originalImageBase64 (ui w) /\
    fields (settings (ui w'))
    = editedFields b edits (fields (settings (ui w))) /\
    freshIds w' = true /\
    (edits <> [] ->
     timer w' = Some (lastTime edits + delay, settings (ui w')) /\
     (nextId w <= oid (settings (ui w')))%nat).
Proof.
  induction edits as [|[t e] rest IH]; intros w Hin Hf Hdue.
  - cbn. split; [|split; [|split; [|split; [|split]]]]; try reflexivity;
      try assumption. intros Hnil. now elim Hnil.
  - inversion Hin as [|te l Ht Hrest]; subst. cbn [fst] in Ht.
    cbn [play]. rewrite !exec_bind.
    assert (E0 : exec (elapse t) w = w).
    { apply exec_elapse_idle. intros due v Hv.
      unfold noTimeoutDueBy in Hdue. rewrite Hv in Hdue.
      now apply Z.ltb_lt in Hdue. }
    rewrite E0.
    destruct (onChange_rearms t e w Hf)
      as (Ht1 & Hc1 & Hd1 & Ho1 & Hs1 & Hi1 & Hn1).
    set (w1 := exec (onChange b t e) w) in *.
    assert (Hf1 : freshIds w1 = true).
    { unfold freshIds in *. apply andb_true_iff in Hf. destruct Hf as [_ Hd].
      apply Nat.ltb_lt in Hd. apply andb_true_iff.
      split; apply Nat.ltb_lt; rewrite ?Hd1; lia. }
    destruct rest as [|[t' e'] rest'].
    + change (exec (play b []) w1) with w1. cbv zeta. split; [exact Hc1|]. split; [exact Hd1|]. split; [exact Ho1|].
      split; [exact Hs1|]. split; [exact Hf1|].
      intros _. split; [exact Ht1 | lia].
    + assert (Hdue1 : noTimeoutDueBy (firstTime ((t', e') :: rest')) w1 = true).
      { unfold noTimeoutDueBy. rewrite Ht1. cbn [firstTime].
        apply Z.ltb_lt. inversion Hrest as [|te l Ht' _]; subst.
        cbn [fst] in Ht'. lia. }
      specialize (IH w1 Hrest Hf1 Hdue1).
      cbv zeta in IH.
      destruct IH as (Hc & Hd & Ho & Hs & Hf' & Hlast).
      cbv zeta. rewrite Hc, Hd, Ho, Hs, Hc1, Hd1, Ho1, Hs1, editedFields_cons.
      repeat split; try assumption.
      * rewrite lastTime_cons. apply Hlast. discriminate.
      * destruct Hlast as [_ Hle]; [discriminate|]. lia.
Qed.

(** The timeout of the last edit fires: the debounced value becomes the
    settings object, and the effect makes one call with its values. *)
Lemma elapse_fires (now due : Z) (src : string) (w : World) :
  timer w = Some (due, settings (ui w)) ->
  due <= now ->
  oid (settings (ui w)) <> oid (debouncedValue w) ->
  originalImageBase64 (ui w) = Some src ->
  isEmpty src = false ->
  let w' := exec (elapse now) w in
  calls w'
  = calls w ++ [{| sourceBase64 := src;
                   currentQuality := getNumber (settings (ui w)) "quality";
                   currentMaxWidth := getNumber (settings (ui w)) "maxWidth";
                   currentMaxHeight := getNumber (settings (ui w)) "maxHeight" |}] /\
  debouncedValue w' = settings (ui w) /\
  settings (ui w') = settings (ui w) /\
  timer w' = None.
Proof.
  intros Ht Hdue Hne Ho Hsrc.
  unfold elapse. run_handler. rewrite Ht.
  destruct (Z.leb_spec due now); [|lia].
  unfold runEffects, reprocessEffect, processImage_enter. run_handler.
  rewrite Nat.eqb_refl, sameSource_refl. cbn [andb].
  destruct (Nat.eqb_spec (oid (settings (ui w))) (oid (debouncedValue w)))
    as [E|_]; [contradiction|].
  run_handler. rewrite Ho, Hsrc. run_handler. repeat split.
Qed.

Lemma last_cons (u d : Z) (l : list Z) : List.last (u :: l) d = List.last l u.
Proof.
  revert u d. induction l as [|x l IH]; intros u d; [reflexivity|].
  change (List.last (u :: x :: l) d) with (List.last (x :: l) d).
  now rewrite (IH x d), (IH x u).
Qed.

Lemma ascending_bounds (l : list Z) :
  forall t B : Z,
    ascending (t :: l) = true -> List.last l t < B ->
    Forall (fun u => t <= u < B) (t :: l).
Proof.
  induction l as [|u l IH]; intros t B Ha Hl.
  - cbn in Hl. apply List.Forall_cons; [lia | apply List.Forall_nil].
  - change (ascending (t :: u :: l)) with ((t <=? u) && ascending (u :: l)) in Ha.
    apply andb_true_iff in Ha. destruct Ha as [Htu Ha].
    apply Z.leb_le in Htu. rewrite last_cons in Hl.
    specialize (IH u B Ha Hl).
    assert (Hu : u < B) by (inversion IH; lia).
    apply List.Forall_cons; [lia|].
    eapply List.Forall_impl; [|exact IH]. cbn. intros; lia.
Qed.

Lemma arriveWithin_bounds (window : Z) (edits : list (Z * ChangeEvent)) :
  arriveWithin window edits = true ->
  edits <> [] /\
  exists t1 : Z, Forall (fun te => t1 <= te.1 < t1 + window) edits.
Proof.
  unfold arriveWithin. destruct edits as [|[t1 e1] rest]; [discriminate|].
  cbn [map fst]. intros H. apply andb_true_iff in H. destruct H as [Ha Hl].
  apply Z.ltb_lt in Hl. split; [discriminate|]. exists t1.
  pose proof (ascending_bounds (map fst rest) t1 (t1 + window) Ha Hl) as HF.
  change (t1 :: map fst rest) with (map fst ((t1, e1) :: rest)) in HF.
  apply List.Forall_map in HF. exact HF.
Qed.

(** C9: while a source image is loaded, a sequence of settings edits that
    all arrive within the debounce window of 500 ms (no earlier timeout
    coming due before the first of them) triggers exactly one run of
    [processImage], with the values of the settings after the last edit.
    While less than 500 ms have passed since the last edit the debounced
    settings are the old ones and no run is made; once 500 ms have passed
    the debounced settings are the final object, one call has been added,
    and no later moment adds another. *)
Theorem C9_debounced_burst (edits : list (Z * ChangeEvent)) (src : string)
    (w0 : World) :
  noTimeoutDueBy (firstTime edits) w0 = true ->
  originalImageBase64 (ui w0) = Some src ->
  isEmpty src = false ->
  freshIds w0 = true ->
  arriveWithin delay edits = true ->
  let w := exec (play b edits) w0 in
  let final := settings (ui w) in
  fields final = editedFields b edits (fields (settings (ui w0))) /\
  calls w = calls w0 /\
  debouncedValue w = debouncedValue w0 /\
  (forall now : Z, now < lastTime edits + delay -> exec (elapse now) w = w) /\
  (forall now : Z, lastTime edits + delay <= now ->
     let w' := exec (elapse now) w in
     calls w'
     = calls w0 ++ [{| sourceBase64 := src;
                       currentQuality := getNumber final "quality";
                       currentMaxWidth := getNumber final "maxWidth";
                       currentMaxHeight := getNumber final "maxHeight" |}] /\
     debouncedValue w' = final /\
     settings (ui w') = final /\
     (forall later : Z, exec (elapse later) w' = w')).
Proof.
  intros Ht Ho Hsrc Hf Hin.
  destruct (arriveWithin_bounds delay edits Hin) as (Hne & t1 & HF).
  destruct (play_burst t1 edits w0 HF Hf Ht)
    as (Hc & Hd & Hsrc' & Hs & Hf' & Hlast).
  destruct (Hlast Hne) as [Htimer Hoid].
  cbv zeta. set (w := exec (play b edits) w0) in *.
  assert (Hnew : oid (settings (ui w)) <> oid (debouncedValue w)).
  { rewrite Hd. unfold freshIds in Hf. apply andb_true_iff in Hf.
    destruct Hf as [_ Hlt]. apply Nat.ltb_lt in Hlt. lia. }
  split; [exact Hs|]. split; [exact Hc|]. split; [exact Hd|]. split.
  - intros now Hnow. apply exec_elapse_idle.
    intros due v Hv. rewrite Htimer in Hv. injection Hv as <- _. exact Hnow.
  - intros now Hnow.
    assert (Ho' : originalImageBase64 (ui w) = Some src)
      by (rewrite Hsrc'; exact Ho).
    destruct (elapse_fires now _ src w Htimer Hnow Hnew Ho' Hsrc)
      as (Hc' & Hd' & Hs' & Ht').
    rewrite Hc' , Hc. repeat split; try assumption.
    intros later. apply exec_elapse_idle.
    intros due v Hv. rewrite Ht' in Hv. discriminate.
Qed.

End Debounce.

Lemma C9_debounced_burst_witness :
  let src := "data:image/jpeg;base64,/9j/4AAQ"%string in
  let w := exec (play workingBrowser typing640) processedWorld in
  let final := settings (ui w) in
  fields final
  = editedFields workingBrowser typing640 (fields (settings (ui processedWorld))) /\
  calls w = calls processedWorld /\
  debouncedValue w = debouncedValue processedWorld /\
  (forall now : Z, now < lastTime typing640 + delay -> exec (elapse now) w = w) /\
  (forall now : Z, lastTime typing640 + delay <= now ->
     let w' := exec (elapse now) w in
     calls w'
     = calls processedWorld
       ++ [{| sourceBase64 := src;
              currentQuality := getNumber final "quality";
              currentMaxWidth := getNumber final "maxWidth";
              currentMaxHeight := getNumber final "maxHeight" |}] /\
     debouncedValue w' = final /\
     settings (ui w') = final /\
     (forall later : Z, exec (elapse later) w' = w')).
Proof.
  apply (C9_debounced_burst workingBrowser typing640
           "data:image/jpeg;base64,/9j/4AAQ" processedWorld); reflexivity.
Defined.

(** The three edits of [typing640], seen 500 ms after the last one: one
    call, with the width 640 and the other two values as they were. *)
Example typing640_one_run :
  calls (exec (elapse 1800) (exec (play workingBrowser typing640) processedWorld))
  = [{| sourceBase64 := "data:image/jpeg;base64,/9j/4AAQ";
        currentQuality := JS.toNumber (8 # 10);
        currentMaxWidth := JS.ofZ 640;
        currentMaxHeight := JS.ofZ 600 |}].
Proof. vm_compute. reflexivity. Qed.

(** Edits that are further apart than the delay are not one burst: each
    gets its own run. *)
Example slowEdits_two_runs :
  arriveWithin delay slowEdits = false /\
  map currentMaxWidth
      (calls (exec (elapse 2100)
                (exec (play workingBrowser slowEdits) processedWorld)))
  = [JS.ofZ 640; JS.ofZ 320].
Proof. vm_compute. split; reflexivity. Qed.

(** With no source loaded there is nothing to process again: the guard
    of the effect (line 140) makes no call. *)
Example no_source_no_run :
  freshIds initialWorld = true /\
  calls (exec (elapse 1800) (exec (play workingBrowser typing640) initialWorld))
  = [].
Proof. vm_compute. split; reflexivity. Qed.

(** * Further properties of the code *)

Section Shrinking.

Import JS.

(** The relative error of rounding in the normal range, from below. *)
Lemma roundPositive_error_below (x : Q) :
  (0 < x)%Q -> -1074 <= ilog2 x - 52 ->
  (x * (1 - pow2 (-53)) <= roundPositive x)%Q.
Proof.
  intros Hx Hn. destruct (ilog2_spec x Hx) as [Hlo _].
  assert (Eq : quantum x = ilog2 x - 52) by (unfold quantum; lia).
  unfold roundPositive. rewrite Eq.
  set (e := ilog2 x - 52) in *.
  pose proof (pow2_pos e) as Hp.
  destruct (roundHalfEven_near (x / pow2 e)) as [Hdn _].
  assert (H1 : ((x / pow2 e - (1 # 2)) * pow2 e
                <= inject_Z (roundHalfEven (x / pow2 e)) * pow2 e)%Q)
    by (apply Qmult_le_r; assumption).
  assert (H2 : ((x / pow2 e - (1 # 2)) * pow2 e == x - (1 # 2) * pow2 e)%Q)
    by (field; lra).
  assert (H3 : (pow2 (ilog2 x) == pow2 53 * ((1 # 2) * pow2 e))%Q).
  { replace (ilog2 x) with (53 + (e + -1)) by (unfold e; lia).
    rewrite !pow2_add. change (pow2 (-1)) with (1 # 2)%Q. ring. }
  assert (H4 : (pow2 53 * pow2 (-53) == 1)%Q).
  { rewrite <- pow2_add. reflexivity. }
  pose proof (pow2_pos 53) as Hp53. pose proof (pow2_pos (-53)) as Hpm53.
  assert (H5 : ((1 # 2) * pow2 e == pow2 (ilog2 x) * pow2 (-53))%Q).
  { rewrite H3.
    transitivity ((pow2 53 * pow2 (-53)) * ((1 # 2) * pow2 e))%Q; [|ring].
    rewrite H4. ring. }
  rewrite H2, H5 in H1.
  apply Qle_trans with (x - pow2 (ilog2 x) * pow2 (-53))%Q; [|exact H1].
  assert (H6 : (pow2 (ilog2 x) * pow2 (-53) <= x * pow2 (-53))%Q)
    by (apply Qmult_le_r; assumption).
  lra.
Qed.

Lemma roundPositive_nonneg (x : Q) : (0 < x)%Q -> (0 <= roundPositive x)%Q.
Proof.
  intros Hx. unfold roundPositive. pose proof (pow2_pos (quantum x)) as Hp.
  apply Qmult_le_0_compat; [|lra].
  change 0%Q with (inject_Z 0). rewrite <- Zle_Qle.
  destruct (roundHalfEven_floor (x / pow2 (quantum x))) as [Hf _].
  assert (0 <= Qfloor (x / pow2 (quantum x))).
  { rewrite <- (Qfloor_Z 0). apply Qfloor_resp_le.
    change (inject_Z 0) with 0%Q. apply Qlt_le_weak.
    apply Qmult_lt_0_compat; [exact Hx | now apply Qinv_lt_0_compat]. }
  lia.
Qed.

Lemma round64_nonpos (x : Q) : (x <= 0)%Q -> (round64 x <= 0)%Q.
Proof.
  intros Hx. unfold round64. rewrite Qred_correct.
  destruct (Qcompare_spec x 0) as [E|E|E]; [lra| |lra].
  pose proof (roundPositive_nonneg (- x)). lra.
Qed.

(** Rounding is monotone below a positive value, whatever the sign of the
    smaller one. *)
Lemma round64_le (x y : Q) :
  (0 < y)%Q -> (x <= y)%Q -> (round64 x <= round64 y)%Q.
Proof.
  intros Hy Hxy. destruct (Qlt_le_dec 0 x) as [Hx|Hx].
  - now apply round64_mono.
  - apply Qle_trans with 0%Q; [now apply round64_nonpos|].
    rewrite (round64_pos y Hy). now apply roundPositive_nonneg.
Qed.

Lemma atMost_le (t : number) (c d : Q) : (c <= d)%Q -> atMost t c -> atMost t d.
Proof. destruct t; cbn; [tauto | tauto | tauto | intros; lra]. Qed.

(** A quotient or product below a positive value that does not overflow
    is no [+Infinity] and no NaN. *)
Lemma toNumber_atMost (x y : Q) (hi : Z) :
  (x <= y)%Q -> (0 < y)%Q -> (y <= pow2 hi)%Q -> -1074 <= hi < 1024 ->
  atMost (toNumber x) (round64 y).
Proof.
  intros Hxy Hy Hhi [H0 Hlt].
  pose proof (round64_le x y Hy Hxy) as H1.
  pose proof (round64_mono y (pow2 hi) Hy Hhi) as H2.
  rewrite round64_pow2 in H2 by exact H0.
  pose proof (pow2_lt hi 1024 Hlt) as H3.
  unfold toNumber. rewrite Qle_bool_false by lra.
  destruct (Qle_bool (round64 x) (- pow2 1024)); cbn; [exact I | exact H1].
Qed.

(** The aspect ratio of an image: a finite positive value, within the
    rounding error of the exact quotient. *)
Lemma aspect_bounds (W H : Z) :
  isImageSize W = true -> isImageSize H = true ->
  let a := round64 (inject_Z W / inject_Z H) in
  div (ofZ W) (ofZ H) = Fin a /\
  (pow2 (-32) <= a <= pow2 32)%Q /\
  (inject_Z W * (1 - pow2 (-53)) <= a * inject_Z H)%Q /\
  (a * inject_Z H <= inject_Z W * (1 + pow2 (-53)))%Q.
Proof.
  intros HW HH a.
  apply imageSize_range in HW. apply imageSize_range in HH.
  pose proof (div_range _ _ _ _ _ _ HW HH) as Ha0.
  pose proof (toNumber_range _ (0 - 32) (32 - 0) ltac:(lia) ltac:(lia) Ha0) as Ea.
  pose proof (round64_range _ (0 - 32) (32 - 0) ltac:(lia) Ha0) as Ha.
  pose proof (pow2_pos (0 - 32)) as Hp.
  change (pow2 0) with 1%Q in HW, HH.
  set (Wq := inject_Z W) in *. set (Hq := inject_Z H) in *.
  fold a in Ha.
  assert (Ha0pos : (0 < Wq / Hq)%Q) by lra.
  assert (Hnorm : -1074 <= ilog2 (Wq / Hq) - 52).
  { pose proof (ilog2_mono (pow2 (0 - 32)) (Wq / Hq) Hp (proj1 Ha0)) as Hi.
    rewrite ilog2_pow2 in Hi. lia. }
  pose proof (roundPositive_error (Wq / Hq) Ha0pos Hnorm) as Hup.
  pose proof (roundPositive_error_below (Wq / Hq) Ha0pos Hnorm) as Hdn.
  rewrite <- round64_pos in Hup, Hdn by exact Ha0pos. fold a in Hup, Hdn.
  assert (E : (Wq / Hq * Hq == Wq)%Q) by (field; lra).
  split; [|split; [exact Ha|split]].
  - change (div (Fin Wq) (Fin Hq) = Fin a).
    rewrite (div_Fin Wq Hq) by lra. exact Ea.
  - apply Qle_trans with (Wq / Hq * (1 - pow2 (-53)) * Hq)%Q.
    + apply Qle_lteq. right. field. lra.
    + apply Qmult_le_r; [lra | exact Hdn].
  - apply Qle_trans with (Wq / Hq * (1 + pow2 (-53)) * Hq)%Q.
    + apply Qmult_le_r; [lra | exact Hup].
    + apply Qle_lteq. right. field. lra.
Qed.

Lemma pow2_m53 : (pow2 (-53) == 1 # 9007199254740992)%Q.
Proof. reflexivity. Qed.

Lemma pow2_m50 : (pow2 (-50) == 1 # 1125899906842624)%Q.
Proof. reflexivity. Qed.

Lemma pow2_32 : (pow2 32 == 4294967296)%Q.
Proof. reflexivity. Qed.

(** The image's width divided by the aspect ratio is the image's height,
    up to the rounding of the two divisions. *)
Lemma quotient_below (Wq Hq a : Q) :
  (1 <= Wq <= pow2 32)%Q -> (1 <= Hq <= pow2 32)%Q ->
  (pow2 (-32) <= a <= pow2 32)%Q ->
  (Wq * (1 - pow2 (-53)) <= a * Hq)%Q ->
  (0 < Wq / a <= pow2 (32 - -32))%Q /\
  (round64 (Wq / a) <= Hq * (1 + pow2 (-50)))%Q.
Proof.
  intros HW HH Ha P2.
  pose proof (pow2_pos (-32)) as Hp.
  assert (Hapos : (0 < a)%Q) by lra.
  assert (HWr : (pow2 0 <= Wq <= pow2 32)%Q) by (change (pow2 0) with 1%Q; lra).
  pose proof (div_range _ _ _ _ _ _ HWr Ha) as HT.
  set (T := (Wq / a)%Q) in *.
  assert (HTpos : (0 < T)%Q) by (pose proof (pow2_pos (0 - 32)); lra).
  split; [split; [exact HTpos | exact (proj2 HT)]|].
  assert (Hnorm : -1074 <= ilog2 T - 52).
  { pose proof (ilog2_mono (pow2 (0 - 32)) T (pow2_pos _) (proj1 HT)) as Hi.
    rewrite ilog2_pow2 in Hi. lia. }
  pose proof (roundPositive_error T HTpos Hnorm) as Hup.
  rewrite <- round64_pos in Hup by exact HTpos.
  assert (HT1 : (T * (1 - pow2 (-53)) <= Hq)%Q).
  { assert (E : (T * (1 - pow2 (-53)) == Wq * (1 - pow2 (-53)) / a)%Q)
      by (unfold T; field; lra).
    rewrite E. apply Qle_shift_div_r; [exact Hapos|].
    rewrite (Qmult_comm Hq a). exact P2. }
  rewrite pow2_m53 in Hup, HT1. rewrite pow2_m50. rewrite pow2_32 in HH.
  lra.
Qed.

(** The height the width clamp computes is at most the height of the
    image, up to the rounding of the two divisions. *)
Lemma height_below (Wq Hq a q : Q) :
  (1 <= Wq <= pow2 32)%Q -> (1 <= Hq <= pow2 32)%Q ->
  (pow2 (-32) <= a <= pow2 32)%Q ->
  (Wq * (1 - pow2 (-53)) <= a * Hq)%Q ->
  (q <= Wq)%Q ->
  atMost (toNumber (q / a)) (Hq * (1 + pow2 (-50))).
Proof.
  intros HW HH Ha P2 Hq'.
  pose proof (pow2_pos (-32)) as Hp.
  assert (Hapos : (0 < a)%Q) by lra.
  destruct (quotient_below Wq Hq a HW HH Ha P2) as [[HTpos HThi] HT].
  assert (Hle : (q / a <= Wq / a)%Q).
  { unfold Qdiv. apply Qmult_le_r; [now apply Qinv_lt_0_compat | exact Hq']. }
  apply atMost_le with (round64 (Wq / a)); [exact HT|].
  apply (toNumber_atMost _ _ (32 - -32));
    [exact Hle | exact HTpos | exact HThi | lia].
Qed.

(** The width the height clamp computes is at most the width of the
    image, up to a quarter of a pixel. *)
Lemma width_below (W : Z) (Hq a m r : Q) :
  isImageSize W = true -> (1 <= Hq <= pow2 32)%Q ->
  (pow2 (-32) <= a <= pow2 32)%Q ->
  (a * Hq <= inject_Z W * (1 + pow2 (-53)))%Q ->
  (m <= r)%Q -> (r <= Hq * (1 + pow2 (-50)))%Q ->
  atMost (toNumber (m * a)) (inject_Z W + (1 # 4)).
Proof.
  intros HW HH Ha P1 Hmr Hr.
  assert (HW53 : 0 < 4 * W + 1 < 2 ^ 53).
  { unfold isImageSize in HW. apply andb_true_iff in HW.
    destruct HW as [H1 H2]. apply Z.ltb_lt in H1. apply Z.ltb_lt in H2. lia. }
  apply imageSize_range in HW. change (pow2 0) with 1%Q in HW.
  set (Wq := inject_Z W) in *.
  pose proof (pow2_pos (-32)) as Hp.
  assert (Hapos : (0 < a)%Q) by lra.
  assert (Ex : (round64 (Wq + (1 # 4)) == Wq + (1 # 4))%Q).
  { rewrite round64_pos by lra.
    apply (roundPositive_exact _ (4 * W + 1) (-2)); [exact HW53 | lia|].
    rewrite inject_Z_plus, inject_Z_mult. fold Wq.
    change (pow2 (-2)) with (1 # 4)%Q. change (inject_Z 4) with 4%Q.
    change (inject_Z 1) with 1%Q. ring. }
  apply atMost_le with (round64 (Wq + (1 # 4)));
    [rewrite Ex; apply Qle_refl|].
  apply (toNumber_atMost _ _ 33); [|lra| |lia].
  - apply Qle_trans with (r * a)%Q; [apply Qmult_le_r; assumption|].
    apply Qle_trans with (Hq * (1 + pow2 (-50)) * a)%Q;
      [apply Qmult_le_r; assumption|].
    assert (E : (Hq * (1 + pow2 (-50)) * a == (1 + pow2 (-50)) * (a * Hq))%Q)
      by ring.
    rewrite E.
    apply Qle_trans with ((1 + pow2 (-50)) * (Wq * (1 + pow2 (-53))))%Q.
    + apply Qmult_le_l; [|exact P1]. rewrite pow2_m50. lra.
    + rewrite pow2_m50, pow2_m53. rewrite pow2_32 in HW. lra.
  - rewrite pow2_32 in HW.
    assert (E33 : (pow2 33 == 8589934592)%Q) by reflexivity.
    rewrite E33. lra.
Qed.

(** [Math.max(1, Math.round(t))] for a target of at most n + 1/4. *)
Lemma final_atMost (t : number) (n : Z) :
  1 <= n -> atMost t (inject_Z n + (1 # 4)) ->
  exists z : Z, mathMax (ofZ 1) (mathRound t) = ofZ z /\ 1 <= z <= n.
Proof.
  intros Hn Ht. destruct t as [| | |r]; cbn [atMost] in Ht; try contradiction.
  - exists 1. split; [reflexivity | lia].
  - exists (Z.max 1 (roundQ r)). cbn [mathRound]. rewrite mathMax_ofZ.
    split; [reflexivity|].
    assert (roundQ r <= n); [|lia].
    unfold roundQ.
    pose proof (Qfloor_le (r + (1 # 2))) as Hlo.
    assert (Hlt : (inject_Z (Qfloor (r + (1 # 2))) < inject_Z (n + 1))%Q).
    { rewrite inject_Z_plus. change (inject_Z 1) with 1%Q. lra. }
    rewrite <- Zlt_Qlt in Hlt. lia.
Qed.

Lemma clamp_width (W H : Z) (a : Q) (maxW : number) :
  isImageSize W = true -> isImageSize H = true ->
  (pow2 (-32) <= a <= pow2 32)%Q ->
  (inject_Z W * (1 - pow2 (-53)) <= a * inject_Z H)%Q ->
  let p := if gt (ofZ W) maxW
           then (maxW, div maxW (Fin a)) else (ofZ W, ofZ H) in
  atMost p.1 (inject_Z W) /\
  atMost p.2 (inject_Z H * (1 + pow2 (-50))).
Proof.
  intros HW HH Ha P2.
  apply imageSize_range in HW. apply imageSize_range in HH.
  change (pow2 0) with 1%Q in HW, HH.
  pose proof (pow2_pos (-32)) as Hp.
  assert (Hself : atMost (ofZ H) (inject_Z H * (1 + pow2 (-50)))).
  { cbn. rewrite pow2_m50. lra. }
  destruct maxW as [| | |q]; cbn [gt ofZ fst snd atMost].
  - split; [apply Qle_refl | exact Hself].
  - split; [apply Qle_refl | exact Hself].
  - cbn [div]. rewrite Qle_bool_true by lra. split; exact I.
  - change (negb (Qle_bool (inject_Z W) q)) with (gt (Fin (inject_Z W)) (Fin q)).
    rewrite gt_Fin. destruct (Qlt_le_dec q (inject_Z W)) as [Hlt|Hle];
      cbn [fst snd atMost].
    + split; [lra|]. rewrite div_Fin by lra.
      apply (height_below (inject_Z W)); try assumption. lra.
    + split; [apply Qle_refl | exact Hself].
Qed.

Lemma clamp_height (W H : Z) (a : Q) (tw th maxH : number) :
  isImageSize W = true -> isImageSize H = true ->
  (pow2 (-32) <= a <= pow2 32)%Q ->
  (a * inject_Z H <= inject_Z W * (1 + pow2 (-53)))%Q ->
  atMost tw (inject_Z W) ->
  atMost th (inject_Z H * (1 + pow2 (-50))) ->
  let p := if gt th maxH then (mul maxH (Fin a), maxH) else (tw, th) in
  atMost p.1 (inject_Z W + (1 # 4)) /\
  atMost p.2 (inject_Z H * (1 + pow2 (-50))).
Proof.
  intros HW HH Ha P1 Htw Hth.
  pose proof (pow2_pos (-32)) as Hp.
  assert (Hkeep : atMost tw (inject_Z W + (1 # 4)))
    by (apply atMost_le with (inject_Z W); [lra | exact Htw]).
  destruct th as [| | |r]; cbn [atMost] in Hth; try contradiction.
  - destruct maxH; cbn [gt fst snd]; split; try exact Hkeep; exact I.
  - destruct maxH as [| | |m]; cbn [gt fst snd].
    + split; [exact Hkeep | exact Hth].
    + split; [exact Hkeep | exact Hth].
    + cbn [mul]. rewrite Qeq_bool_false, Qle_bool_true by lra.
      split; exact I.
    + change (negb (Qle_bool r m)) with (gt (Fin r) (Fin m)).
      rewrite gt_Fin. destruct (Qlt_le_dec m r) as [Hlt|Hle]; cbn [fst snd].
      * split; [|cbn [atMost]; lra]. cbn [mul].
        apply imageSize_range in HH. change (pow2 0) with 1%Q in HH.
        apply (width_below W (inject_Z H) a m r); try assumption; lra.
      * split; [exact Hkeep | exact Hth].
Qed.

(** Whatever the two bounds are, the result is a pair of integers of at
    least 1 and at most the size of the image. *)
Lemma finalDimensions_shrinks (W H : Z) (maxW maxH : number) :
  isImageSize W = true -> isImageSize H = true ->
  exists w h : Z,
    finalDimensions (ofZ W) (ofZ H) maxW maxH = mkDims (ofZ w) (ofZ h) /\
    1 <= w <= W /\ 1 <= h <= H.
Proof.
  intros HW HH.
  destruct (aspect_bounds W H HW HH) as (Ea & Ha & P2 & P1).
  set (a := round64 (inject_Z W / inject_Z H)) in *.
  pose proof (clamp_width W H a maxW HW HH Ha P2) as H1.
  unfold finalDimensions. rewrite Ea.
  destruct (if gt (ofZ W) maxW then _ else _) as [tw1 th1].
  cbn [fst snd] in H1. destruct H1 as [Hw1 Hh1].
  pose proof (clamp_height W H a tw1 th1 maxH HW HH Ha P1 Hw1 Hh1) as H2.
  destruct (if gt th1 maxH then _ else _) as [tw2 th2].
  cbn [fst snd] in H2. destruct H2 as [Hw2 Hh2].
  assert (HW1 : 1 <= W).
  { unfold isImageSize in HW. apply andb_true_iff in HW.
    destruct HW as [HW _]. apply Z.ltb_lt in HW. lia. }
  assert (HH1 : 1 <= H).
  { unfold isImageSize in HH. apply andb_true_iff in HH.
    destruct HH as [HH _]. apply Z.ltb_lt in HH. lia. }
  assert (Hh3 : atMost th2 (inject_Z H + (1 # 4))).
  { apply atMost_le with (inject_Z H * (1 + pow2 (-50)))%Q; [|exact Hh2].
    apply imageSize_range in HH. rewrite pow2_32 in HH. rewrite pow2_m50. lra. }
  destruct (final_atMost tw2 W HW1 Hw2) as (w & Ew & Hw).
  destruct (final_atMost th2 H HH1 Hh3) as (h & Eh & Hh).
  exists w, h. rewrite Ew, Eh. repeat split; lia.
Qed.

Lemma imageSize_pos (n : Z) : isImageSize n = true -> 0 < n < 2 ^ 32.
Proof.
  unfold isImageSize. intros H. apply andb_true_iff in H.
  destruct H as [H1 H2]. apply Z.ltb_lt in H1. apply Z.ltb_lt in H2. lia.
Qed.

Lemma imageSize_between (n m : Z) :
  1 <= n <= m -> isImageSize m = true -> isImageSize n = true.
Proof.
  intros Hn Hm. apply imageSize_pos in Hm. unfold isImageSize.
  apply andb_true_iff. split; apply Z.ltb_lt; lia.
Qed.

Lemma mkDims_ofZ (w h w' h' : Z) :
  mkDims (ofZ w) (ofZ h) = mkDims (ofZ w') (ofZ h') -> w = w' /\ h = h'.
Proof. unfold ofZ, inject_Z. intros E. injection E as -> ->. now split. Qed.

(** X1: for an image of natural size W x H and any two bounds whatsoever
    (NaN, an infinity, zero, a negative or a fractional value included)
    the computation returns a pair of integers with 1 <= w <= W and
    1 <= h <= H: it never enlarges the image and never yields 0, NaN or
    an infinity.  When neither comparison [width > maxWidth] and
    [height > maxHeight] holds, the pair is (W, H). *)
Theorem finalDimensions_any_bounds (W H : Z) (maxW maxH : number) :
  isImageSize W = true -> isImageSize H = true ->
  exists w h : Z,
    finalDimensions (ofZ W) (ofZ H) maxW maxH = mkDims (ofZ w) (ofZ h) /\
    1 <= w <= W /\ 1 <= h <= H /\
    (gt (ofZ W) maxW = false -> gt (ofZ H) maxH = false -> w = W /\ h = H).
Proof.
  intros HW HH.
  destruct (finalDimensions_shrinks W H maxW maxH HW HH) as (w & h & E & Hw & Hh).
  exists w, h. split; [exact E|]. split; [exact Hw|]. split; [exact Hh|].
  intros G1 G2. unfold finalDimensions in E. rewrite G1, G2 in E.
  cbn [ofZ mathRound] in E. fold (ofZ 1) in E.
  rewrite !roundQ_inject, !mathMax_ofZ in E.
  apply mkDims_ofZ in E. lia.
Qed.

Lemma finalDimensions_any_bounds_witness :
  exists w h : Z,
    finalDimensions (ofZ 4000) (ofZ 3000) NaN (Fin (-5 # 2))
    = mkDims (ofZ w) (ofZ h) /\
    1 <= w <= 4000 /\ 1 <= h <= 3000 /\
    (gt (ofZ 4000) NaN = false -> gt (ofZ 3000) (Fin (-5 # 2)) = false ->
     w = 4000 /\ h = 3000).
Proof.
  apply (finalDimensions_any_bounds 4000 3000 NaN (Fin (-5 # 2))); reflexivity.
Defined.

(** Below an integer bound under the width, the height the width clamp
    computes does not exceed the height of the image. *)
Lemma quotient_int_below (W H maxW : Z) :
  isImageSize W = true -> isImageSize H = true ->
  maxW < W ->
  (round64 (inject_Z maxW / round64 (inject_Z W / inject_Z H)) <= inject_Z H)%Q.
Proof.
  intros HW HH Hlt.
  destruct (aspect_bounds W H HW HH) as (_ & Ha & P2 & _).
  apply imageSize_pos in HH as HH0.
  apply imageSize_range in HW. apply imageSize_range in HH.
  change (pow2 0) with 1%Q in HW, HH.
  set (a := round64 (inject_Z W / inject_Z H)) in *.
  pose proof (pow2_pos (-32)) as Hp.
  assert (Hapos : (0 < a)%Q) by lra.
  assert (Hint : (inject_Z maxW <= inject_Z W - 1)%Q).
  { apply below_integer. now rewrite <- Zlt_Qlt. }
  assert (Hle : (inject_Z maxW / a <= inject_Z H)%Q).
  { apply Qle_shift_div_r; [exact Hapos|].
    rewrite (Qmult_comm (inject_Z H) a).
    rewrite pow2_m53 in P2. rewrite pow2_32 in HW. lra. }
  apply Qle_trans with (round64 (inject_Z H)).
  - apply round64_le; [lra | exact Hle].
  - apply Qle_lteq. right. apply round64_Z. lia.
Qed.

(** X2: with integer bounds of at least 1 the result is the image's own
    size, or its width is exactly maxWidth, or its height is exactly
    maxHeight.  When only the width exceeds its bound the width is
    maxWidth; when only the height exceeds its bound the height is
    maxHeight. *)
Theorem resized_image_touches_a_bound (W H maxW maxH : Z) :
  isImageSize W = true -> isImageSize H = true ->
  1 <= maxW -> 1 <= maxH ->
  exists w h : Z,
    finalDimensions (ofZ W) (ofZ H) (ofZ maxW) (ofZ maxH)
    = mkDims (ofZ w) (ofZ h) /\
    ((w = W /\ h = H) \/ w = maxW \/ h = maxH) /\
    (maxW < W -> H <= maxH -> w = maxW) /\
    (W <= maxW -> maxH < H -> h = maxH).
Proof.
  intros HW HH HmW HmH.
  assert (HmWq : (1 <= inject_Z maxW)%Q)
    by (change 1%Q with (inject_Z 1); now rewrite <- Zle_Qle).
  assert (HmHq : (1 <= inject_Z maxH)%Q)
    by (change 1%Q with (inject_Z 1); now rewrite <- Zle_Qle).
  apply imageSize_pos in HW as HW0. apply imageSize_pos in HH as HH0.
  eexists _, _. split.
  - unfold ofZ at 3 4. apply finalDimensions_Fin; assumption.
  - unfold targetSize.
    destruct (Qlt_le_dec (inject_Z maxW) (inject_Z W)) as [Hw|Hw];
      [rewrite <- Zlt_Qlt in Hw | rewrite <- Zle_Qle in Hw].
    + destruct (Qlt_le_dec (inject_Z maxH) _) as [Hh|Hh]; cbn [fst snd];
        rewrite !roundQ_inject.
      * split; [right; right; lia|]. split; [|intros; lia].
        intros _ Hle. exfalso.
        rewrite Zle_Qle in Hle.
        pose proof (quotient_int_below W H maxW HW HH Hw) as Hq.
        lra.
      * split; [right; left; lia|]. split; intros; lia.
    + destruct (Qlt_le_dec (inject_Z maxH) (inject_Z H)) as [Hh|Hh];
        [rewrite <- Zlt_Qlt in Hh | rewrite <- Zle_Qle in Hh]; cbn [fst snd];
        rewrite !roundQ_inject.
      * split; [right; right; lia|]. split; intros; lia.
      * split; [left; lia|]. split; intros; lia.
Qed.

Lemma resized_image_touches_a_bound_witness :
  exists w h : Z,
    finalDimensions (ofZ 4000) (ofZ 3000) (ofZ 800) (ofZ 100)
    = mkDims (ofZ w) (ofZ h) /\
    ((w = 4000 /\ h = 3000) \/ w = 800 \/ h = 100) /\
    (800 < 4000 -> 3000 <= 100 -> w = 800) /\
    (4000 <= 800 -> 100 < 3000 -> h = 100).
Proof.
  apply (resized_image_touches_a_bound 4000 3000 800 100);
    [reflexivity | reflexivity | lia | lia].
Defined.

(** X3: the computation is idempotent: with integer bounds of at least
    1 that are binary64 values, computing the dimensions again from its
    own result under the same bounds returns that result. *)
Theorem finalDimensions_idempotent (W H maxW maxH : Z) :
  isImageSize W = true -> isImageSize H = true ->
  1 <= maxW -> 1 <= maxH ->
  isDouble (inject_Z maxW) = true -> isDouble (inject_Z maxH) = true ->
  let d := finalDimensions (ofZ W) (ofZ H) (ofZ maxW) (ofZ maxH) in
  finalDimensions (width d) (height d) (ofZ maxW) (ofZ maxH) = d.
Proof.
  intros HW HH HmW HmH HdW HdH.
  assert (HmWq : (1 <= inject_Z maxW)%Q)
    by (change 1%Q with (inject_Z 1); now rewrite <- Zle_Qle).
  assert (HmHq : (1 <= inject_Z maxH)%Q)
    by (change 1%Q with (inject_Z 1); now rewrite <- Zle_Qle).
  destruct (finalDimensions_shrinks W H (ofZ maxW) (ofZ maxH) HW HH)
    as (w & h & E & Hw & Hh).
  pose proof (finalDimensions_Fin W H _ _ HW HH HmWq HmHq) as E'.
  fold (ofZ maxW) (ofZ maxH) in E'. rewrite E in E'.
  apply mkDims_ofZ in E'. destruct E' as [Ew Eh].
  destruct (targetSize_bounded W H maxW maxH HW HH HmW HmH HdW HdH) as [Bw Bh].
  apply roundQ_le in Bw. apply roundQ_le in Bh.
  assert (Hwm : w <= maxW) by lia. assert (Hhm : h <= maxH) by lia.
  cbv zeta. rewrite E. cbn [width height].
  pose proof (imageSize_between w W Hw HW) as Iw.
  pose proof (imageSize_between h H Hh HH) as Ih.
  unfold ofZ at 3 4. rewrite (finalDimensions_Fin w h _ _ Iw Ih HmWq HmHq).
  rewrite targetSize_unchanged by (rewrite <- Zle_Qle; assumption).
  cbn [fst snd]. rewrite !roundQ_inject.
  f_equal; f_equal; lia.
Qed.

Lemma finalDimensions_idempotent_witness :
  let d := finalDimensions (ofZ 4000) (ofZ 3000) (ofZ 800) (ofZ 100) in
  finalDimensions (width d) (height d) (ofZ 800) (ofZ 100) = d.
Proof.
  apply (finalDimensions_idempotent 4000 3000 800 100);
    [reflexivity | reflexivity | lia | lia | vm_compute; reflexivity
    | vm_compute; reflexivity].
Defined.

End Shrinking.

Section AspectRatio.

Import JS.

(** The relative error of rounding a value of the normal range. *)
Lemma round64_two_sided (x : Q) (lo : Z) :
  -1022 <= lo -> (pow2 lo <= x)%Q ->
  (x * (1 - pow2 (-53)) <= round64 x <= x * (1 + pow2 (-53)))%Q.
Proof.
  intros Hlo Hx. pose proof (pow2_pos lo) as Hp.
  assert (Hpos : (0 < x)%Q) by lra.
  assert (Hnorm : -1074 <= ilog2 x - 52).
  { pose proof (ilog2_mono (pow2 lo) x Hp Hx) as Hi.
    rewrite ilog2_pow2 in Hi. lia. }
  rewrite (round64_pos x Hpos). split.
  - now apply roundPositive_error_below.
  - now apply roundPositive_error.
Qed.

(** A target within 2^-50 of the exact c*n/d, rounded and floored at 1,
    is off the exact proportion by less than one unit of d. *)
Lemma cross_error (t : Q) (c n d : Z) :
  1 <= c -> 1 <= n -> 1 <= d ->
  (inject_Z (c * n) <= inject_Z d * 8589934592)%Q ->
  (inject_Z (c * n) * (1 - pow2 (-50)) <= t * inject_Z d
   <= inject_Z (c * n) * (1 + pow2 (-50)))%Q ->
  Z.abs (Z.max 1 (roundQ t) * d - c * n) < d.
Proof.
  intros Hc Hn Hd Hbig [Hlo Hhi].
  assert (HY : (1 <= inject_Z (c * n))%Q).
  { change 1%Q with (inject_Z 1). rewrite <- Zle_Qle. nia. }
  assert (Hdq : (1 <= inject_Z d)%Q)
    by (change 1%Q with (inject_Z 1); now rewrite <- Zle_Qle).
  pose proof (roundQ_nearest t) as Hr. unfold nearestInteger in Hr.
  apply Qabs_Qle_condition in Hr. destruct Hr as [Hr1 Hr2].
  set (R := roundQ t) in *.
  assert (H1 : (inject_Z R * inject_Z d <= (t + (1 # 2)) * inject_Z d)%Q)
    by (apply Qmult_le_r; lra).
  assert (H2 : ((t - (1 # 2)) * inject_Z d <= inject_Z R * inject_Z d)%Q)
    by (apply Qmult_le_r; lra).
  rewrite pow2_m50 in Hlo, Hhi.
  set (Y := inject_Z (c * n)) in *. set (dq := inject_Z d) in *.
  set (X := (t * dq)%Q) in *.
  assert (E1 : ((t + (1 # 2)) * dq == X + (1 # 2) * dq)%Q) by (unfold X; ring).
  assert (E2 : ((t - (1 # 2)) * dq == X - (1 # 2) * dq)%Q) by (unfold X; ring).
  rewrite E1 in H1. rewrite E2 in H2.
  destruct (Z.le_gt_cases 1 R) as [HR|HR].
  - rewrite Z.max_r by exact HR.
    assert (Hup : (inject_Z (R * d) < inject_Z (c * n + d))%Q).
    { rewrite (inject_Z_mult R d), inject_Z_plus. fold Y dq. lra. }
    assert (Hdn : (inject_Z (c * n) < inject_Z (R * d + d))%Q).
    { rewrite inject_Z_plus, (inject_Z_mult R d). fold Y dq. lra. }
    rewrite <- Zlt_Qlt in Hup, Hdn. lia.
  - rewrite Z.max_l by lia.
    assert (HRq : (inject_Z R <= 0)%Q).
    { change 0%Q with (inject_Z 0). rewrite <- Zle_Qle. lia. }
    assert (Ht : (X <= (1 # 2) * dq)%Q).
    { unfold X. apply Qmult_le_r; lra. }
    assert (Hup : (inject_Z (c * n) < inject_Z (2 * d))%Q).
    { rewrite (inject_Z_mult 2 d). fold Y dq. change (inject_Z 2) with 2%Q. lra. }
    rewrite <- Zlt_Qlt in Hup.
    assert (0 < c * n) by nia. lia.
Qed.

(** The height the width clamp computes, against the exact proportion. *)
Lemma quotient_cross (Wq Hq a mw : Q) :
  (1 <= Wq <= pow2 32)%Q -> (1 <= Hq <= pow2 32)%Q ->
  (pow2 (-32) <= a <= pow2 32)%Q ->
  (Wq * (1 - pow2 (-53)) <= a * Hq)%Q ->
  (a * Hq <= Wq * (1 + pow2 (-53)))%Q ->
  (1 <= mw <= pow2 32)%Q ->
  (mw * Hq * (1 - pow2 (-50)) <= round64 (mw / a) * Wq
   <= mw * Hq * (1 + pow2 (-50)))%Q.
Proof.
  intros HW HH Ha P2 P1 Hm.
  pose proof (pow2_pos (-32)) as Hp.
  assert (Hapos : (0 < a)%Q) by lra.
  assert (Hmr : (pow2 0 <= mw <= pow2 32)%Q) by (change (pow2 0) with 1%Q; lra).
  pose proof (div_range _ _ _ _ _ _ Hmr Ha) as HT.
  set (T := (mw / a)%Q) in *.
  assert (HTpos : (0 < T)%Q) by (pose proof (pow2_pos (0 - 32)); lra).
  destruct (round64_two_sided T (0 - 32) ltac:(lia) (proj1 HT)) as [Hdn Hup].
  set (h1 := round64 T) in *.
  assert (ET : (T * (a * Hq) == mw * Hq)%Q) by (unfold T; field; lra).
  assert (F1 : (T * (Wq * (1 - pow2 (-53))) <= T * (a * Hq))%Q)
    by (apply Qmult_le_l; assumption).
  assert (F2 : (T * (a * Hq) <= T * (Wq * (1 + pow2 (-53))))%Q)
    by (apply Qmult_le_l; assumption).
  assert (F3 : (T * (1 - pow2 (-53)) * Wq <= h1 * Wq)%Q)
    by (apply Qmult_le_r; [lra | exact Hdn]).
  assert (F4 : (h1 * Wq <= T * (1 + pow2 (-53)) * Wq)%Q)
    by (apply Qmult_le_r; [lra | exact Hup]).
  rewrite ET in F1, F2.
  assert (HYpos : (0 <= mw * Hq)%Q) by (apply Qmult_le_0_compat; lra).
  assert (HZpos : (0 <= T * Wq)%Q) by (apply Qmult_le_0_compat; lra).
  assert (G1 : (T * (Wq * (1 - pow2 (-53))) == T * Wq * (1 - pow2 (-53)))%Q) by ring.
  assert (G2 : (T * (Wq * (1 + pow2 (-53))) == T * Wq * (1 + pow2 (-53)))%Q) by ring.
  assert (G3 : (T * (1 - pow2 (-53)) * Wq == T * Wq * (1 - pow2 (-53)))%Q) by ring.
  assert (G4 : (T * (1 + pow2 (-53)) * Wq == T * Wq * (1 + pow2 (-53)))%Q) by ring.
  rewrite G1 in F1. rewrite G2 in F2. rewrite G3 in F3. rewrite G4 in F4.
  set (Z1 := (T * Wq)%Q) in *. set (Y := (mw * Hq)%Q) in *.
  set (X := (h1 * Wq)%Q) in *.
  rewrite pow2_m53 in F1, F2, F3, F4. rewrite pow2_m50.
  split; lra.
Qed.

(** The width the height clamp computes, against the exact proportion. *)
Lemma product_cross (Wq Hq a mh : Q) :
  (1 <= Wq <= pow2 32)%Q -> (1 <= Hq <= pow2 32)%Q ->
  (pow2 (-32) <= a <= pow2 32)%Q ->
  (Wq * (1 - pow2 (-53)) <= a * Hq)%Q ->
  (a * Hq <= Wq * (1 + pow2 (-53)))%Q ->
  (1 <= mh <= pow2 33)%Q ->
  (mh * Wq * (1 - pow2 (-50)) <= round64 (mh * a) * Hq
   <= mh * Wq * (1 + pow2 (-50)))%Q.
Proof.
  intros HW HH Ha P2 P1 Hm.
  pose proof (pow2_pos (-32)) as Hp.
  assert (Hapos : (0 < a)%Q) by lra.
  assert (Hmr : (pow2 0 <= mh <= pow2 33)%Q) by (change (pow2 0) with 1%Q; lra).
  pose proof (mul_range _ _ _ _ _ _ Hmr Ha) as HS.
  set (S := (mh * a)%Q) in *.
  assert (HSpos : (0 < S)%Q) by (pose proof (pow2_pos (0 + -32)); lra).
  destruct (round64_two_sided S (0 + -32) ltac:(lia) (proj1 HS)) as [Hdn Hup].
  set (w2 := round64 S) in *.
  assert (F1 : (mh * (Wq * (1 - pow2 (-53))) <= mh * (a * Hq))%Q)
    by (apply Qmult_le_l; [lra | assumption]).
  assert (F2 : (mh * (a * Hq) <= mh * (Wq * (1 + pow2 (-53))))%Q)
    by (apply Qmult_le_l; [lra | assumption]).
  assert (F3 : (S * (1 - pow2 (-53)) * Hq <= w2 * Hq)%Q)
    by (apply Qmult_le_r; [lra | exact Hdn]).
  assert (F4 : (w2 * Hq <= S * (1 + pow2 (-53)) * Hq)%Q)
    by (apply Qmult_le_r; [lra | exact Hup]).
  assert (HYpos : (0 <= mh * Wq)%Q) by (apply Qmult_le_0_compat; lra).
  assert (HZpos : (0 <= S * Hq)%Q) by (apply Qmult_le_0_compat; lra).
  assert (G1 : (mh * (Wq * (1 - pow2 (-53))) == mh * Wq * (1 - pow2 (-53)))%Q) by ring.
  assert (G2 : (mh * (Wq * (1 + pow2 (-53))) == mh * Wq * (1 + pow2 (-53)))%Q) by ring.
  assert (G3 : (S * (1 - pow2 (-53)) * Hq == S * Hq * (1 - pow2 (-53)))%Q) by ring.
  assert (G4 : (S * (1 + pow2 (-53)) * Hq == S * Hq * (1 + pow2 (-53)))%Q) by ring.
  assert (G5 : (mh * (a * Hq) == S * Hq)%Q) by (unfold S; ring).
  rewrite G1, G5 in F1. rewrite G2, G5 in F2. rewrite G3 in F3. rewrite G4 in F4.
  set (Z1 := (S * Hq)%Q) in *. set (Y := (mh * Wq)%Q) in *.
  set (X := (w2 * Hq)%Q) in *.
  rewrite pow2_m53 in F1, F2, F3, F4. rewrite pow2_m50.
  split; lra.
Qed.

Lemma width_clamp_aspect (W H maxW : Z) :
  isImageSize W = true -> isImageSize H = true ->
  1 <= maxW < W ->
  let a := round64 (inject_Z W / inject_Z H) in
  Z.abs (Z.max 1 (roundQ (round64 (inject_Z maxW / a))) * W - maxW * H) < W.
Proof.
  intros HW HH [Hm1 Hm2] a.
  destruct (aspect_bounds W H HW HH) as (_ & Ha & P2 & P1). fold a in Ha, P1, P2.
  apply imageSize_pos in HW as HW0. apply imageSize_pos in HH as HH0.
  apply imageSize_range in HW. apply imageSize_range in HH.
  change (pow2 0) with 1%Q in HW, HH.
  assert (Hmq : (1 <= inject_Z maxW <= pow2 32)%Q).
  { split; [change 1%Q with (inject_Z 1); rewrite <- Zle_Qle; lia|].
    apply Qle_trans with (inject_Z W); [rewrite <- Zle_Qle; lia | lra]. }
  apply cross_error; try lia.
  - change 8589934592%Q with (inject_Z 8589934592).
    rewrite <- inject_Z_mult, <- Zle_Qle. nia.
  - rewrite inject_Z_mult.
    apply (quotient_cross (inject_Z W) (inject_Z H) a (inject_Z maxW));
      assumption.
Qed.

Lemma height_clamp_aspect (W H maxH : Z) :
  isImageSize W = true -> isImageSize H = true ->
  1 <= maxH ->
  (inject_Z maxH <= inject_Z H * (1 + pow2 (-50)))%Q ->
  let a := round64 (inject_Z W / inject_Z H) in
  Z.abs (Z.max 1 (roundQ (round64 (inject_Z maxH * a))) * H - maxH * W) < H.
Proof.
  intros HW HH Hm1 Hm2 a.
  destruct (aspect_bounds W H HW HH) as (_ & Ha & P2 & P1). fold a in Ha, P1, P2.
  apply imageSize_pos in HW as HW0. apply imageSize_pos in HH as HH0.
  apply imageSize_range in HW. apply imageSize_range in HH.
  change (pow2 0) with 1%Q in HW, HH.
  assert (Hm3 : (inject_Z maxH <= inject_Z H * 2)%Q)
    by (rewrite pow2_m50 in Hm2; lra).
  assert (Hmq : (1 <= inject_Z maxH <= pow2 33)%Q).
  { split; [change 1%Q with (inject_Z 1); rewrite <- Zle_Qle; lia|].
    assert (E33 : (pow2 33 == 8589934592)%Q) by reflexivity.
    rewrite E33. rewrite pow2_32 in HH. lra. }
  apply cross_error; try lia.
  - rewrite inject_Z_mult.
    apply Qle_trans with (inject_Z H * 2 * inject_Z W)%Q.
    + apply Qmult_le_r; [lra | exact Hm3].
    + rewrite pow2_32 in HW.
      assert (E : (inject_Z H * 8589934592
                   == inject_Z H * 2 * 4294967296)%Q) by ring.
      rewrite E. apply Qmult_le_l; [lra | lra].
  - rewrite inject_Z_mult.
    apply (product_cross (inject_Z W) (inject_Z H) a (inject_Z maxH));
      assumption.
Qed.

(** X4: with integer bounds of at least 1 the result (w, h) keeps the
    proportion of the image W x H up to less than one pixel:
    |w * H - h * W| < max W H, under the rounding of the binary64
    division and multiplication and of [Math.round]. *)
Theorem aspect_ratio_within_a_pixel (W H maxW maxH : Z) :
  isImageSize W = true -> isImageSize H = true ->
  1 <= maxW -> 1 <= maxH ->
  exists w h : Z,
    finalDimensions (ofZ W) (ofZ H) (ofZ maxW) (ofZ maxH)
    = mkDims (ofZ w) (ofZ h) /\
    Z.abs (w * H - h * W) < Z.max W H.
Proof.
  intros HW HH HmW HmH.
  assert (HmWq : (1 <= inject_Z maxW)%Q)
    by (change 1%Q with (inject_Z 1); now rewrite <- Zle_Qle).
  assert (HmHq : (1 <= inject_Z maxH)%Q)
    by (change 1%Q with (inject_Z 1); now rewrite <- Zle_Qle).
  apply imageSize_pos in HW as HW0. apply imageSize_pos in HH as HH0.
  eexists _, _. split.
  - unfold ofZ at 3 4. apply finalDimensions_Fin; assumption.
  - unfold targetSize.
    set (a := round64 (inject_Z W / inject_Z H)).
    destruct (Qlt_le_dec (inject_Z maxW) (inject_Z W)) as [Hw|Hw].
    + rewrite <- Zlt_Qlt in Hw.
      destruct (Qlt_le_dec (inject_Z maxH) (round64 (inject_Z maxW / a)))
        as [Hh|Hh]; cbn [fst snd]; rewrite roundQ_inject.
      * assert (Hb : (inject_Z maxH <= inject_Z H * (1 + pow2 (-50)))%Q).
        { destruct (aspect_bounds W H HW HH) as (_ & Ha & P2 & _).
          fold a in Ha, P2.
          assert (HWr : (1 <= inject_Z W <= pow2 32)%Q)
            by (apply imageSize_range in HW; exact HW).
          assert (HHr : (1 <= inject_Z H <= pow2 32)%Q)
            by (apply imageSize_range in HH; exact HH).
          destruct (quotient_below _ _ _ HWr HHr Ha P2) as [[HTpos _] HT].
          pose proof (pow2_pos (-32)) as Hp.
          assert (Hle : (inject_Z maxW / a <= inject_Z W / a)%Q).
          { unfold Qdiv. apply Qmult_le_r;
              [apply Qinv_lt_0_compat; lra | rewrite <- Zle_Qle; lia]. }
          pose proof (round64_le _ _ HTpos Hle). lra. }
        pose proof (height_clamp_aspect W H maxH HW HH HmH Hb) as Hc.
        cbv zeta in Hc. fold a in Hc. rewrite (Z.max_r 1 maxH) by lia. lia.
      * pose proof (width_clamp_aspect W H maxW HW HH (conj HmW Hw)) as Hc.
        cbv zeta in Hc. fold a in Hc. rewrite (Z.max_r 1 maxW) by lia. lia.
    + destruct (Qlt_le_dec (inject_Z maxH) (inject_Z H)) as [Hh|Hh];
        cbn [fst snd]; rewrite !roundQ_inject.
      * assert (Hb : (inject_Z maxH <= inject_Z H * (1 + pow2 (-50)))%Q).
        { rewrite pow2_m50. apply imageSize_range in HH. lra. }
        pose proof (height_clamp_aspect W H maxH HW HH HmH Hb) as Hc.
        cbv zeta in Hc. fold a in Hc. rewrite (Z.max_r 1 maxH) by lia. lia.
      * rewrite !Z.max_r by lia. lia.
Qed.

Lemma aspect_ratio_within_a_pixel_witness :
  exists w h : Z,
    finalDimensions (ofZ 4000) (ofZ 3000) (ofZ 800) (ofZ 100)
    = mkDims (ofZ w) (ofZ h) /\
    Z.abs (w * 3000 - h * 4000) < Z.max 4000 3000.
Proof.
  apply (aspect_ratio_within_a_pixel 4000 3000 800 100);
    [reflexivity | reflexivity | lia | lia].
Defined.

End AspectRatio.

Section MimeCase.

Import Str.

Lemma toUpperCase_toLowerCase (c : ascii) :
  toUpperCase (toLowerCase c) = toUpperCase c.
Proof. destruct c as [[] [] [] [] [] [] [] []]; reflexivity. Qed.

Lemma sameChar_toLowerCase (c d : ascii) :
  sameChar true c (toLowerCase d) = sameChar true c d.
Proof. unfold sameChar. now rewrite toUpperCase_toLowerCase. Qed.

(** With the [i] flag the letter case of the input does not matter,
    whatever the pattern. *)
Lemma matchAnchored_lower (p : list term) :
  forall s : string, matchAnchored true p (lower s) = matchAnchored true p s.
Proof.
  induction p as [|[c|c] p IH]; intros s.
  - destruct s; reflexivity.
  - destruct s as [|d s]; [reflexivity|].
    cbn [lower matchAnchored]. now rewrite sameChar_toLowerCase, IH.
  - destruct s as [|d s]; cbn [lower matchAnchored].
    + apply (IH EmptyString).
    + rewrite sameChar_toLowerCase, IH.
      change (String (toLowerCase d) (lower s)) with (lower (String d s)).
      now rewrite IH.
Qed.

(** X5: the type check of [handleFile] ignores letter case: two types
    that differ only in the case of their letters are both accepted or
    both rejected. *)
Theorem isJpegType_ignores_case (s t : string) :
  lower s = lower t -> isJpegType s = isJpegType t.
Proof.
  intros E. unfold isJpegType.
  rewrite <- (matchAnchored_lower jpegPattern s), E.
  apply matchAnchored_lower.
Qed.

Lemma isJpegType_ignores_case_witness :
  isJpegType "Image/JPEG" = isJpegType "image/jpeg".
Proof.
  apply (isJpegType_ignores_case "Image/JPEG" "image/jpeg"). reflexivity.
Defined.

End MimeCase.

Section Canvas.

(** X6: a run whose image loads, whose canvas gives a context, whose
    [drawImage] returns and whose encoder returns a string fulfils; it
    stores the string, its length, the computed dimensions, no error and
    a cleared busy flag, so the results section is shown (for a non-empty
    string); the source, the file name, the settings, the calls, the
    timeout and the debounced settings are as before. *)
Theorem processImage_success (b : Browser) (src data : string) (W H : Z)
    (q mw mh : number) (w : World) :
  isEmpty src = false ->
  decodeImage b src = Loaded W H ->
  getContext2d b = true ->
  drawImage b (finalDimensions (JS.ofZ W) (JS.ofZ H) mw mh) = inl tt ->
  toDataURL b (finalDimensions (JS.ofZ W) (JS.ofZ H) mw mh) q = inl data ->
  let w' := exec (processImage b src q mw mh) w in
  eval (processImage b src q mw mh) w = Fulfilled /\
  processedImageBase64 (ui w') = Some data /\
  base64Length (ui w') = Z.of_nat (String.length data) /\
  processedDimensions (ui w')
  = Some (finalDimensions (JS.ofZ W) (JS.ofZ H) mw mh) /\
  error (ui w') = None /\
  processing (ui w') = false /\
  resultsShown (ui w') = negb (isEmpty data) /\
  originalImageBase64 (ui w') = originalImageBase64 (ui w) /\
  originalFileName (ui w') = originalFileName (ui w) /\
  settings (ui w') = settings (ui w) /\
  calls w' = calls w /\ timer w' = timer w /\
  debouncedValue w' = debouncedValue w.
Proof.
  intros E Hd Hc Hdraw He.
  unfold processImage, processImage_enter, img_settle, img_onload, resultsShown.
  rewrite E, Hd, Hc. cbn [negb]. run_handler. rewrite Hdraw, He. run_handler.
  repeat split. apply andb_true_r.
Qed.

Lemma processImage_success_witness :
  let src := "data:image/jpeg;base64,/9j/4AAQ"%string in
  let data := "data:image/jpeg;base64,/9j/2wBD"%string in
  let q := JS.toNumber (8 # 10) in
  let run := processImage workingBrowser src q (JS.ofZ 800) (JS.ofZ 600) in
  let w := initialWorld in
  let w' := exec run w in
  eval run w = Fulfilled /\
  processedImageBase64 (ui w') = Some data /\
  base64Length (ui w') = Z.of_nat (String.length data) /\
  processedDimensions (ui w')
  = Some (finalDimensions (JS.ofZ 1600) (JS.ofZ 1200) (JS.ofZ 800) (JS.ofZ 600)) /\
  error (ui w') = None /\
  processing (ui w') = false /\
  resultsShown (ui w') = negb (isEmpty data) /\
  originalImageBase64 (ui w') = originalImageBase64 (ui w) /\
  originalFileName (ui w') = originalFileName (ui w) /\
  settings (ui w') = settings (ui w) /\
  calls w' = calls w /\ timer w' = timer w /\
  debouncedValue w' = debouncedValue w.
Proof.
  apply (processImage_success workingBrowser
           "data:image/jpeg;base64,/9j/4AAQ" "data:image/jpeg;base64,/9j/2wBD"
           1600 1200 (JS.toNumber (8 # 10)) (JS.ofZ 800) (JS.ofZ 600)
           initialWorld); reflexivity.
Defined.

(** X7: a run whose [drawImage] returns and whose encoder throws
    rejects with the message "Error processing image: " followed by the
    message of the exception; the same text is shown as the error, the
    string, the dimensions stored just before and the length are cleared,
    the busy flag is cleared, and no result is shown. *)
Theorem processImage_encoder_throws (b : Browser) (src thrown : string)
    (W H : Z) (q mw mh : number) (w : World) :
  isEmpty src = false ->
  decodeImage b src = Loaded W H ->
  getContext2d b = true ->
  drawImage b (finalDimensions (JS.ofZ W) (JS.ofZ H) mw mh) = inl tt ->
  toDataURL b (finalDimensions (JS.ofZ W) (JS.ofZ H) mw mh) q = inr thrown ->
  let w' := exec (processImage b src q mw mh) w in
  let errorMessage := String.append "Error processing image: " thrown in
  eval (processImage b src q mw mh) w = Rejected errorMessage /\
  error (ui w') = Some errorMessage /\
  processedImageBase64 (ui w') = None /\
  processedDimensions (ui w') = None /\
  base64Length (ui w') = 0 /\
  processing (ui w') = false /\
  resultsShown (ui w') = false /\
  originalImageBase64 (ui w') = originalImageBase64 (ui w) /\
  originalFileName (ui w') = originalFileName (ui w) /\
  calls w' = calls w.
Proof.
  intros E Hd Hc Hdraw He.
  unfold processImage, processImage_enter, img_settle, img_onload, resultsShown.
  rewrite E, Hd, Hc. cbn [negb]. run_handler. rewrite Hdraw, He. run_handler.
  repeat split.
Qed.

Lemma processImage_encoder_throws_witness :
  let src := "data:image/jpeg;base64,/9j/4AAQ"%string in
  let q := JS.toNumber (8 # 10) in
  let run := processImage throwingBrowser src q (JS.ofZ 800) (JS.ofZ 600) in
  let w := processedWorld in
  let w' := exec run w in
  let errorMessage :=
    String.append "Error processing image: " "The operation is insecure." in
  eval run w = Rejected errorMessage /\
  error (ui w') = Some errorMessage /\
  processedImageBase64 (ui w') = None /\
  processedDimensions (ui w') = None /\
  base64Length (ui w') = 0 /\
  processing (ui w') = false /\
  resultsShown (ui w') = false /\
  originalImageBase64 (ui w') = originalImageBase64 (ui w) /\
  originalFileName (ui w') = originalFileName (ui w) /\
  calls w' = calls w.
Proof.
  apply (processImage_encoder_throws throwingBrowser
           "data:image/jpeg;base64,/9j/4AAQ" "The operation is insecure."
           1600 1200 (JS.toNumber (8 # 10)) (JS.ofZ 800) (JS.ofZ 600)
           processedWorld); reflexivity.
Defined.

(** X8: a run whose canvas gives no 2d context rejects with "Could not
    get canvas context.", shows that error and clears the busy flag; the
    dimensions stay cleared from the entry of the run, but the encoded
    string and the length of the earlier result are not cleared, so an
    earlier result is shown again beside the error. *)
Theorem processImage_without_context (b : Browser) (src : string)
    (W H : Z) (q mw mh : number) (w : World) :
  isEmpty src = false ->
  decodeImage b src = Loaded W H ->
  getContext2d b = false ->
  let w' := exec (processImage b src q mw mh) w in
  eval (processImage b src q mw mh) w
  = Rejected "Could not get canvas context." /\
  error (ui w') = Some "Could not get canvas context."%string /\
  processing (ui w') = false /\
  processedDimensions (ui w') = None /\
  processedImageBase64 (ui w') = processedImageBase64 (ui w) /\
  base64Length (ui w') = base64Length (ui w) /\
  resultsShown (ui w')
  = match processedImageBase64 (ui w) with
    | Some old => negb (isEmpty old)
    | None => false
    end.
Proof.
  intros E Hd Hc.
  unfold processImage, processImage_enter, img_settle, img_onload, resultsShown.
  rewrite E, Hd, Hc. cbn [negb]. run_handler.
  repeat split. destruct (processedImageBase64 (ui w)); [apply andb_true_r | reflexivity].
Qed.

Lemma processImage_without_context_witness :
  let src := "data:image/jpeg;base64,/9j/4AAQ"%string in
  let q := JS.toNumber (8 # 10) in
  let run := processImage noContextBrowser src q (JS.ofZ 800) (JS.ofZ 600) in
  let w := processedWorld in
  let w' := exec run w in
  eval run w = Rejected "Could not get canvas context." /\
  error (ui w') = Some "Could not get canvas context."%string /\
  processing (ui w') = false /\
  processedDimensions (ui w') = None /\
  processedImageBase64 (ui w') = processedImageBase64 (ui w) /\
  base64Length (ui w') = base64Length (ui w) /\
  resultsShown (ui w')
  = match processedImageBase64 (ui w) with
    | Some old => negb (isEmpty old)
    | None => false
    end.
Proof.
  apply (processImage_without_context noContextBrowser
           "data:image/jpeg;base64,/9j/4AAQ" 1600 1200
           (JS.toNumber (8 # 10)) (JS.ofZ 800) (JS.ofZ 600) processedWorld);
    reflexivity.
Defined.

End Canvas.

Section FileEvents.

(** With the settings object of the render before and no source to
    process, the effects of a render do nothing. *)
Lemma runEffects_unloaded (now : Z) (prev w : World) :
  oid (settings (ui w)) = oid (settings (ui prev)) ->
  sourceLoaded (ui w) = false ->
  runEffects now prev w = (tt, w).
Proof.
  intros E1 E2. unfold runEffects, reprocessEffect. run_handler.
  rewrite E1, Nat.eqb_refl.
  destruct (sameSource _ _ && _); [reflexivity|].
  cbv beta. unfold sourceLoaded in E2.
  destruct (originalImageBase64 (ui w)) as [src|]; [|reflexivity].
  destruct (isEmpty src); [reflexivity | discriminate E2].
Qed.

Lemma runEffects_no_source (now : Z) (prev w : World) :
  oid (settings (ui w)) = oid (settings (ui prev)) ->
  originalImageBase64 (ui w) = None ->
  runEffects now prev w = (tt, w).
Proof.
  intros E1 E2. apply runEffects_unloaded; [exact E1|].
  unfold sourceLoaded. now rewrite E2.
Qed.

(** A new source under the settings object of the render before: the
    effect makes one call, with the debounced settings, and enters the
    run. *)
Lemma runEffects_new_source (now : Z) (prev w : World) (src : string) :
  oid (settings (ui w)) = oid (settings (ui prev)) ->
  originalImageBase64 (ui w) = Some src ->
  originalImageBase64 (ui prev) = None ->
  isEmpty src = false ->
  exec (runEffects now prev) w
  = exec (logCall (callFor src (debouncedValue w));; processImage_enter src) w.
Proof.
  intros E1 E2 E3 E4. unfold runEffects, reprocessEffect, processImage_enter, callFor.
  run_handler. rewrite E1, E2, E3, Nat.eqb_refl. cbn [sameSource andb].
  cbv beta. rewrite E2, E4. run_handler. reflexivity.
Qed.

Lemma handleFile_clears_source (file : option File) (w : World) :
  originalImageBase64 (ui (exec (handleFile file) w)) = None /\
  settings (ui (exec (handleFile file) w)) = settings (ui w).
Proof.
  unfold handleFile. destruct file as [f|]; [destruct (isJpegType (file_type f))|];
    cbn [negb]; run_handler; split; reflexivity.
Qed.

Lemma withEffects_handleFile (now : Z) (file : option File) (w : World) :
  exec (withEffects now (handleFile file)) w = exec (handleFile file) w.
Proof.
  destruct (handleFile_clears_source file w) as [Hs Ho].
  unfold withEffects. cbv [exec mbind M_bind]. cbn [get fst snd].
  destruct (handleFile file w) as [u w1] eqn:E.
  unfold exec in Hs, Ho. rewrite E in Hs, Ho. cbn [snd] in Hs, Ho.
  rewrite runEffects_no_source; [reflexivity | now rewrite Ho | exact Hs].
Qed.

(** X9: choosing files never starts a run by itself, whatever the files
    are: after [handleFileChange] and the effects of its render no call
    of [processImage] was added, the timeout, the settings and the
    debounced settings are as before, and the source and the earlier
    result are cleared, so no result is shown.  A cancelled selection (no
    file) also clears the error and the file name, starts no read, and
    leaves the busy flag and the file input as they were. *)
Theorem file_choice_starts_no_run (now : Z) (files : list File) (w : World) :
  let w' := exec (withEffects now (handleFileChange files)) w in
  let cancelled := exec (withEffects now (handleFileChange [])) w in
  (calls w' = calls w /\
   timer w' = timer w /\
   debouncedValue w' = debouncedValue w /\
   settings (ui w') = settings (ui w) /\
   originalImageBase64 (ui w') = None /\
   processedImageBase64 (ui w') = None /\
   processedDimensions (ui w') = None /\
   base64Length (ui w') = 0 /\
   resultsShown (ui w') = false) /\
  (error (ui cancelled) = None /\
   originalFileName (ui cancelled) = ""%string /\
   processing (ui cancelled) = processing (ui w) /\
   reads cancelled = reads w /\
   fileInputValue cancelled = fileInputValue w).
Proof.
  unfold handleFileChange. rewrite !withEffects_handleFile.
  unfold handleFile, resultsShown. split.
  - destruct (head files) as [f|];
      [destruct (isJpegType (file_type f))|]; cbn [negb]; run_handler;
      repeat split.
  - cbn [head]. run_handler. repeat split.
Qed.

(** X10: after a JPEG file was accepted (busy flag set, read started), a
    read that fails, or that delivers something that is not a string,
    shows its own error message and clears the busy flag; no source is
    stored, no run is started, no result is shown, and the name of the
    file stays stored. *)
Theorem failed_read_ends_busy (t1 t2 : Z) (file : File) (w : World) :
  isJpegType (file_type file) = true ->
  let w1 := exec (withEffects t1 (handleFileChange [file])) w in
  let failed := exec (withEffects t2 reader_onerror) w1 in
  let noString := exec (withEffects t2 (reader_onload None)) w1 in
  let ended := fun w2 : World =>
    processing (ui w2) = false /\
    originalImageBase64 (ui w2) = None /\
    originalFileName (ui w2) = file_name file /\
    resultsShown (ui w2) = false /\
    calls w2 = calls w /\
    reads w2 = reads w ++ [file] in
  processing (ui w1) = true /\
  reads w1 = reads w ++ [file] /\
  error (ui failed) = Some "Failed to read the file."%string /\
  error (ui noString) = Some "Failed to read file content."%string /\
  ended failed /\
  ended noString.
Proof.
  intros Hj. unfold handleFileChange. cbn [head].
  rewrite withEffects_handleFile.
  set (w1 := exec (handleFile (Some file)) w).
  assert (E1 : w1 = exec (setOriginalImageBase64 None;;
                          setProcessedImageBase64 None;;
                          setBase64Length 0;;
                          setOriginalFileName "";;
                          setError None;;
                          setProcessedDimensions None;;
                          setOriginalFileName (file_name file);;
                          setProcessing true;;
                          readAsDataURL file) w).
  { unfold w1, handleFile. rewrite Hj. reflexivity. }
  clearbody w1. subst w1. cbv zeta.
  unfold withEffects, reader_onerror, reader_onload, resultsShown.
  run_handler.
  rewrite !runEffects_no_source by reflexivity.
  cbn [snd ui error processing]. run_handler.
  repeat split.
Qed.

Lemma failed_read_ends_busy_witness :
  let w := processedWorld in
  let w1 := exec (withEffects 100 (handleFileChange [jpegFile])) w in
  let failed := exec (withEffects 130 reader_onerror) w1 in
  let noString := exec (withEffects 130 (reader_onload None)) w1 in
  let ended := fun w2 : World =>
    processing (ui w2) = false /\
    originalImageBase64 (ui w2) = None /\
    originalFileName (ui w2) = file_name jpegFile /\
    resultsShown (ui w2) = false /\
    calls w2 = calls w /\
    reads w2 = reads w ++ [jpegFile] in
  processing (ui w1) = true /\
  reads w1 = reads w ++ [jpegFile] /\
  error (ui failed) = Some "Failed to read the file."%string /\
  error (ui noString) = Some "Failed to read file content."%string /\
  ended failed /\
  ended noString.
Proof.
  apply (failed_read_ends_busy 100 130 jpegFile processedWorld). reflexivity.
Defined.

End FileEvents.

Section Pipeline.

Lemma accepted_file (file : File) (w : World) :
  isJpegType (file_type file) = true ->
  exec (handleFile (Some file)) w
  = exec (setOriginalImageBase64 None;;
          setProcessedImageBase64 None;;
          setBase64Length 0;;
          setOriginalFileName "";;
          setError None;;
          setProcessedDimensions None;;
          setOriginalFileName (file_name file);;
          setProcessing true;;
          readAsDataURL file) w.
Proof. intros Hj. unfold handleFile. rewrite Hj. reflexivity. Qed.

Lemma rejected_file (file : File) (w : World) :
  isJpegType (file_type file) = false ->
  exec (handleFile (Some file)) w
  = exec (setOriginalImageBase64 None;;
          setProcessedImageBase64 None;;
          setBase64Length 0;;
          setOriginalFileName "";;
          setError None;;
          setProcessedDimensions None;;
          setError (Some unsupportedTypeMessage);;
          clearFileInput) w.
Proof. intros Hj. unfold handleFile. rewrite Hj. reflexivity. Qed.

Lemma withEffects_reader_onload (now : Z) (src : string) (w : World) :
  originalImageBase64 (ui w) = None ->
  isEmpty src = false ->
  exec (withEffects now (reader_onload (Some src))) w
  = exec (setOriginalImageBase64 (Some src);;
          logCall (callFor src (debouncedValue w));;
          processImage_enter src) w.
Proof.
  intros Ho Hs. unfold withEffects, reader_onload.
  cbv [exec mbind M_bind]. cbn [get fst snd].
  destruct (setOriginalImageBase64 (Some src) w) as [u w1] eqn:E.
  assert (E1 : w1 = exec (setOriginalImageBase64 (Some src)) w)
    by (unfold exec; now rewrite E).
  pose proof (runEffects_new_source now w w1 src) as Hr.
  unfold exec in Hr. rewrite Hr; [| subst w1; reflexivity ..| exact Ho | exact Hs].
  subst w1. cbv [mbind M_bind exec]. rewrite E. reflexivity.
Qed.

(** X11: from the choice of a JPEG file to the result.  The choice starts
    the read and sets the busy flag; when the reader delivers a non-empty
    data URL, the effect makes exactly one call of [processImage], with
    that source and the debounced settings (not the settings being
    edited), and the flag stays set; when the image of that call loads,
    is drawn and is encoded, the encoded string, its length and the dimensions
    computed from the natural size and the debounced bounds are stored
    under the name of the file, without error and with the flag cleared. *)
Theorem file_to_result (b : Browser) (t1 t2 : Z) (file : File)
    (src data : string) (W H : Z) (w : World) :
  isJpegType (file_type file) = true ->
  isEmpty src = false ->
  decodeImage b src = Loaded W H ->
  getContext2d b = true ->
  let c := callFor src (debouncedValue w) in
  let canvas :=
    finalDimensions (JS.ofZ W) (JS.ofZ H) (currentMaxWidth c) (currentMaxHeight c) in
  drawImage b canvas = inl tt ->
  toDataURL b canvas (currentQuality c) = inl data ->
  let w1 := exec (withEffects t1 (handleFileChange [file])) w in
  let w2 := exec (withEffects t2 (reader_onload (Some src))) w1 in
  let w3 := exec (handler b (ImageSettled c)) w2 in
  (calls w1 = calls w /\ reads w1 = reads w ++ [file] /\
   processing (ui w1) = true) /\
  (calls w2 = calls w ++ [c] /\ originalImageBase64 (ui w2) = Some src /\
   processing (ui w2) = true /\ resultsShown (ui w2) = false) /\
  (processedImageBase64 (ui w3) = Some data /\
   base64Length (ui w3) = Z.of_nat (String.length data) /\
   processedDimensions (ui w3) = Some canvas /\
   originalFileName (ui w3) = file_name file /\
   error (ui w3) = None /\
   processing (ui w3) = false /\
   resultsShown (ui w3) = negb (isEmpty data) /\
   calls w3 = calls w ++ [c]).
Proof.
  intros Hj Hs Hd Hc c canvas Hdraw He.
  unfold handleFileChange. cbn [head].
  rewrite withEffects_handleFile, (accepted_file file w Hj).
  set (w1 := exec _ w).
  assert (Ho1 : originalImageBase64 (ui w1) = None) by reflexivity.
  assert (Hd1 : debouncedValue w1 = debouncedValue w) by reflexivity.
  cbv zeta. rewrite (withEffects_reader_onload t2 src w1 Ho1 Hs), Hd1.
  fold c.
  unfold handler, img_settle, img_onload, processImage_enter, resultsShown.
  replace (sourceBase64 c) with src by reflexivity.
  rewrite Hs, Hd, Hc. cbn [negb]. fold canvas.
  subst w1. run_handler. rewrite Hdraw, He. run_handler.
  repeat split. apply andb_true_r.
Qed.

Lemma file_to_result_witness :
  let src := "data:image/jpeg;base64,/9j/4AAQ"%string in
  let data := "data:image/jpeg;base64,/9j/2wBD"%string in
  let w := initialWorld in
  let c := callFor src (debouncedValue w) in
  let canvas :=
    finalDimensions (JS.ofZ 1600) (JS.ofZ 1200)
                    (currentMaxWidth c) (currentMaxHeight c) in
  let w1 := exec (withEffects 100 (handleFileChange [jpegFile])) w in
  let w2 := exec (withEffects 130 (reader_onload (Some src))) w1 in
  let w3 := exec (handler workingBrowser (ImageSettled c)) w2 in
  (calls w1 = calls w /\ reads w1 = reads w ++ [jpegFile] /\
   processing (ui w1) = true) /\
  (calls w2 = calls w ++ [c] /\ originalImageBase64 (ui w2) = Some src /\
   processing (ui w2) = true /\ resultsShown (ui w2) = false) /\
  (processedImageBase64 (ui w3) = Some data /\
   base64Length (ui w3) = Z.of_nat (String.length data) /\
   processedDimensions (ui w3) = Some canvas /\
   originalFileName (ui w3) = file_name jpegFile /\
   error (ui w3) = None /\
   processing (ui w3) = false /\
   resultsShown (ui w3) = negb (isEmpty data) /\
   calls w3 = calls w ++ [c]).
Proof.
  apply (file_to_result workingBrowser 100 130 jpegFile
           "data:image/jpeg;base64,/9j/4AAQ" "data:image/jpeg;base64,/9j/2wBD"
           1600 1200 initialWorld); reflexivity.
Defined.

Lemma withEffects_handleDrop (now : Z) (files : list File) (w : World) :
  exec (withEffects now (handleDrop files)) w = exec (handleDrop files) w.
Proof.
  unfold withEffects, handleDrop. run_handler.
  set (w0 := {| ui := _; debouncedValue := debouncedValue w |}).
  destruct (handleFile_clears_source (head files) w0) as [Hs Ho].
  unfold exec in Hs, Ho.
  destruct (handleFile (head files) w0) as [u w1]. cbn [snd] in *.
  rewrite runEffects_no_source; [reflexivity | now rewrite Ho | exact Hs].
Qed.

(** X12: a read that was started is not cancelled.  When a JPEG file was
    accepted and, before its read delivers, a file of another type is
    dropped and rejected, the error of the rejection is shown while the
    busy flag of the first file stays set; when the first read then
    delivers, its data is stored and processed: one call is made, the
    error is cleared, and the file name stays the empty string the
    rejection left. *)
Theorem late_read_is_still_processed (t1 t2 t3 : Z) (first other : File)
    (src : string) (w : World) :
  isJpegType (file_type first) = true ->
  isJpegType (file_type other) = false ->
  isEmpty src = false ->
  let w1 := exec (withEffects t1 (handleFileChange [first])) w in
  let w2 := exec (withEffects t2 (handleDrop [other])) w1 in
  let w3 := exec (withEffects t3 (reader_onload (Some src))) w2 in
  (error (ui w2) = Some unsupportedTypeMessage /\
   originalFileName (ui w2) = ""%string /\
   processing (ui w2) = true /\
   reads w2 = reads w ++ [first]) /\
  (originalImageBase64 (ui w3) = Some src /\
   calls w3 = calls w ++ [callFor src (debouncedValue w)] /\
   originalFileName (ui w3) = ""%string /\
   error (ui w3) = None /\
   processing (ui w3) = true).
Proof.
  intros Hj Hn Hs. unfold handleFileChange. cbn [head].
  rewrite withEffects_handleFile, withEffects_handleDrop.
  rewrite (accepted_file first w Hj).
  set (w1 := exec _ w). unfold handleDrop. rewrite exec_bind. cbn [head].
  rewrite (rejected_file other _ Hn).
  set (w2 := exec _ (exec (setIsDraggingOver false) w1)).
  assert (Ho2 : originalImageBase64 (ui w2) = None) by reflexivity.
  cbv zeta. rewrite (withEffects_reader_onload t3 src w2 Ho2 Hs).
  unfold processImage_enter. rewrite Hs.
  subst w2 w1. run_handler. repeat split.
Qed.

Lemma late_read_is_still_processed_witness :
  let src := "data:image/jpeg;base64,/9j/4AAQ"%string in
  let w := initialWorld in
  let w1 := exec (withEffects 100 (handleFileChange [jpegFile])) w in
  let w2 := exec (withEffects 110 (handleDrop [pngFile])) w1 in
  let w3 := exec (withEffects 130 (reader_onload (Some src))) w2 in
  (error (ui w2) = Some unsupportedTypeMessage /\
   originalFileName (ui w2) = ""%string /\
   processing (ui w2) = true /\
   reads w2 = reads w ++ [jpegFile]) /\
  (originalImageBase64 (ui w3) = Some src /\
   calls w3 = calls w ++ [callFor src (debouncedValue w)] /\
   originalFileName (ui w3) = ""%string /\
   error (ui w3) = None /\
   processing (ui w3) = true).
Proof.
  apply (late_read_is_still_processed 100 110 130 jpegFile pngFile
           "data:image/jpeg;base64,/9j/4AAQ" initialWorld); reflexivity.
Defined.

End Pipeline.

Section DragAndDrop.

Lemma withEffects_drag (now : Z) (flag : bool) (w : World) :
  exec (withEffects now (setIsDraggingOver flag)) w
  = exec (setIsDraggingOver flag) w.
Proof.
  unfold withEffects. run_handler.
  rewrite runEffects_idle by reflexivity. reflexivity.
Qed.

(** X13: a dragover, dragenter or dragleave event changes nothing but
    the drag flag (true for the first two, false for the last): every
    other state cell, the debounced settings, the timeout, the calls, the
    reads and the file input are as before, no effect runs at the next
    render, and the same event again changes nothing more. *)
Theorem drag_events_only_toggle_the_flag (b : Browser) (now : Z) (ev : Event)
    (flag : bool) (w : World) :
  dragFlag ev = Some flag ->
  let w' := exec (withEffects now (handler b ev)) w in
  isDraggingOver (ui w') = flag /\
  originalImageBase64 (ui w') = originalImageBase64 (ui w) /\
  processedImageBase64 (ui w') = processedImageBase64 (ui w) /\
  base64Length (ui w') = base64Length (ui w) /\
  settings (ui w') = settings (ui w) /\
  processedDimensions (ui w') = processedDimensions (ui w) /\
  originalFileName (ui w') = originalFileName (ui w) /\
  error (ui w') = error (ui w) /\
  processing (ui w') = processing (ui w) /\
  debouncedValue w' = debouncedValue w /\
  timer w' = timer w /\
  nextId w' = nextId w /\
  calls w' = calls w /\
  reads w' = reads w /\
  fileInputValue w' = fileInputValue w /\
  exec (withEffects now (handler b ev)) w' = w'.
Proof.
  intros Hf.
  assert (E : handler b ev = setIsDraggingOver flag).
  { destruct ev; try discriminate Hf; injection Hf as <-; reflexivity. }
  rewrite E. cbv zeta. rewrite !withEffects_drag. run_handler. repeat split.
Qed.

Lemma drag_events_only_toggle_the_flag_witness :
  let w := processedWorld in
  let w' := exec (withEffects 100 (handler workingBrowser DragEnter)) w in
  isDraggingOver (ui w') = true /\
  originalImageBase64 (ui w') = originalImageBase64 (ui w) /\
  processedImageBase64 (ui w') = processedImageBase64 (ui w) /\
  base64Length (ui w') = base64Length (ui w) /\
  settings (ui w') = settings (ui w) /\
  processedDimensions (ui w') = processedDimensions (ui w) /\
  originalFileName (ui w') = originalFileName (ui w) /\
  error (ui w') = error (ui w) /\
  processing (ui w') = processing (ui w) /\
  debouncedValue w' = debouncedValue w /\
  timer w' = timer w /\
  nextId w' = nextId w /\
  calls w' = calls w /\
  reads w' = reads w /\
  fileInputValue w' = fileInputValue w /\
  exec (withEffects 100 (handler workingBrowser DragEnter)) w' = w'.
Proof.
  apply (drag_events_only_toggle_the_flag workingBrowser 100 DragEnter true
           processedWorld). reflexivity.
Defined.

(** X14: a drop is a dragleave and a file choice, in either order: it
    clears the drag flag and hands the first dropped file (or none) to
    [handleFile]; the files after the first are ignored. *)
Theorem handleDrop_composition (files rest : list File) (file : File)
    (w : World) :
  exec (handleDrop files) w
  = exec (handleFileChange files) (exec handleDragLeave w) /\
  exec (handleDrop files) w
  = exec handleDragLeave (exec (handleFileChange files) w) /\
  isDraggingOver (ui (exec (handleDrop files) w)) = false /\
  exec (handleDrop (file :: rest)) w = exec (handleDrop [file]) w.
Proof.
  unfold handleDrop, handleFileChange, handleDragLeave, handleFile.
  destruct (head files) as [f|]; [destruct (isJpegType (file_type f))|];
    cbn [negb]; run_handler; repeat split.
Qed.

End DragAndDrop.

Section SettingEdits.

(** X15: a settings change stores the processed value under the name of
    the input and leaves every other key of the settings as it was; the
    settings object is a new one each time; no other state cell, the
    debounced settings, the timeout, the calls and the reads change. *)
Theorem setting_edit_touches_one_key (b : Browser) (e : ChangeEvent)
    (k : string) (w : World) :
  k <> target_name e ->
  let w' := exec (handleSettingChange b e) w in
  fields (settings (ui w')) !! k = fields (settings (ui w)) !! k /\
  fields (settings (ui w')) !! target_name e = Some (processedValue b e) /\
  oid (settings (ui w')) = nextId w /\
  nextId w' = S (nextId w) /\
  originalImageBase64 (ui w') = originalImageBase64 (ui w) /\
  processedImageBase64 (ui w') = processedImageBase64 (ui w) /\
  base64Length (ui w') = base64Length (ui w) /\
  processedDimensions (ui w') = processedDimensions (ui w) /\
  originalFileName (ui w') = originalFileName (ui w) /\
  error (ui w') = error (ui w) /\
  processing (ui w') = processing (ui w) /\
  isDraggingOver (ui w') = isDraggingOver (ui w) /\
  debouncedValue w' = debouncedValue w /\
  timer w' = timer w /\
  calls w' = calls w /\
  reads w' = reads w.
Proof.
  intros Hk. unfold handleSettingChange. run_handler. cbn [fields oid].
  split; [now rewrite lookup_insert_ne|].
  split; [now rewrite lookup_insert_eq|].
  repeat split.
Qed.

Lemma setting_edit_touches_one_key_witness :
  let e := emptyEdit in
  let k := "quality"%string in
  let w := initialWorld in
  let w' := exec (handleSettingChange workingBrowser e) w in
  fields (settings (ui w')) !! k = fields (settings (ui w)) !! k /\
  fields (settings (ui w')) !! target_name e
  = Some (processedValue workingBrowser e) /\
  oid (settings (ui w')) = nextId w /\
  nextId w' = S (nextId w) /\
  originalImageBase64 (ui w') = originalImageBase64 (ui w) /\
  processedImageBase64 (ui w') = processedImageBase64 (ui w) /\
  base64Length (ui w') = base64Length (ui w) /\
  processedDimensions (ui w') = processedDimensions (ui w) /\
  originalFileName (ui w') = originalFileName (ui w) /\
  error (ui w') = error (ui w) /\
  processing (ui w') = processing (ui w) /\
  isDraggingOver (ui w') = isDraggingOver (ui w) /\
  debouncedValue w' = debouncedValue w /\
  timer w' = timer w /\
  calls w' = calls w /\
  reads w' = reads w.
Proof.
  apply (setting_edit_touches_one_key workingBrowser emptyEdit "quality"
           initialWorld). discriminate.
Defined.

(** X16: an edit of the quality stores what [parseFloat] returns for the
    input as it is, NaN included: no clamp to the range of the slider is
    applied, and maxWidth and maxHeight are not touched. *)
Theorem quality_edit_is_unclamped (b : Browser) (v type : string) (w : World) :
  let w' := exec (handleSettingChange b (mkChange "quality" v type)) w in
  getNumber (settings (ui w')) "quality" = parseFloat b v /\
  fields (settings (ui w')) !! "maxWidth"%string
  = fields (settings (ui w)) !! "maxWidth"%string /\
  fields (settings (ui w')) !! "maxHeight"%string
  = fields (settings (ui w)) !! "maxHeight"%string /\
  boundedSettings (fields (settings (ui w')))
  = boundedSettings (fields (settings (ui w))).
Proof.
  unfold handleSettingChange. run_handler.
  unfold getNumber, boundedSettings. cbn [fields target_name].
  rewrite lookup_insert_eq, !lookup_insert_ne by discriminate.
  repeat split.
  unfold processedValue. cbn [target_name target_value target_type].
  cbn [String.eqb Ascii.eqb Bool.eqb orb].
  rewrite orb_true_r. reflexivity.
Qed.

(** X17: edits of two different settings commute: either order gives the
    same state; and an edit of a setting overrides an earlier edit of the
    same setting. *)
Theorem setting_edits_commute (b : Browser) (e1 e2 : ChangeEvent)
    (v type : string) (w : World) :
  target_name e1 <> target_name e2 ->
  let after := fun e w => exec (handleSettingChange b e) w in
  let again := mkChange (target_name e1) v type in
  after e2 (after e1 w) = after e1 (after e2 w) /\
  fields (settings (ui (after again (after e1 w))))
  = fields (settings (ui (after again w))).
Proof.
  intros Hne. unfold handleSettingChange. run_handler.
  cbn [fields target_name]. split.
  - now rewrite insert_insert_ne.
  - now rewrite insert_insert_eq.
Qed.

Lemma setting_edits_commute_witness :
  let e1 := mkChange "maxWidth" "640" "number" in
  let e2 := mkChange "maxHeight" "480" "number" in
  let w := initialWorld in
  let after := fun e w => exec (handleSettingChange workingBrowser e) w in
  let again := mkChange (target_name e1) "320" "number" in
  after e2 (after e1 w) = after e1 (after e2 w) /\
  fields (settings (ui (after again (after e1 w))))
  = fields (settings (ui (after again w))).
Proof.
  apply (setting_edits_commute workingBrowser
           (mkChange "maxWidth" "640" "number")
           (mkChange "maxHeight" "480" "number") "320" "number" initialWorld).
  discriminate.
Defined.

Lemma digits_stops (c : ascii) (t s : string) :
  Str.digitValue c = None ->
  forall acc, Str.digits acc (s ++ String c t) = Str.digits acc s.
Proof.
  intros Hc. induction s as [|d s IH]; intros acc.
  - change (Str.digits acc (String c t) = acc).
    cbn [Str.digits]. now rewrite Hc.
  - change (Str.digits acc (String d (s ++ String c t))
            = Str.digits acc (String d s)).
    cbn [Str.digits]. destruct (Str.digitValue d); [apply IH | reflexivity].
Qed.

Lemma trimStart_append (s u : string) :
  Str.trimStart s <> EmptyString ->
  Str.trimStart (s ++ u) = (Str.trimStart s ++ u)%string.
Proof.
  induction s as [|d s IH]; intros Hne; [now elim Hne|].
  change (Str.trimStart (String d (s ++ u))
          = (Str.trimStart (String d s) ++ u)%string).
  cbn [Str.trimStart] in *.
  destruct (Str.isWhiteSpace d); [now apply IH | reflexivity].
Qed.

(** [parseInt] reads up to the first character that is not a digit. *)
Lemma parseInt_stops (c : ascii) (s t : string) :
  Str.digitValue c = None ->
  Str.parseInt s <> JS.NaN ->
  Str.parseInt (s ++ String c t) = Str.parseInt s.
Proof.
  intros Hc Hn. unfold Str.parseInt in *.
  destruct (Str.trimStart s) as [|a r] eqn:E; [now elim Hn|].
  rewrite trimStart_append by (rewrite E; discriminate). rewrite E.
  change (String a r ++ String c t)%string with (String a (r ++ String c t)).
  cbn [Str.signAndRest] in *.
  destruct (Ascii.eqb a "-"); [|destruct (Ascii.eqb a "+")].
  - now rewrite digits_stops.
  - now rewrite digits_stops.
  - change (String a (r ++ String c t)) with (String a r ++ String c t)%string.
    now rewrite digits_stops.
Qed.

(** X18: for maxWidth and maxHeight the input is read up to its first
    character that is not a digit: once the text parses to a number,
    whatever follows a non-digit (a fraction, an exponent, a unit) does
    not change the stored value. *)
Theorem bound_input_is_truncated (b : Browser) (name type s t : string)
    (c : ascii) :
  name = "maxWidth"%string \/ name = "maxHeight"%string ->
  Str.digitValue c = None ->
  Str.parseInt s <> JS.NaN ->
  processedValue b (mkChange name (s ++ String c t) type)
  = processedValue b (mkChange name s type).
Proof.
  intros Hname Hc Hn. unfold processedValue.
  cbn [target_name target_value target_type].
  rewrite (parseInt_stops c s t Hc Hn).
  destruct Hname as [-> | ->];
    cbn [String.eqb Ascii.eqb Bool.eqb orb]; rewrite ?orb_true_r; reflexivity.
Qed.

Lemma bound_input_is_truncated_witness :
  processedValue workingBrowser (mkChange "maxWidth" ("1" ++ String "e" "3") "number")
  = processedValue workingBrowser (mkChange "maxWidth" "1" "number").
Proof.
  apply (bound_input_is_truncated workingBrowser "maxWidth" "number" "1" "3" "e");
    [left; reflexivity | reflexivity | discriminate].
Defined.

End SettingEdits.

Section Timers.

Variable b : Browser.

(** Under the settings object of the render before, the effects leave
    the timeout, the debounced value, the settings and the source alone. *)
Lemma runEffects_keeps (now : Z) (prev w : World) :
  oid (settings (ui w)) = oid (settings (ui prev)) ->
  let w' := exec (runEffects now prev) w in
  timer w' = timer w /\
  debouncedValue w' = debouncedValue w /\
  settings (ui w') = settings (ui w) /\
  nextId w' = nextId w /\
  originalImageBase64 (ui w') = originalImageBase64 (ui w).
Proof.
  intros E. unfold runEffects, reprocessEffect, processImage_enter.
  run_handler. rewrite E, Nat.eqb_refl.
  destruct (sameSource _ _ && _); [repeat split|].
  cbv beta. destruct (originalImageBase64 (ui w)) as [src|] eqn:Eo;
    [destruct (isEmpty src)|]; run_handler; repeat split; now rewrite ?Eo.
Qed.

(** A timeout that is due fires the same way whatever the moment it is
    looked at. *)
Lemma elapse_due (now due : Z) (captured : Settings) (w : World) :
  timer w = Some (due, captured) -> due <= now ->
  exec (elapse now) w
  = exec (setTimer None;; setDebouncedValue captured;; runEffects due w) w.
Proof.
  intros Ht Hd. unfold elapse. run_handler. rewrite Ht.
  destruct (Z.leb_spec due now); [reflexivity | lia].
Qed.

Lemma elapse_fired (now due : Z) (captured : Settings) (w : World) :
  timer w = Some (due, captured) -> due <= now ->
  let w' := exec (elapse now) w in
  timer w' = None /\
  debouncedValue w' = captured /\
  settings (ui w') = settings (ui w) /\
  nextId w' = nextId w /\
  originalImageBase64 (ui w') = originalImageBase64 (ui w).
Proof.
  intros Ht Hd. cbv zeta. rewrite (elapse_due now due captured w Ht Hd).
  rewrite !exec_bind.
  set (w1 := exec (setDebouncedValue captured) (exec (setTimer None) w)).
  destruct (runEffects_keeps due w w1 eq_refl) as (H1 & H2 & H3 & H4 & H5).
  cbv zeta in *. rewrite H1, H2, H3, H4, H5. repeat split.
Qed.

(** X19: letting time pass in two steps is the same as in one: a
    timeout fires once, with the effects of the moment it was due. *)
Theorem elapse_composes (now later : Z) (w : World) :
  now <= later ->
  exec (elapse later) (exec (elapse now) w) = exec (elapse later) w.
Proof.
  intros Hle. destruct (timer w) as [[due captured]|] eqn:Ht.
  - destruct (Z.le_gt_cases due now) as [Hd|Hd].
    + destruct (elapse_fired now due captured w Ht Hd) as (Hn & _).
      rewrite exec_elapse_idle by (intros d v Hv; rewrite Hn in Hv; discriminate).
      rewrite (elapse_due now due captured w Ht Hd).
      rewrite (elapse_due later due captured w Ht) by lia. reflexivity.
    + rewrite (exec_elapse_idle now w); [reflexivity|].
      intros d v Hv. rewrite Ht in Hv. injection Hv as <- _. lia.
  - rewrite (exec_elapse_idle now w); [reflexivity|].
    intros d v Hv. rewrite Ht in Hv. discriminate.
Qed.

Lemma elapse_unloaded (now : Z) (w : World) :
  sourceLoaded (ui w) = false ->
  calls (exec (elapse now) w) = calls w /\
  ui (exec (elapse now) w) = ui w.
Proof.
  intros Ho. unfold elapse. run_handler.
  destruct (timer w) as [[due captured]|]; [|now split].
  destruct (due <=? now); [|now split].
  run_handler. rewrite runEffects_unloaded by (try reflexivity; exact Ho).
  now split.
Qed.

Lemma onChange_unloaded (t : Z) (e : ChangeEvent) (w : World) :
  sourceLoaded (ui w) = false ->
  let w' := exec (onChange b t e) w in
  calls w' = calls w /\
  sourceLoaded (ui w') = false /\
  processing (ui w') = processing (ui w).
Proof.
  intros Ho. unfold onChange, handleSettingChange, runEffects, debounceEffect.
  run_handler. rewrite sameSource_refl, Nat.eqb_refl. cbn [andb].
  destruct (Nat.eqb _ _); run_handler; repeat split; exact Ho.
Qed.

(** Without a source to process, a sequence of edits makes no call. *)
Lemma play_unloaded (edits : list (Z * ChangeEvent)) :
  forall w : World,
    sourceLoaded (ui w) = false ->
    let w' := exec (play b edits) w in
    calls w' = calls w /\
    sourceLoaded (ui w') = false /\
    processing (ui w') = processing (ui w).
Proof.
  induction edits as [|[t e] rest IH]; intros w Ho; cbv zeta.
  - change (exec (play b []) w) with w. repeat split. exact Ho.
  - cbn [play]. rewrite !exec_bind.
    destruct (elapse_unloaded t w Ho) as [Hc1 Hu1].
    assert (Ho1 : sourceLoaded (ui (exec (elapse t) w)) = false)
      by (now rewrite Hu1).
    destruct (onChange_unloaded t e _ Ho1) as (Hc2 & Ho2 & Hp2).
    destruct (IH _ Ho2) as (Hc3 & Ho3 & Hp3). cbv zeta in *.
    rewrite Hc3, Hc2, Hc1, Hp3, Hp2, Hu1. repeat split. exact Ho3.
Qed.

(** X20: while no source is loaded (none, or an empty string), no
    sequence of settings edits and no timeout ever calls [processImage],
    and the busy flag stays as it was: the guard of the effect (line 140)
    holds every run back. *)
Theorem no_source_no_run_ever (edits : list (Z * ChangeEvent)) (now : Z)
    (w : World) :
  sourceLoaded (ui w) = false ->
  let w' := exec (elapse now) (exec (play b edits) w) in
  calls w' = calls w /\
  sourceLoaded (ui w') = false /\
  processing (ui w') = processing (ui w).
Proof.
  intros Ho. cbv zeta.
  destruct (play_unloaded edits w Ho) as (Hc & Hs & Hp). cbv zeta in *.
  destruct (elapse_unloaded now _ Hs) as [Hc' Hu].
  rewrite Hc', Hu, Hc, Hp. repeat split. exact Hs.
Qed.

(** X21: an empty string is no source.  [processImage] called with it
    returns at once with nothing changed; and when a reader delivers the
    empty string, it is stored but never processed, by that render or by
    any later edit or timeout, so a busy flag set by [handleFile] stays
    set. *)
Theorem empty_data_url_is_never_processed (t later : Z)
    (edits : list (Z * ChangeEvent)) (q mw mh : number) (w : World) :
  let w1 := exec (withEffects t (reader_onload (Some ""%string))) w in
  let w2 := exec (elapse later) (exec (play b edits) w1) in
  processImage b "" q mw mh w = (Fulfilled, w) /\
  originalImageBase64 (ui w1) = Some ""%string /\
  calls w1 = calls w /\
  processing (ui w1) = processing (ui w) /\
  calls w2 = calls w /\
  processing (ui w2) = processing (ui w).
Proof.
  cbv zeta.
  assert (E1 : exec (withEffects t (reader_onload (Some ""%string))) w
               = exec (setOriginalImageBase64 (Some ""%string)) w).
  { unfold withEffects, reader_onload. run_handler.
    rewrite runEffects_unloaded by reflexivity. reflexivity. }
  rewrite E1.
  set (w1 := exec (setOriginalImageBase64 (Some ""%string)) w).
  destruct (play_unloaded edits w1 eq_refl) as (Hc & Hs & Hp).
  cbv zeta in *.
  destruct (elapse_unloaded later _ Hs) as [Hc' Hu].
  rewrite Hc', Hu, Hc, Hp. repeat split.
Qed.

(** The objects stay fresh through a timeout and through an edit. *)
Lemma elapse_fresh (now : Z) (w : World) :
  freshIds w = true -> timerFresh w = true ->
  let w' := exec (elapse now) w in
  freshIds w' = true /\ timerFresh w' = true /\
  fields (settings (ui w')) = fields (settings (ui w)).
Proof.
  intros Hf Ht. cbv zeta.
  destruct (timer w) as [[due captured]|] eqn:E.
  - destruct (Z.le_gt_cases due now) as [Hd|Hd].
    + destruct (elapse_fired now due captured w E Hd) as (H1 & H2 & H3 & H4 & _).
      cbv zeta in *. unfold freshIds, timerFresh in *. rewrite E in Ht.
      rewrite H1, H2, H3, H4. apply andb_true_iff in Hf. destruct Hf as [Hs _].
      rewrite Hs, Ht. repeat split.
    + rewrite (exec_elapse_idle now w); [now repeat split|].
      intros d v Hv. rewrite E in Hv. injection Hv as <- _. lia.
  - rewrite (exec_elapse_idle now w); [now repeat split|].
    intros d v Hv. rewrite E in Hv. discriminate.
Qed.

Lemma onChange_fresh (t : Z) (e : ChangeEvent) (w : World) :
  freshIds w = true ->
  let w' := exec (onChange b t e) w in
  freshIds w' = true /\ timerFresh w' = true.
Proof.
  intros Hf. cbv zeta.
  destruct (onChange_rearms b t e w Hf) as (Ht & _ & Hd & _ & _ & Ho & Hn).
  cbv zeta in *. unfold freshIds, timerFresh in *. rewrite Ht, Hd, Ho, Hn.
  apply andb_true_iff in Hf. destruct Hf as [_ Hd'].
  apply Nat.ltb_lt in Hd'. split.
  - apply andb_true_iff. split; apply Nat.ltb_lt; lia.
  - apply Nat.ltb_lt. lia.
Qed.

Lemma play_any_timing (edits : list (Z * ChangeEvent)) :
  forall (t : Z) (e : ChangeEvent) (w0 : World),
    freshIds w0 = true -> timerFresh w0 = true ->
    let all := (t, e) :: edits in
    let w := exec (play b all) w0 in
    fields (settings (ui w)) = editedFields b all (fields (settings (ui w0))) /\
    timer w = Some (lastTime all + delay, settings (ui w)).
Proof.
  induction edits as [|[t' e'] rest IH]; intros t e w0 Hf Ht; cbv zeta.
  - cbn [play]. rewrite !exec_bind.
    change (exec (mret tt) ?w) with w.
    destruct (elapse_fresh t w0 Hf Ht) as (Hf1 & Ht1 & Hs1). cbv zeta in *.
    destruct (onChange_rearms b t e _ Hf1) as (Htm & _ & _ & _ & Hfs & _).
    cbv zeta in *. rewrite Htm, Hfs, Hs1. split; reflexivity.
  - change (play b ((t, e) :: (t', e') :: rest))
      with (elapse t;; onChange b t e;; play b ((t', e') :: rest)).
    rewrite !exec_bind.
    destruct (elapse_fresh t w0 Hf Ht) as (Hf1 & Ht1 & Hs1). cbv zeta in *.
    destruct (onChange_rearms b t e _ Hf1) as (_ & _ & _ & _ & Hfs & _).
    destruct (onChange_fresh t e _ Hf1) as (Hf2 & Ht2). cbv zeta in *.
    destruct (IH t' e' _ Hf2 Ht2) as (Hfs' & Htm'). cbv zeta in *.
    rewrite Hfs', Htm', Hfs, Hs1, lastTime_cons. split; reflexivity.
Qed.

(** X22: after any sequence of settings edits, however they are spaced
    in time, the settings hold the edits applied in order, and once 500
    ms have passed since the last edit the debounced settings are the
    settings object itself, no timeout is pending, and nothing changes
    any more as time passes. *)
Theorem debounced_settings_catch_up (edits : list (Z * ChangeEvent))
    (t : Z) (e : ChangeEvent) (w0 : World) :
  freshIds w0 = true ->
  timerFresh w0 = true ->
  let all := (t, e) :: edits in
  let w := exec (play b all) w0 in
  fields (settings (ui w)) = editedFields b all (fields (settings (ui w0))) /\
  (forall now : Z, lastTime all + delay <= now ->
     let w' := exec (elapse now) w in
     debouncedValue w' = settings (ui w) /\
     settings (ui w') = settings (ui w) /\
     timer w' = None /\
     (forall later : Z, exec (elapse later) w' = w')).
Proof.
  intros Hf Ht. destruct (play_any_timing edits t e w0 Hf Ht) as [Hfs Htm].
  cbv zeta in *. split; [exact Hfs|].
  intros now Hnow.
  destruct (elapse_fired now _ _ _ Htm Hnow) as (H1 & H2 & H3 & _).
  cbv zeta in *. repeat split; try assumption.
  intros later. apply exec_elapse_idle.
  intros d v Hv. rewrite H1 in Hv. discriminate.
Qed.

End Timers.

Lemma elapse_composes_witness :
  exec (elapse 900) (exec (elapse 300) initialWorld)
  = exec (elapse 900) initialWorld.
Proof. apply (elapse_composes 300 900 initialWorld). lia. Defined.

Lemma no_source_no_run_ever_witness :
  let w := initialWorld in
  let w' := exec (elapse 1800) (exec (play workingBrowser typing640) w) in
  calls w' = calls w /\
  sourceLoaded (ui w') = false /\
  processing (ui w') = processing (ui w).
Proof.
  apply (no_source_no_run_ever workingBrowser typing640 1800 initialWorld).
  reflexivity.
Defined.

Lemma debounced_settings_catch_up_witness :
  let all := (1000, mkChange "maxWidth" "640" "number")
             :: [(1600, mkChange "maxWidth" "320" "number")] in
  let w0 := processedWorld in
  let w := exec (play workingBrowser all) w0 in
  fields (settings (ui w))
  = editedFields workingBrowser all (fields (settings (ui w0))) /\
  (forall now : Z, lastTime all + delay <= now ->
     let w' := exec (elapse now) w in
     debouncedValue w' = settings (ui w) /\
     settings (ui w') = settings (ui w) /\
     timer w' = None /\
     (forall later : Z, exec (elapse later) w' = w')).
Proof.
  apply (debounced_settings_catch_up workingBrowser
           [(1600, mkChange "maxWidth" "320" "number")]
           1000 (mkChange "maxWidth" "640" "number") processedWorld);
    reflexivity.
Defined.

Section Invariant.

Variable b : Browser.








End Invariant.

